(** * SISL: the reference-resolution core of the dasl.ing spec generator

    A shallow embedding of the build script (class [SISL] and its helper
    functions [slugify], [today], [esc], [norm], [joinList]) together with the
    properties of its citation and definition machinery.

    JavaScript strings are sequences of UTF-16 code units; they are modelled
    as lists of code units ([N]).  Plain objects used as dictionaries are
    modelled with their own properties in creation order and their inherited
    [Object.prototype] members, since the script reads them with [obj[key]]. *)

From Stdlib Require Import String Ascii.
From Stdlib Require Import List NArith ZArith Lia Bool.
From Stdlib Require Import Permutation Sorted DecimalString DecimalN.
Import ListNotations.

Set Implicit Arguments.

(* ================================================================= *)
(** ** Strings of UTF-16 code units *)

Module Js.

Local Open Scope N_scope.

Definition char := N.
Definition jsstring := list char.

(** A string literal of the source, as code units. *)
Definition lit (s : string) : jsstring :=
  map N_of_ascii (list_ascii_of_string s).

Fixpoint eqb (s t : jsstring) : bool :=
  match s, t with
  | [], [] => true
  | c :: s', d :: t' => N.eqb c d && eqb s' t'
  | _, _ => false
  end.

(** Comparison of strings by code units, the order of the default
    [Array.prototype.sort]. *)
Fixpoint leb (s t : jsstring) : bool :=
  match s, t with
  | [], _ => true
  | _ :: _, [] => false
  | c :: s', d :: t' =>
      if N.ltb c d then true
      else if N.eqb c d then leb s' t' else false
  end.

(** Truthiness of a string: every string but the empty one. *)
Definition truthy (s : jsstring) : bool :=
  match s with [] => false | _ :: _ => true end.

(** [a || b] on strings. *)
Definition or_else (s d : jsstring) : jsstring :=
  if truthy s then s else d.

(** [parts.join(sep)] *)
Fixpoint join (sep : jsstring) (parts : list jsstring) : jsstring :=
  match parts with
  | [] => []
  | [p] => p
  | p :: rest => p ++ sep ++ join sep rest
  end.

(** *** Character classes of the regular expressions *)

Definition in_range (lo hi c : N) : bool := N.leb lo c && N.leb c hi.

(** [\w] (no unicode flag): [A-Za-z0-9_]. *)
Definition is_word (c : char) : bool :=
  in_range 48 57 c || in_range 65 90 c || N.eqb c 95 || in_range 97 122 c.

(** [[\w-]] *)
Definition is_key_char (c : char) : bool := is_word c || N.eqb c 45.

(** [\s]: the ECMAScript WhiteSpace and LineTerminator code points. *)
Definition is_space (c : char) : bool :=
  in_range 9 13 c || N.eqb c 32 || N.eqb c 160 || N.eqb c 5760
  || in_range 8192 8202 c || N.eqb c 8232 || N.eqb c 8233
  || N.eqb c 8239 || N.eqb c 8287 || N.eqb c 12288 || N.eqb c 65279.

Definition is_hyphen (c : char) : bool := N.eqb c 45.

(** [.]: anything but a line terminator. *)
Definition is_dot (c : char) : bool :=
  negb (N.eqb c 10 || N.eqb c 13 || N.eqb c 8232 || N.eqb c 8233).

(** *** String methods *)

(** [String.prototype.toLowerCase].  ASCII capitals map to their small
    letters.  Two code points outside ASCII have a lower case inside it:
    U+0130 (to [i] followed by U+0307) and U+212A, the Kelvin sign (to [k]).
    Every other code unit outside ASCII stays outside ASCII; which unit it
    becomes is not followed here (it is kept as it is), the script replaces
    all of them by a hyphen in the step that follows. *)
Definition lower_char (c : char) : jsstring :=
  if in_range 65 90 c then [c + 32]
  else if N.eqb c 304 then [105; 775]
  else if N.eqb c 8490 then [107]
  else [c].

Definition toLowerCase (s : jsstring) : jsstring := flat_map lower_char s.

(** [String(n)] for a non-negative integer below 10^21. *)
Definition of_N (n : N) : jsstring :=
  lit (NilEmpty.string_of_uint (N.to_uint n)).

(** The last decimal digit of [n], as a character. *)
Definition digit_char (n : Z) : char := Z.to_N (48 + n mod 10)%Z.

(** [n] rendered with exactly [w] decimal digits (zero padded). *)
Fixpoint digits (w : nat) (n : Z) : jsstring :=
  match w with
  | O => []
  | S w' => digits w' (n / 10)%Z ++ [digit_char n]
  end.

(** The double quote, U+0022. *)
Definition dquote : jsstring := [34].

Definition is_digit (c : char) : bool := in_range 48 57 c.

End Js.

Import Js.
Local Open Scope N_scope.

(* ================================================================= *)
(** ** The helper functions of the script *)

(** [s.replace(/&/g, ...)] and its siblings: every occurrence of one code
    unit replaced by a string. *)
Definition replace_char (c : char) (by_ : jsstring) (s : jsstring) : jsstring :=
  flat_map (fun d => if N.eqb d c then by_ else [d]) s.

(** [esc]: on [(str || '')], the ampersands are replaced first, then the
    less-than signs, then the double quotes, each by its entity. *)
Definition esc (str : jsstring) : jsstring :=
  replace_char 34 (lit "&quot;")
    (replace_char 60 (lit "&lt;")
       (replace_char 38 (lit "&amp;") (or_else str []))).

(** Removing the longest prefix, or suffix, of characters of a class. *)
Fixpoint drop_while (p : char -> bool) (s : jsstring) : jsstring :=
  match s with
  | [] => []
  | c :: s' => if p c then drop_while p s' else s
  end.

Fixpoint drop_end (p : char -> bool) (s : jsstring) : jsstring :=
  match s with
  | [] => []
  | c :: s' =>
      match drop_end p s' with
      | [] => if p c then [] else [c]
      | t => c :: t
      end
  end.

(** [s.replace(/^\s+|\s+$/g, '')] *)
Definition trim (s : jsstring) : jsstring :=
  drop_end is_space (drop_while is_space s).

(** [norm]: [(str || '').replace(/\s/g, ' ').replace(/^\s+|\s+$/g, '')].
    Every white space character becomes one space (runs are not merged),
    then both ends are trimmed. *)
Definition norm (str : jsstring) : jsstring :=
  trim (map (fun c => if is_space c then 32 else c) (or_else str [])).

(** [joinList] *)
Definition joinList (authors : list jsstring) : jsstring :=
  match authors with
  | [a] => a
  | [_; _] => join (lit " & ") authors
  | _ =>
      join (lit ", ")
        (map (fun p : nat * jsstring =>
                if Nat.eqb (fst p) (length authors - 1)%nat
                then lit "& " ++ snd p else snd p)
             (combine (seq 0 (length authors)) authors))
  end.

(** The argument of [htmlifyReference]. *)
Record reference := Reference {
  author : jsstring;
  title : jsstring;
  date : jsstring;
  url : jsstring
}.

(** [htmlifyReference] *)
Definition htmlifyReference (r : reference) : jsstring :=
  esc (author r) ++ lit ". <a href=" ++ dquote ++ esc (url r) ++ dquote
  ++ lit "><cite>" ++ esc (title r) ++ lit "</cite></a>. " ++ esc (date r)
  ++ lit ". URL:&nbsp;<a href=" ++ dquote ++ esc (url r) ++ dquote
  ++ lit ">" ++ esc (url r) ++ lit "</a>".

(* ================================================================= *)
(** ** Plain objects used as dictionaries *)

(** Insertion sort; [Array.prototype.sort] and the ordering of integer keys
    are both instances of it (the keys of an object are pairwise different,
    so the sorted result does not depend on the algorithm). *)
Section Sort.
Variable A : Type.
Variable le : A -> A -> bool.

Fixpoint insert_sorted (x : A) (l : list A) : list A :=
  match l with
  | [] => [x]
  | y :: l' => if le x y then x :: l else y :: insert_sorted x l'
  end.

Fixpoint sort (l : list A) : list A :=
  match l with
  | [] => []
  | x :: l' => insert_sorted x (sort l')
  end.
End Sort.

(** An array index: the canonical decimal form of an integer below 2^32 - 1.
    [Object.keys] lists such keys first, in ascending numeric order. *)
Definition decimal_value (k : jsstring) : N :=
  fold_left (fun acc c => acc * 10 + (c - 48)) k 0.

Definition array_index (k : jsstring) : option N :=
  match k with
  | [] => None
  | c :: r =>
      if forallb is_digit k && (negb (N.eqb c 48) || negb (truthy r))
         && N.ltb (decimal_value k) 4294967295
      then Some (decimal_value k) else None
  end.

Definition is_array_index (k : jsstring) : bool :=
  match array_index k with Some _ => true | None => false end.

Definition index_leb (k1 k2 : jsstring) : bool :=
  N.leb (decimal_value k1) (decimal_value k2).

(** The name of the accessor through which [obj.__proto__] is reached. *)
Definition proto_key : jsstring := lit "__proto__".

(** The members every plain object inherits from [Object.prototype]. *)
Definition Object_prototype : list jsstring :=
  [ lit "constructor"; lit "hasOwnProperty"; lit "isPrototypeOf";
    lit "propertyIsEnumerable"; lit "toLocaleString"; lit "toString";
    lit "valueOf"; lit "__defineGetter__"; lit "__defineSetter__";
    lit "__lookupGetter__"; lit "__lookupSetter__"; proto_key ].

Section Objects.
Variable V : Type.

(** The own properties of an object, in creation order. *)
Definition object := list (jsstring * V).

Fixpoint own (o : object) (k : jsstring) : option V :=
  match o with
  | [] => None
  | (k', v) :: o' => if Js.eqb k' k then Some v else own o' k
  end.

Definition hasOwn (o : object) (k : jsstring) : bool :=
  match own o k with Some _ => true | None => false end.

(** Creating or overwriting an own data property. *)
Fixpoint define (o : object) (k : jsstring) (v : V) : object :=
  match o with
  | [] => [(k, v)]
  | (k', v') :: o' =>
      if Js.eqb k' k then (k', v) :: o' else (k', v') :: define o' k v
  end.

(** [o[k] = v] on a plain object whose prototype is [Object.prototype] (or
    an object created from it).  The key [__proto__], unless an own
    property shadows it, reaches the inherited setter, which creates no
    own property. *)
Definition assign (o : object) (k : jsstring) (v : V) : object :=
  if Js.eqb k proto_key && negb (hasOwn o k) then o else define o k v.

(** [JSON.parse] of an object: members are defined in order, a repeated
    name overwrites the earlier value. *)
Definition JSON_parse (members : list (jsstring * V)) : object :=
  fold_left (fun o m => define o (fst m) (snd m)) members [].

(** [Object.keys(o)] *)
Definition keys (o : object) : list jsstring :=
  sort index_leb (filter is_array_index (map fst o))
  ++ filter (fun k => negb (is_array_index k)) (map fst o).
End Objects.

(** What a bibliography lookup can yield: a citation fragment, or one of
    the built-in members inherited from [Object.prototype] (a function, or
    for [__proto__] the prototype object itself). *)
Inductive value :=
| Str (s : jsstring)
| Native (name : jsstring).

Definition truthy_value (v : value) : bool :=
  match v with Str s => truthy s | Native _ => true end.

(** [o[k]] read on a plain object: the own property, or else the inherited
    member of that name. *)
Definition get (o : object value) (k : jsstring) : option value :=
  match own o k with
  | Some v => Some v
  | None => if existsb (Js.eqb k) Object_prototype then Some (Native k) else None
  end.

(** A value used in a boolean context; [undefined] is falsy. *)
Definition truthy_opt (v : option value) : bool :=
  match v with Some v => truthy_value v | None => false end.

(* ================================================================= *)
(** ** The document and [slugify] *)

(** A document is seen through its elements, in tree order, with the
    attributes the resolver reads and writes.  [textContent] is the text of
    the element and its descendants; no step of the resolver changes it. *)
Record element := Element {
  tag : jsstring;
  id : option jsstring;
  textContent : jsstring;
  href : option jsstring;
  className : jsstring
}.

Definition document := list element.

Definition has_id (i : jsstring) (e : element) : bool :=
  match id e with Some j => Js.eqb j i | None => false end.

(** [doc.getElementById(i)]: the first element, in tree order, whose id is
    [i]; the empty string is nobody's id. *)
Definition getElementById (doc : document) (i : jsstring) : option element :=
  if truthy i then find (has_id i) doc else None.

(** [el.setAttribute('id', i)] *)
Definition set_id (i : jsstring) (e : element) : element :=
  Element (tag e) (Some i) (textContent e) (href e) (className e).

(** [.replace(/\W/g, '-')] *)
Definition replace_nonword (s : jsstring) : jsstring :=
  map (fun c => if is_word c then c else 45) s.

(** [.replace(/-{2,}/g, '-')]: of every run of hyphens the first one stays.
    [prev] tells whether the code unit before [s] was a hyphen. *)
Fixpoint collapse_from (prev : bool) (s : jsstring) : jsstring :=
  match s with
  | [] => []
  | c :: s' =>
      if is_hyphen c
      then (if prev then collapse_from true s' else c :: collapse_from true s')
      else c :: collapse_from false s'
  end.

Definition collapse_hyphens (s : jsstring) : jsstring := collapse_from false s.

(** [.replace(/^-|-$/g, '')]: one hyphen at the start and one at the end. *)
Definition strip_leading (s : jsstring) : jsstring :=
  match s with
  | c :: s' => if is_hyphen c then s' else s
  | [] => []
  end.

Fixpoint strip_trailing (s : jsstring) : jsstring :=
  match s with
  | [] => []
  | [c] => if is_hyphen c then [] else [c]
  | c :: s' => c :: strip_trailing s'
  end.

Definition strip_hyphens (s : jsstring) : jsstring :=
  strip_trailing (strip_leading s).

(** The constant [txt] of [slugify]. *)
Definition slug_text (text : jsstring) : jsstring :=
  strip_hyphens
    (collapse_hyphens
       (replace_nonword (toLowerCase (or_else (norm text) (lit "empty"))))).

(** The entries of the array [[pfx, txt, suf]]. *)
Inductive part :=
| PStr (s : jsstring)
| PNum (n : N)
| PUndefined.

(** [Boolean(p)] *)
Definition Boolean (p : part) : bool :=
  match p with
  | PStr s => truthy s
  | PNum n => negb (N.eqb n 0)
  | PUndefined => false
  end.

Definition part_string (p : part) : jsstring :=
  match p with
  | PStr s => s
  | PNum n => of_N n
  | PUndefined => []
  end.

Definition suffix_part (suf : option N) : part :=
  match suf with Some n => PNum n | None => PUndefined end.

(** [idify]: [[pfx, txt, suf].filter(Boolean).join('-')] *)
Definition idify (pfx txt : jsstring) (suf : option N) : jsstring :=
  join (lit "-")
    (map part_string (filter Boolean [PStr pfx; PStr txt; suffix_part suf])).

(** [suf++] on a double: exact below 2^53, without effect from there on. *)
Definition two53 : N := 9007199254740992.

Definition incr (n : N) : N := if N.ltb n two53 then n + 1 else n.

(** [if (!suf) suf = 0; suf++] *)
Definition next_suffix (suf : option N) : N :=
  incr (match suf with
        | Some n => if N.eqb n 0 then 0 else n
        | None => 0
        end).

(** The [while] loop of [slugify]; [None] when [fuel] iterations do not
    reach its exit. *)
Fixpoint slug_loop (fuel : nat) (doc : document) (pfx txt : jsstring)
    (suf : option N) (i : jsstring) : option jsstring :=
  match getElementById doc i with
  | None => Some i
  | Some _ =>
      match fuel with
      | O => None
      | S fuel' =>
          let suf' := Some (next_suffix suf) in
          slug_loop fuel' doc pfx txt suf' (idify pfx txt suf')
      end
  end.

Definition slugify_fuel (fuel : nat) (doc : document) (el : element)
    (pfx : jsstring) (unique : bool) : option jsstring :=
  match id el with
  | Some i => Some i
  | None =>
      let txt := slug_text (textContent el) in
      let i := idify pfx txt None in
      if unique then slug_loop fuel doc pfx txt None i else Some i
  end.

(** [slugify(doc, el, pfx, unique)].  The loop is given one iteration more
    than the document has elements. *)
Definition slugify (doc : document) (el : element) (pfx : jsstring)
    (unique : bool) : option jsstring :=
  slugify_fuel (S (length doc)) doc el pfx unique.

(* ================================================================= *)
(** ** The definition and cross-reference passes of [build] *)

Definition is_dfn (e : element) : bool := Js.eqb (tag e) (lit "dfn").

(** The selector [a:not([href])]. *)
Definition is_bare_link (e : element) : bool :=
  Js.eqb (tag e) (lit "a")
  && match href e with Some _ => false | None => true end.

(** The loop over [doc.querySelectorAll('dfn')].  The elements are visited
    in tree order: [visited] are those already gone through, with their new
    ids, [todo] those still to come; the document at any moment is
    [visited ++ todo]. *)
Fixpoint dfn_pass (visited todo : document) : option document :=
  match todo with
  | [] => Some visited
  | e :: rest =>
      if is_dfn e then
        match slugify (visited ++ todo) e (lit "dfn") true with
        | Some i => dfn_pass (visited ++ [set_id i e]) rest
        | None => None
        end
      else dfn_pass (visited ++ [e]) rest
  end.

(** The message of an unresolved link. *)
Definition empty_link_error (text i : jsstring) : jsstring :=
  lit "Empty link " ++ dquote ++ text ++ dquote ++ lit " (#" ++ i
  ++ lit ") has no matching dfn.".

(** [a.setAttribute('href', '#' + i); a.className = 'dfn-ref'] *)
Definition set_dfn_ref (i : jsstring) (e : element) : element :=
  Element (tag e) (id e) (textContent e) (Some (lit "#" ++ i)) (lit "dfn-ref").

(** The loop over [doc.querySelectorAll('a:not([href])')]; [errs] collects
    the lines passed to [err]. *)
Fixpoint link_pass (visited todo : document) (errs : list jsstring)
    : option (document * list jsstring) :=
  match todo with
  | [] => Some (visited, errs)
  | e :: rest =>
      if is_bare_link e then
        match slugify (visited ++ todo) e (lit "dfn") false with
        | Some i =>
            match getElementById (visited ++ todo) i with
            | Some _ => link_pass (visited ++ [set_dfn_ref i e]) rest errs
            | None =>
                link_pass (visited ++ [e]) rest
                  (errs ++ [empty_link_error (textContent e) i])
            end
        | None => None
        end
      else link_pass (visited ++ [e]) rest errs
  end.

(** Both passes, as [build] runs them on one document. *)
Definition resolve (doc : document) (errs : list jsstring)
    : option (document * list jsstring) :=
  match dfn_pass [] doc with
  | Some doc1 => link_pass [] doc1 errs
  | None => None
  end.

(** The identifiers the loop of [slugify] goes through: the raw one
    (number 0) and the suffixed ones. *)
Definition candidate (pfx txt : jsstring) (k : nat) : jsstring :=
  idify pfx txt (Some (N.of_nat k)).

(** The definition sites without an id of their own whose text gives the
    slug [txt]. *)
Definition in_collection (txt : jsstring) (e : element) : bool :=
  is_dfn e
  && match id e with Some _ => false | None => true end
  && Js.eqb (slug_text (textContent e)) txt.

(** A document small enough for the suffix counter to stay exact. *)
Definition fits (doc : document) : Prop :=
  (N.of_nat (length doc) < two53)%N.

(* ================================================================= *)
(** ** [today] *)

Local Open Scope Z_scope.

Definition msPerDay : Z := 86400000.

(** Year, month and day of the month of a day number counted from
    1970-01-01 (the proleptic Gregorian calendar of [Date]). *)
Definition date_of_day (d : Z) : Z * Z * Z :=
  let z := d + 719468 in
  let era := z / 146097 in
  let doe := z mod 146097 in
  let yoe := (doe - doe / 1460 + doe / 36524 - doe / 146096) / 365 in
  let doy := doe - (365 * yoe + yoe / 4 - yoe / 100) in
  let mp := (5 * doy + 2) / 153 in
  let dd := doy - (153 * mp + 2) / 5 + 1 in
  let mm := if mp <? 10 then mp + 3 else mp - 9 in
  (yoe + era * 400 + (if mm <=? 2 then 1 else 0), mm, dd).

Definition YearFromTime (t : Z) : Z := fst (fst (date_of_day (t / msPerDay))).

(** The year of an ISO string: four digits from 0 to 9999, otherwise a sign
    and six digits. *)
Definition iso_year (y : Z) : jsstring :=
  if (0 <=? y) && (y <=? 9999) then digits 4 y
  else (if y <? 0 then lit "-" else lit "+") ++ digits 6 (Z.abs y).

Definition iso_date (t : Z) : jsstring :=
  let '(y, m, d) := date_of_day (t / msPerDay) in
  iso_year y ++ lit "-" ++ digits 2 m ++ lit "-" ++ digits 2 d.

Definition iso_time (t : Z) : jsstring :=
  let ms := t mod msPerDay in
  digits 2 (ms / 3600000) ++ lit ":" ++ digits 2 (ms / 60000 mod 60)
  ++ lit ":" ++ digits 2 (ms / 1000 mod 60) ++ lit "."
  ++ digits 3 (ms mod 1000) ++ lit "Z".

(** [new Date(t).toISOString()] for a time value [t], in milliseconds since
    the epoch. *)
Definition toISOString (t : Z) : jsstring :=
  iso_date t ++ lit "T" ++ iso_time t.

Local Close Scope Z_scope.

(** [.replace(/T.+/, '')]: the first [T] that is followed by a character
    other than a line terminator goes, with all such characters after it. *)
Fixpoint replace_T_rest (s : jsstring) : jsstring :=
  match s with
  | [] => []
  | c :: s' =>
      if N.eqb c 84 then
        match s' with
        | d :: _ => if is_dot d then drop_while is_dot s' else c :: replace_T_rest s'
        | [] => [c]
        end
      else c :: replace_T_rest s'
  end.

(** [today()], when the clock reads [now]. *)
Definition today (now : Z) : jsstring := replace_T_rest (toISOString now).

(** The shape [YYYY-MM-DD]. *)
Definition is_YYYY_MM_DD (s : jsstring) : bool :=
  match s with
  | [y1; y2; y3; y4; h1; m1; m2; h2; d1; d2] =>
      forallb is_digit [y1; y2; y3; y4; m1; m2; d1; d2]
      && is_hyphen h1 && is_hyphen h2
  | _ => false
  end.

(* ================================================================= *)
(** ** The citation pass of [build] *)

Fixpoint span (p : char -> bool) (s : jsstring) : jsstring * jsstring :=
  match s with
  | [] => ([], [])
  | c :: s' =>
      if p c then let (a, b) := span p s' in (c :: a, b) else ([], s)
  end.

(** A match of the marker pattern, two opening brackets, one or more
    characters of the class [[\w-]], two closing brackets, at the start of
    [s]: the captured key and what follows the match. *)
Definition match_marker (s : jsstring) : option (jsstring * jsstring) :=
  match s with
  | c1 :: c2 :: s1 =>
      if N.eqb c1 91 && N.eqb c2 91 then
        match span is_key_char s1 with
        | (key, c3 :: c4 :: rest) =>
            if truthy key && N.eqb c3 93 && N.eqb c4 93
            then Some (key, rest) else None
        | _ => None
        end
      else None
  | _ => None
  end.

Section Replace.
Variable State : Type.
Variable callback : jsstring -> State -> jsstring * State.

(** [html.replace(/.../g, callback)]: matches are looked for from left to
    right and do not overlap.  [skip] counts the code units of the current
    match that are still to be passed over. *)
Fixpoint replace_markers (skip : nat) (s : jsstring) (st : State)
    : jsstring * State :=
  match s with
  | [] => ([], st)
  | c :: s' =>
      match skip with
      | S n => replace_markers n s' st
      | O =>
          match match_marker s with
          | Some (key, _) =>
              let (r, st1) := callback key st in
              let (out, st2) := replace_markers (length key + 3) s' st1 in
              (r ++ out, st2)
          | None =>
              let (out, st2) := replace_markers 0 s' st in
              (c :: out, st2)
          end
      end
  end.
End Replace.

(** The text of a marker. *)
Definition marker (ref : jsstring) : jsstring := lit "[[" ++ ref ++ lit "]]".

(** The link that replaces a resolved marker. *)
Definition ref_link (ref : jsstring) : jsstring :=
  lit "[<a href=" ++ dquote ++ lit "#ref-" ++ ref ++ dquote ++ lit " class="
  ++ dquote ++ lit "ref" ++ dquote ++ lit ">" ++ ref ++ lit "</a>]".

Definition no_entry_error (ref : jsstring) : jsstring :=
  lit "No " ++ dquote ++ ref ++ dquote ++ lit " entry in the bibliography.".

(** What the citation pass carries along: the object [refs] and the lines
    passed to [err]. *)
Definition cite_state := (object value * list jsstring)%type.

(** The callback of the replacement. *)
Definition cite (bibliography : object value) (ref : jsstring)
    (st : cite_state) : jsstring * cite_state :=
  let (refs, errs) := st in
  match get bibliography ref with
  | Some v =>
      if truthy_value v then (ref_link ref, (assign refs ref v, errs))
      else (marker ref, (refs, errs ++ [no_entry_error ref]))
  | None => (marker ref, (refs, errs ++ [no_entry_error ref]))
  end.

(** One entry of the references list: the [dt] with its id and text, and
    what is assigned to the [innerHTML] of the [dd]. *)
Record ref_entry := RefEntry {
  dt_id : jsstring;
  dt_text : jsstring;
  dd_innerHTML : option value
}.

(** The section appended to [main]: its heading and the entries of its
    definition list. *)
Record ref_section := RefSection {
  heading : jsstring;
  entries : list ref_entry
}.

Definition references_section (refs : object value) : option ref_section :=
  match keys refs with
  | [] => None
  | _ :: _ =>
      Some (RefSection (lit "References")
              (map (fun r => RefEntry (lit "ref-" ++ r)
                               (lit "[" ++ r ++ lit "]") (get refs r))
                   (sort Js.leb (keys refs))))
  end.

(* ================================================================= *)
(** ** [build] *)

Record person := Person {
  name : jsstring;
  email : jsstring;
  site : jsstring
}.

(** [people.json], parsed: the own properties of the object [people], each
    an entry that holds its [name], [email] and [site] as strings. *)
Definition registry := object person.

(** What [people[au]] yields: an entry of the registry or, since [people] is
    a plain object, the member of that name inherited from
    [Object.prototype]. *)
Inductive registrant :=
| Entry (p : person)
| Inherited (member : jsstring).

(** [people[au]]; [None] stands for [undefined]. *)
Definition lookup_person (people : registry) (au : jsstring)
    : option registrant :=
  match own people au with
  | Some p => Some (Entry p)
  | None =>
      if existsb (Js.eqb au) Object_prototype then Some (Inherited au)
      else None
  end.

(** [people[au].name]: the name of an entry; the [name] of an inherited
    function, which is the name of the member, except that [constructor] is
    the function [Object]; [undefined] ([None]) for the prototype object
    that [__proto__] yields. *)
Definition registrant_name (r : registrant) : option jsstring :=
  match r with
  | Entry p => Some (name p)
  | Inherited member =>
      if Js.eqb member proto_key then None
      else if Js.eqb member (lit "constructor") then Some (lit "Object")
      else Some member
  end.

(** One entry of [specs].  [doc_elements] are the elements of the document
    in the tree order in which the loops of the resolver find them (the
    elements that the assembly of the page adds carry no id and are neither
    definitions nor links without [href]).  [main_innerHTML] stands for the
    serialization of the [main] element that jsdom produces once the page
    has been assembled and the definitions and links resolved; it is a
    function of the elements as the resolver leaves them. *)
Record source := Source {
  doc_title : jsstring;
  doc_authors : list jsstring;
  doc_elements : document;
  main_innerHTML : document -> jsstring
}.

(** [authors.map(au => people[au].name)]; reading [name] of [undefined]
    throws. *)
Fixpoint author_names (people : registry) (aus : list jsstring)
    : option (list (option jsstring)) :=
  match aus with
  | [] => Some []
  | au :: rest =>
      match lookup_person people au with
      | None => None
      | Some r =>
          match author_names people rest with
          | Some ns => Some (registrant_name r :: ns)
          | None => None
          end
      end
  end.

(** The names as [joinList] and [esc] read them when one of them is
    [undefined]: [join] renders it as the empty string, and so does [esc]
    when a single name is returned as it is; the template literal that
    precedes the last of three or more names ([long]) renders it as the text
    [undefined]. *)
Fixpoint rendered_names (long : bool) (names : list (option jsstring))
    : list jsstring :=
  match names with
  | [] => []
  | [n] =>
      [match n with
       | Some s => s
       | None => if long then lit "undefined" else []
       end]
  | n :: rest =>
      match n with Some s => s | None => [] end :: rendered_names long rest
  end.

(** [joinList(authors.map(au => people[au].name))], as [esc] reads it. *)
Definition author_field (names : list (option jsstring)) : jsstring :=
  joinList (rendered_names (Nat.leb 3 (length names)) names).

Definition spec_url (shortname : jsstring) : jsstring :=
  lit "https://dasl.ing/" ++ shortname ++ lit ".html".

(** The object handed to [htmlifyReference] for one document, when the
    clock reads [now]. *)
Definition self_reference (people : registry) (now : Z)
    (shortname : jsstring) (s : source) : option reference :=
  match author_names people (doc_authors s) with
  | Some ns =>
      Some (Reference (author_field ns) (doc_title s) (today now)
              (spec_url shortname))
  | None => None
  end.

(** The first loop over [Object.keys(specs)]: the bibliography receives one
    entry per document.  [clock n] is what the clock reads at the [n]-th
    call of [today] in this loop; [None] when a call throws. *)
Fixpoint synthesize (people : registry) (clock : nat -> Z)
    (specs : object source) (tick : nat) (shortnames : list jsstring)
    (bibliography : object value) : option (object value) :=
  match shortnames with
  | [] => Some bibliography
  | shortname :: rest =>
      match own specs shortname with
      | Some s =>
          match self_reference people (clock tick) shortname s with
          | Some r =>
              synthesize people clock specs (S tick) rest
                (assign bibliography shortname (Str (htmlifyReference r)))
          | None => None
          end
      | None => None
      end
  end.

(** What is written for one document: the new [innerHTML] of [main] and the
    references section appended to it, if any. *)
Record page := Page {
  main : jsstring;
  references : option ref_section
}.

Definition missing_abstract_error (t : jsstring) : jsstring :=
  lit "Missing abstract in " ++ t.

(** The body of the second loop for one document. *)
Definition process (bibliography : object value) (s : source)
    (errs : list jsstring) : option (page * list jsstring) :=
  let errs1 :=
    match getElementById (doc_elements s) (lit "abstract") with
    | Some _ => errs
    | None => errs ++ [missing_abstract_error (doc_title s)]
    end in
  match resolve (doc_elements s) errs1 with
  | Some (els, errs2) =>
      let '(html, (refs, errs3)) :=
        replace_markers (cite bibliography) 0 (main_innerHTML s els)
          ([], errs2) in
      Some (Page html (references_section refs), errs3)
  | None => None
  end.

(** The second loop over [Object.keys(specs)]. *)
Fixpoint process_all (bibliography : object value) (specs : object source)
    (shortnames : list jsstring) (errs : list jsstring)
    : option (list (jsstring * page) * list jsstring) :=
  match shortnames with
  | [] => Some ([], errs)
  | shortname :: rest =>
      match own specs shortname with
      | Some s =>
          match process bibliography s errs with
          | Some (pg, errs1) =>
              match process_all bibliography specs rest errs1 with
              | Some (pages, errs2) => Some ((shortname, pg) :: pages, errs2)
              | None => None
              end
          | None => None
          end
      | None => None
      end
  end.

(** The object [specs], filled from the listing of the source files (short
    name and parsed document, in listing order). *)
Definition specs_of (files : list (jsstring * source)) : object source :=
  fold_left (fun o f => assign o (fst f) (snd f)) files [].

(** [build]: [members] are the members of [bibliography.json], [files] the
    listed sources.  The result holds the pages written, in the order of
    writing, and the lines passed to [err]; [None] when the build throws. *)
Definition build (members : list (jsstring * jsstring)) (people : registry)
    (clock : nat -> Z) (files : list (jsstring * source))
    : option (list (jsstring * page) * list jsstring) :=
  let bibliography := JSON_parse (map (fun m => (fst m, Str (snd m))) members) in
  let specs := specs_of files in
  match synthesize people clock specs 0 (keys specs) bibliography with
  | Some bibliography' => process_all bibliography' specs (keys specs) []
  | None => None
  end.

(* ================================================================= *)
(** ** The slug and the escaped fragment in the words of the specification *)

Module Spec.

(** Runs of white space collapsed to single spaces; [prev] tells whether
    the character before [s] was white space. *)
Fixpoint collapse_spaces_from (prev : bool) (s : jsstring) : jsstring :=
  match s with
  | [] => []
  | c :: s' =>
      if is_space c
      then (if prev then collapse_spaces_from true s'
            else 32%N :: collapse_spaces_from true s')
      else c :: collapse_spaces_from false s'
  end.

(** Normalize white space: collapse runs, trim the ends. *)
Definition normalize_whitespace (s : jsstring) : jsstring :=
  trim (collapse_spaces_from false s).

Definition placeholder : jsstring := lit "empty".

(** Trim leading and trailing hyphens. *)
Definition trim_hyphens (s : jsstring) : jsstring :=
  drop_end is_hyphen (drop_while is_hyphen s).

(** Normalize, substitute the placeholder, lowercase, replace non-word
    characters, collapse hyphens, trim hyphens. *)
Definition slug (text : jsstring) : jsstring :=
  trim_hyphens
    (collapse_hyphens
       (replace_nonword
          (toLowerCase (or_else (normalize_whitespace text) placeholder)))).

(** The namespace token joined to the slug by a hyphen. *)
Definition derived_id (text : jsstring) : jsstring :=
  lit "dfn" ++ lit "-" ++ slug text.

(** The same, the hyphen being there only before a non-empty slug. *)
Definition derived_id_nonempty (text : jsstring) : jsstring :=
  if truthy (slug text) then lit "dfn" ++ lit "-" ++ slug text
  else lit "dfn".

(** A field escaped once: each character stands for itself, except the
    ampersand, the less-than sign and the double quote, which stand as
    their entities. *)
Definition escape_char (c : char) : jsstring :=
  if N.eqb c 38 then lit "&amp;"
  else if N.eqb c 60 then lit "&lt;"
  else if N.eqb c 34 then lit "&quot;"
  else [c].

Definition escape_once (s : jsstring) : jsstring := flat_map escape_char s.

(** The citation fragment composed of fields escaped once. *)
Definition fragment (r : reference) : jsstring :=
  escape_once (author r) ++ lit ". <a href=" ++ dquote
  ++ escape_once (url r) ++ dquote ++ lit "><cite>"
  ++ escape_once (title r) ++ lit "</cite></a>. "
  ++ escape_once (date r) ++ lit ". URL:&nbsp;<a href=" ++ dquote
  ++ escape_once (url r) ++ dquote ++ lit ">"
  ++ escape_once (url r) ++ lit "</a>".

End Spec.

(* ================================================================= *)
(** ** Vocabulary of the statements *)

(** The state of the loop before its [k]-th test. *)
Definition suffix_at (k : nat) : option N :=
  match k with O => None | S _ => Some (N.of_nat k) end.

(** The identifiers carried by the elements of a document. *)
Definition ids (doc : document) : list jsstring :=
  flat_map (fun e => match id e with Some i => [i] | None => [] end) doc.

(** What the loop over the definitions may change of an element: its id,
    and only if it is a definition without one. *)
Definition kept (e e' : element) : Prop :=
  tag e' = tag e /\ textContent e' = textContent e
  /\ (forall i, id e = Some i -> id e' = Some i)
  /\ (is_dfn e = false -> id e' = id e).

(** What the loop over the links may change: never the id. *)
Definition linked (e e' : element) : Prop :=
  tag e' = tag e /\ textContent e' = textContent e /\ id e' = id e.

(** The definitions that receive an id from the resolver. *)
Definition needs_id (e : element) : bool :=
  is_dfn e && match id e with Some _ => false | None => true end.

(** Whether the last character before the end of [s] is a hyphen ([prev]
    when [s] is empty). *)
Fixpoint ends_hyphen (prev : bool) (s : jsstring) : bool :=
  match s with
  | [] => prev
  | c :: s' => ends_hyphen (is_hyphen c) s'
  end.

(** Lowercasing then replacing the non-word characters. *)
Definition hyphenate (s : jsstring) : jsstring :=
  replace_nonword (toLowerCase s).

Definition spaces_to_space (s : jsstring) : jsstring :=
  map (fun c => if is_space c then 32 else c) s.

(** The elements as the resolver leaves them. *)
Definition resolved (doc : document) : option document :=
  option_map fst (resolve doc []).

(* ================================================================= *)
(** ** Sample inputs *)

Module Sample.

Definition robin : person := Person (lit "Robin") (lit "r@x") (lit "https://x").

Definition people : registry := [(lit "robin", robin)].

Definition abstract : element :=
  Element (lit "div") (Some (lit "abstract")) (lit "An example.") None [].

Definition dfn (text : string) : element :=
  Element (lit "dfn") None (lit text) None [].

Definition with_id (t i : string) : element :=
  Element (lit t) (Some (lit i)) [] None [].

Definition bare_link (text : string) : element :=
  Element (lit "a") None (lit text) None [].

(** A source whose [main] serializes to [html]. *)
Definition spec_with (html : string) : source :=
  Source (lit "T") [lit "robin"] [abstract] (fun _ => lit html).

Definition a_cites_b : list (jsstring * source) :=
  [(lit "a", spec_with "see [[b]]"); (lit "b", spec_with "text")].

(** A clock that stands at noon of the first day. *)
Definition noon (n : nat) : Z := 43200000.

(** A clock that passes midnight between its first two readings. *)
Definition midnight (n : nat) : Z :=
  match n with O => 86399999 | S _ => 86400000 end.

Definition entry (shortname day : string) : reference :=
  Reference (lit "Robin") (lit "T") (lit day) (spec_url (lit shortname)).

Definition two_nodes : document := [dfn "Node"; dfn "Node"].

Definition nodes_and_id : document :=
  [dfn "Node"; dfn "Node"; with_id "p" "dfn-node"].

Definition hash_chain : document :=
  [with_id "dfn" "chain"; dfn "Hash Chain"; bare_link "hash chain"].

End Sample.

(* ================================================================= *)
(** ** File names and the watcher *)

(** [s.endsWith(suffix)] *)
Definition endsWith (s suffix : jsstring) : bool :=
  Js.eqb (skipn (length s - length suffix) s) suffix.

Definition src_html : jsstring := lit ".src.html".

(** [s.replace(/\.src\.html$/, by_)]: the pattern can only match at the very
    end of [s]. *)
Definition replace_src_html (by_ s : jsstring) : jsstring :=
  if endsWith s src_html
  then firstn (length s - length src_html) s ++ by_
  else s.


(** The filter of the listing, [/\.src\.html$/.test(f)]. *)
Definition is_source (f : jsstring) : bool := endsWith f src_html.

Definition is_slash (c : char) : bool := N.eqb c 47.

(** What follows the last slash of [p]. *)
Definition last_segment (p : jsstring) : jsstring :=
  fold_left (fun acc c => if is_slash c then [] else acc ++ [c]) p [].

(** [basename] of [node:path] on a POSIX system: trailing slashes are
    ignored, the last segment of what remains is returned. *)
Definition basename (path : jsstring) : jsstring :=
  last_segment (drop_end is_slash path).

(** The key of [specs] under which a listed source is stored,
    [basename(s).replace(/\.src\.html$/, '')]. *)
Definition shortname_of (s : jsstring) : jsstring :=
  replace_src_html [] (basename s).

(** The name of the page written for a short name. *)
Definition page_name (shortname : jsstring) : jsstring :=
  shortname ++ lit ".html".

(** [buildIfMatch]: whether the callback of the watcher calls [build]. *)
Definition buildIfMatch (path : jsstring) : bool :=
  negb (negb (Js.eqb (basename path) (lit "bibliography.json"))
        && negb (Js.eqb (basename path) (lit "people.json"))
        && negb (endsWith path src_html)).


(* ================================================================= *)
(** ** The authors of a document *)

(** A match of [\s*,\s*] at the start of [s]: what follows the match.  A
    comma is no white space, so the first [\s*] takes the whole run of white
    space and the match succeeds exactly when a comma comes next. *)
Definition match_separator (s : jsstring) : option jsstring :=
  match drop_while is_space s with
  | c :: r => if N.eqb c 44 then Some (drop_while is_space r) else None
  | [] => None
  end.

(** [s.split(/\s*,\s*/)].  [piece] is what has been passed of the current
    piece, [skip] counts the code units of the current separator that are
    still to be passed over. *)
Fixpoint split_from (skip : nat) (piece s : jsstring) : list jsstring :=
  match s with
  | [] => [piece]
  | c :: s' =>
      match skip with
      | S n => split_from n piece s'
      | O =>
          match match_separator s with
          | Some rest => piece :: split_from (length s' - length rest) [] s'
          | None => split_from 0 (piece ++ [c]) s'
          end
      end
  end.

Definition split_commas (s : jsstring) : list jsstring := split_from 0 [] s.

(** [meta?.getAttribute('content')?.split(/\s*,\s*/) || ['robin',
    'bumblefudge']].  [meta] is [None] when the document has no
    [meta[name=authors]], [Some None] when that element has no [content]
    attribute.  An array is truthy, also when it holds one empty string. *)
Definition authors_of (meta : option (option jsstring)) : list jsstring :=
  match meta with
  | Some (Some content) => split_commas content
  | _ => [lit "robin"; lit "bumblefudge"]
  end.

(* ================================================================= *)
(** ** The copy button of the pages ([spec-tools.js]) *)

(** The nodes of the copied tree: text, and elements with their local
    name, the tokens of their class list, the names of their other
    attributes and their children. *)
#[warnings="-register-all"]
Inductive node :=
| Text (data : jsstring)
| Elem (local_name : jsstring) (class_list attribute_names : list jsstring)
    (children : list node).

(** The selector [script, style, noscript]. *)
Definition matches_strip (n : node) : bool :=
  match n with
  | Elem t _ _ _ =>
      Js.eqb t (lit "script") || Js.eqb t (lit "style")
      || Js.eqb t (lit "noscript")
  | Text _ => false
  end.

(** Comparison without regard to the case of the ASCII letters. *)
Definition ascii_lower (c : char) : char :=
  if in_range 65 90 c then c + 32 else c.

Definition eqb_ascii_caseless (s t : jsstring) : bool :=
  Js.eqb (map ascii_lower s) (map ascii_lower t).

(** A class selector matches an element when one of the tokens of its class
    list is the name of the selector; in a document in quirks mode (a page
    without doctype) the two are compared without regard to the case of the
    ASCII letters. *)
Definition has_class (quirks : bool) (cls : jsstring)
    (classes : list jsstring) : bool :=
  existsb (if quirks then eqb_ascii_caseless cls else Js.eqb cls) classes.

(** The selector [[data-copy-exclude], .copy-exclude]; [quirks] tells
    whether the document is in quirks mode. *)
Definition matches_exclude (quirks : bool) (n : node) : bool :=
  match n with
  | Elem _ classes attrs _ =>
      existsb (Js.eqb (lit "data-copy-exclude")) attrs
      || has_class quirks (lit "copy-exclude") classes
  | Text _ => false
  end.

(** [root.querySelectorAll(sel).forEach(n => n.remove())]: every
    descendant of [root] that matches goes, with what it contains; [root]
    itself is no descendant of [root]. *)
Fixpoint remove_matching (sel : node -> bool) (root : node) : node :=
  match root with
  | Text s => Text s
  | Elem t classes attrs kids =>
      Elem t classes attrs
        (flat_map (fun k => if sel k then [] else [remove_matching sel k])
           kids)
  end.

(** [getMainClone], in a document that is in quirks mode or not; [None]
    when the document has no [main]. *)
Definition getMainClone (quirks : bool) (main_el : option node)
    : option node :=
  match main_el with
  | None => None
  | Some m =>
      Some (remove_matching (matches_exclude quirks)
              (remove_matching matches_strip m))
  end.

(** [.replace(/\n{3,}/g, '\n\n')]: of every run of line feeds the first
    two stay.  [seen] counts the line feeds of the current run that have
    been passed, up to two. *)
Fixpoint squeeze_newlines (seen : nat) (s : jsstring) : jsstring :=
  match s with
  | [] => []
  | c :: s' =>
      if N.eqb c 10 then
        match seen with
        | S (S _) => squeeze_newlines seen s'
        | _ => c :: squeeze_newlines (S seen) s'
        end
      else c :: squeeze_newlines 0 s'
  end.

(** [getCopyPayload]: the text and the markup handed to the clipboard.
    [innerText] and [outerHTML] stand for the serializations the browser
    computes for the clone.  [String.prototype.trim] removes the white
    space and line terminators that [\s] matches. *)
Definition getCopyPayload (quirks : bool)
    (innerText outerHTML : node -> jsstring)
    (main_el : option node) : jsstring * jsstring :=
  match getMainClone quirks main_el with
  | None => ([], [])
  | Some clone =>
      (trim (squeeze_newlines 0 (innerText clone)), outerHTML clone)
  end.






(* ================================================================= *)
(** ** Vocabulary of the further statements *)

(** The characters a slug is made of: small letters, digits, the underscore
    and the hyphen. *)
Definition is_slug_char (c : char) : bool :=
  in_range 97 122 c || in_range 48 57 c || N.eqb c 95 || N.eqb c 45.

Definition starts_hyphen (s : jsstring) : bool :=
  match s with c :: _ => is_hyphen c | [] => false end.

(** Whether two hyphens stand side by side somewhere in [s]. *)
Fixpoint adjacent_hyphens (s : jsstring) : bool :=
  match s with
  | c :: s' => (is_hyphen c && starts_hyphen s') || adjacent_hyphens s'
  | [] => false
  end.

(** The identifier a link is looked up under: its own id, or the raw
    identifier derived from its text. *)
Definition raw_id (e : element) : jsstring :=
  match id e with
  | Some i => i
  | None => idify (lit "dfn") (slug_text (textContent e)) None
  end.

(** Whether [doc.getElementById(i)] finds an element. *)
Definition carried (doc : document) (i : jsstring) : bool :=
  match getElementById doc i with Some _ => true | None => false end.

(** What the loop over the links makes of one element, and what it reports
    about it, in a document [doc]. *)
Definition link_of (doc : document) (e : element) : element :=
  if is_bare_link e && carried doc (raw_id e)
  then set_dfn_ref (raw_id e) e else e.

Definition link_errors (doc : document) (e : element) : list jsstring :=
  if is_bare_link e && negb (carried doc (raw_id e))
  then [empty_link_error (textContent e) (raw_id e)] else [].

(** What the citation pass keeps true of [refs]: its own properties are
    the truthy values the bibliography yields under the same keys, and it
    stays a plain dictionary. *)
Definition refs_from (bib refs : object value) : Prop :=
  (NoDup (map fst refs) /\ ~ In proto_key (map fst refs))
  /\ forall k v, own refs k = Some v -> get bib k = Some v /\ truthy_value v = true.

(** The key [k] is cited in [html]: a marker of [k] stands somewhere in
    it. *)
Definition cited (html k : jsstring) : Prop :=
  truthy k = true /\ forallb is_key_char k = true
  /\ exists pre post, html = pre ++ marker k ++ post.

(** An author id as the registry of people has them: not empty, without a
    comma, without white space at either end. *)
Definition is_author_id (x : jsstring) : bool :=
  truthy x
  && forallb (fun c => negb (N.eqb c 44)) x
  && Js.eqb (drop_while is_space x) x
  && Js.eqb (drop_end is_space x) x.

(** Whether some descendant of [n] matches [sel]. *)
Fixpoint has_descendant (sel : node -> bool) (n : node) : bool :=
  match n with
  | Text _ => false
  | Elem _ _ _ kids => existsb (fun k => sel k || has_descendant sel k) kids
  end.

(** Whether [s], coming after [seen] line feeds, holds three line feeds in
    a row. *)
Fixpoint long_run (seen : nat) (s : jsstring) : bool :=
  match s with
  | [] => false
  | c :: s' =>
      if N.eqb c 10 then
        match seen with
        | S (S _) => true
        | _ => long_run (S seen) s'
        end
      else long_run 0 s'
  end.


(** More sample inputs. *)
Module Case.

Definition link_with_id : element :=
  Element (lit "a") (Some (lit "top")) (lit "back to top") None [].

(** A document one of whose author ids is the name of a member that every
    plain object inherits. *)
Definition inherited_author : list (jsstring * source) :=
  [(lit "a", Source (lit "T") [lit "robin"; lit "toString"] [Sample.abstract]
               (fun _ => lit "text"))].

(** Two listed sources, the first of which is named [__proto__.src.html];
    the second cites the first. *)
Definition proto_corpus : list (jsstring * source) :=
  [(proto_key, Sample.spec_with "text");
   (lit "b", Sample.spec_with "see [[__proto__]]")].

Definition main_with_script : node :=
  Elem (lit "main") [] []
    [Elem (lit "p") [] [] [Text (lit "kept")];
     Elem (lit "script") [] [] [Text (lit "dropped")];
     Elem (lit "div") [lit "copy-exclude"] [] [Text (lit "dropped")]].

(** A block whose class differs from [copy-exclude] by the case of two
    letters. *)
Definition main_with_capitals : node :=
  Elem (lit "main") [] []
    [Elem (lit "p") [lit "Copy-Exclude"] [] [Text (lit "notes")]].

End Case.

(* ================================================================= *)
(** * Properties *)

(** ** Strings *)

Lemma eqb_eq (s t : jsstring) : Js.eqb s t = true <-> s = t.
Proof.
  revert t; induction s as [|c s IH]; intros [|d t]; simpl;
    try (split; [discriminate | discriminate]); try tauto.
  rewrite andb_true_iff, N.eqb_eq, IH.
  split; [intros [-> ->]; reflexivity | intros [= -> ->]; auto].
Qed.

Lemma eqb_refl (s : jsstring) : Js.eqb s s = true.
Proof. apply eqb_eq; reflexivity. Qed.

Lemma eqb_neq (s t : jsstring) : Js.eqb s t = false <-> s <> t.
Proof.
  rewrite <- eqb_eq. destruct (Js.eqb s t); split; congruence.
Qed.

Lemma eqb_sym (s t : jsstring) : Js.eqb s t = Js.eqb t s.
Proof.
  destruct (Js.eqb s t) eqn:E.
  - apply eqb_eq in E; subst; symmetry; apply eqb_refl.
  - apply eqb_neq in E. symmetry; apply eqb_neq; congruence.
Qed.

Lemma join_snoc (sep : jsstring) (ps : list jsstring) (p q : jsstring) :
  join sep ((p :: ps) ++ [q]) = join sep (p :: ps) ++ sep ++ q.
Proof.
  revert p; induction ps as [|r ps IH]; intros p.
  - reflexivity.
  - change (join sep ((p :: r :: ps) ++ [q]))
      with (p ++ sep ++ join sep ((r :: ps) ++ [q])).
    rewrite IH. change (join sep (p :: r :: ps)) with (p ++ sep ++ join sep (r :: ps)).
    now rewrite <- !app_assoc.
Qed.

(** ** [joinList] *)

Lemma mark_last (pre : jsstring) (init : list jsstring) (last : jsstring)
    (k n : nat) :
  n = (k + length init)%nat ->
  map (fun p : nat * jsstring =>
         if Nat.eqb (fst p) n then pre ++ snd p else snd p)
      (combine (seq k (S (length init))) (init ++ [last]))
  = init ++ [pre ++ last].
Proof.
  revert k; induction init as [|a init IH]; intros k Hn; simpl in *.
  - replace (Nat.eqb k n) with true; [reflexivity|].
    symmetry; apply Nat.eqb_eq; lia.
  - replace (Nat.eqb k n) with false.
    + f_equal. apply IH. lia.
    + symmetry; apply Nat.eqb_neq; lia.
Qed.

(** C6, as the code has it: one name stays as it is, two names are joined by
    an ampersand between spaces, and three or more names are joined by
    commas, the last one preceded by an ampersand that itself follows a
    comma (three names A, B, C give the text A, B, & C). *)
Theorem joinList_shapes :
  (forall a, joinList [a] = a)
  /\ (forall a b, joinList [a; b] = a ++ lit " & " ++ b)
  /\ (forall a b rest last,
        joinList (a :: b :: rest ++ [last])
        = join (lit ", ") (a :: b :: rest) ++ lit ", & " ++ last).
Proof.
  split; [reflexivity|]. split; [reflexivity|].
  intros a b rest last.
  assert (E : joinList (a :: b :: rest ++ [last])
              = join (lit ", ")
                  (map (fun p : nat * jsstring =>
                          if Nat.eqb (fst p) (length (a :: b :: rest ++ [last]) - 1)
                          then lit "& " ++ snd p else snd p)
                       (combine (seq 0 (length (a :: b :: rest ++ [last])))
                          (a :: b :: rest ++ [last])))).
  { unfold joinList. destruct rest; reflexivity. }
  rewrite E; clear E.
  change (a :: b :: rest ++ [last]) with ((a :: b :: rest) ++ [last]).
  replace (length ((a :: b :: rest) ++ [last])) with (S (length (a :: b :: rest)))
    by (rewrite length_app; simpl; lia).
  rewrite (@mark_last (lit "& ") (a :: b :: rest) last 0
             (S (length (a :: b :: rest)) - 1)) by (simpl; lia).
  rewrite join_snoc. reflexivity.
Qed.

(** C6, as the specification words it, fails on the specification's own
    example: for the names A, B, C the code puts a comma before the
    ampersand. *)
Lemma joinList_three_names_comma :
  joinList [lit "A"; lit "B"; lit "C"] = lit "A, B, & C"
  /\ joinList [lit "A"; lit "B"; lit "C"] <> lit "A, B & C".
Proof. split; [reflexivity | discriminate]. Qed.

(** ** [esc] and [htmlifyReference] *)

Lemma replace_char_app (c : char) (b x y : jsstring) :
  replace_char c b (x ++ y) = replace_char c b x ++ replace_char c b y.
Proof. unfold replace_char. apply flat_map_app. Qed.

Lemma esc_escape_once (s : jsstring) : esc s = Spec.escape_once s.
Proof.
  unfold esc, Spec.escape_once.
  replace (or_else s []) with s by (destruct s; reflexivity).
  induction s as [|c s IH]; [reflexivity|].
  change (replace_char 38 (lit "&amp;") (c :: s))
    with ((if N.eqb c 38 then lit "&amp;" else [c])
          ++ replace_char 38 (lit "&amp;") s).
  rewrite !replace_char_app, IH. simpl flat_map. f_equal.
  unfold Spec.escape_char.
  destruct (N.eqb c 38) eqn:E38; [reflexivity|].
  unfold replace_char at 2. simpl flat_map.
  destruct (N.eqb c 60) eqn:E60; [reflexivity|].
  unfold replace_char. simpl flat_map. rewrite app_nil_r.
  destruct (N.eqb c 34); reflexivity.
Qed.

Lemma htmlifyReference_escape_once (r : reference) :
  htmlifyReference r
  = Spec.escape_once (author r) ++ lit ". <a href=" ++ dquote
    ++ Spec.escape_once (url r) ++ dquote ++ lit "><cite>"
    ++ Spec.escape_once (title r) ++ lit "</cite></a>. "
    ++ Spec.escape_once (date r) ++ lit ". URL:&nbsp;<a href=" ++ dquote
    ++ Spec.escape_once (url r) ++ dquote ++ lit ">"
    ++ Spec.escape_once (url r) ++ lit "</a>".
Proof. unfold htmlifyReference. now rewrite !esc_escape_once. Qed.

(** ** Objects *)

Section ObjectFacts.
Variable V : Type.
Implicit Types (o : object V) (k : jsstring) (v : V).

Lemma own_define_same o k v : own (define o k v) k = Some v.
Proof.
  induction o as [|[k' v'] o IH]; simpl.
  - now rewrite eqb_refl.
  - destruct (Js.eqb k' k) eqn:E; simpl; rewrite E; auto.
Qed.

Lemma own_define_other o k k' v :
  k <> k' -> own (define o k' v) k = own o k.
Proof.
  intros Hne. induction o as [|[k1 v1] o IH]; simpl.
  - replace (Js.eqb k' k) with false; [reflexivity|].
    symmetry; apply eqb_neq; congruence.
  - destruct (Js.eqb k1 k') eqn:E; simpl.
    + apply eqb_eq in E; subst k1.
      replace (Js.eqb k' k) with false; [reflexivity|].
      symmetry; apply eqb_neq; congruence.
    + now rewrite IH.
Qed.

Lemma define_unchanged o k v : own o k = Some v -> define o k v = o.
Proof.
  induction o as [|[k1 v1] o IH]; simpl; [discriminate|].
  destruct (Js.eqb k1 k) eqn:E.
  - now intros [= ->].
  - intros H. now rewrite IH.
Qed.

Lemma own_some_in o k v : own o k = Some v -> In k (map fst o).
Proof.
  induction o as [|[k1 v1] o IH]; simpl; [discriminate|].
  destruct (Js.eqb k1 k) eqn:E.
  - apply eqb_eq in E; auto.
  - auto.
Qed.

Lemma in_own_some o k : In k (map fst o) -> exists v, own o k = Some v.
Proof.
  induction o as [|[k1 v1] o IH]; simpl; [tauto|].
  intros [->|H].
  - rewrite eqb_refl; eauto.
  - destruct (Js.eqb k1 k); eauto.
Qed.

Lemma own_none_not_in o k : own o k = None <-> ~ In k (map fst o).
Proof.
  split.
  - intros H Hin. apply in_own_some in Hin as [v Hv]. congruence.
  - intros H. destruct (own o k) eqn:E; [|reflexivity].
    apply own_some_in in E. contradiction.
Qed.

Lemma define_keys o k v :
  map fst (define o k v)
  = if hasOwn o k then map fst o else map fst o ++ [k].
Proof.
  unfold hasOwn. induction o as [|[k1 v1] o IH]; simpl; [reflexivity|].
  destruct (Js.eqb k1 k) eqn:E; simpl; [reflexivity|].
  rewrite IH. destruct (own o k); reflexivity.
Qed.

Lemma assign_unchanged o k v : own o k = Some v -> assign o k v = o.
Proof.
  intros H. unfold assign, hasOwn. rewrite H, andb_false_r.
  now apply define_unchanged.
Qed.

Lemma own_assign_other o k k' v :
  k <> k' -> own (assign o k' v) k = own o k.
Proof.
  intros H. unfold assign.
  destruct (Js.eqb k' proto_key && negb (hasOwn o k')); [reflexivity|].
  now apply own_define_other.
Qed.

Lemma own_assign_same o k v :
  k <> proto_key -> own (assign o k v) k = Some v.
Proof.
  intros H. unfold assign.
  replace (Js.eqb k proto_key) with false
    by (symmetry; now apply eqb_neq).
  apply own_define_same.
Qed.

Lemma assign_keys o k v :
  map fst (assign o k v) = map fst o
  \/ (k <> proto_key /\ ~ In k (map fst o)
      /\ map fst (assign o k v) = map fst o ++ [k]).
Proof.
  unfold assign. destruct (hasOwn o k) eqn:Ho.
  - left. rewrite andb_false_r, define_keys, Ho. reflexivity.
  - destruct (Js.eqb k proto_key) eqn:Ep; simpl; [now left|].
    right. rewrite define_keys, Ho. repeat split.
    + now apply eqb_neq.
    + apply own_none_not_in. unfold hasOwn in Ho.
      destruct (own o k); [discriminate | reflexivity].
Qed.

(** Objects that [assign] builds from the empty object have pairwise
    different own keys, none of them [__proto__]. *)
Definition plain (o : object V) : Prop :=
  NoDup (map fst o) /\ ~ In proto_key (map fst o).

Lemma plain_nil : plain [].
Proof. split; [constructor | simpl; tauto]. Qed.

Lemma plain_assign o k v : plain o -> plain (assign o k v).
Proof.
  intros [Hnd Hp].
  destruct (assign_keys o k v) as [E|(Hk & Hnew & E)]; unfold plain; rewrite E.
  - auto.
  - split.
    + apply NoDup_app; auto.
      * constructor; [simpl; tauto | constructor].
      * intros x Hx [<-|[]]. contradiction.
    + intros Hin. apply in_app_or in Hin as [Hin|[Hin|[]]]; congruence.
Qed.

Lemma insert_sorted_perm (le : jsstring -> jsstring -> bool) x l :
  Permutation (insert_sorted le x l) (x :: l).
Proof.
  induction l as [|y l IH]; simpl; [reflexivity|].
  destruct (le x y); [reflexivity|].
  rewrite IH. apply perm_swap.
Qed.

Lemma sort_perm (le : jsstring -> jsstring -> bool) l :
  Permutation (sort le l) l.
Proof.
  induction l as [|x l IH]; simpl; [reflexivity|].
  rewrite insert_sorted_perm. now constructor.
Qed.

Lemma filter_split_perm (p : jsstring -> bool) l :
  Permutation (filter p l ++ filter (fun k => negb (p k)) l) l.
Proof.
  induction l as [|x l IH]; simpl; [reflexivity|].
  destruct (p x); simpl.
  - now constructor.
  - rewrite <- Permutation_middle. now constructor.
Qed.

Lemma keys_perm o : Permutation (keys o) (map fst o).
Proof.
  unfold keys. rewrite sort_perm. apply filter_split_perm.
Qed.

Lemma keys_in o k : In k (keys o) <-> In k (map fst o).
Proof.
  split; apply Permutation_in; [|symmetry]; apply keys_perm.
Qed.

Lemma keys_nodup o : NoDup (map fst o) -> NoDup (keys o).
Proof.
  intros H. eapply Permutation_NoDup; [symmetry; apply keys_perm | exact H].
Qed.

Lemma keys_own o k : In k (keys o) -> exists v, own o k = Some v.
Proof. intros H. apply in_own_some. now apply keys_in. Qed.
End ObjectFacts.

Lemma specs_of_plain (files : list (jsstring * source)) :
  plain (specs_of files).
Proof.
  unfold specs_of.
  assert (G : forall o, plain o ->
            plain (fold_left (fun o f => assign o (fst f) (snd f)) files o)).
  { induction files as [|f files IH]; intros o Ho; simpl; [exact Ho|].
    apply IH. now apply plain_assign. }
  apply G, plain_nil.
Qed.

(** ** The first loop: one entry per document *)

Lemma synthesize_frame people clock specs ks :
  forall tick bib bib',
    synthesize people clock specs tick ks bib = Some bib' ->
    forall k, ~ In k ks -> own bib' k = own bib k.
Proof.
  induction ks as [|k0 ks IH]; simpl; intros tick bib bib' H k Hk.
  - now injection H as <-.
  - destruct (own specs k0) as [s|]; [|discriminate].
    destruct (self_reference people (clock tick) k0 s) as [r|]; [|discriminate].
    rewrite (IH _ _ _ H) by tauto.
    apply own_assign_other. intros ->; tauto.
Qed.

Lemma synthesize_entry people clock specs ks :
  NoDup ks -> ~ In proto_key ks ->
  forall tick bib bib',
    synthesize people clock specs tick ks bib = Some bib' ->
    forall i k, nth_error ks i = Some k ->
      exists s r,
        own specs k = Some s
        /\ self_reference people (clock (tick + i)%nat) k s = Some r
        /\ own bib' k = Some (Str (htmlifyReference r)).
Proof.
  induction ks as [|k0 ks IH]; intros Hnd Hp tick bib bib' H i k Hi.
  - destruct i; discriminate.
  - simpl in H.
    destruct (own specs k0) as [s|] eqn:Es; [|discriminate].
    destruct (self_reference people (clock tick) k0 s) as [r|] eqn:Er;
      [|discriminate].
    inversion Hnd as [|? ? Hnotin Hnd']; subst.
    destruct i as [|i]; simpl in Hi.
    + injection Hi as <-. exists s, r. rewrite Nat.add_0_r.
      repeat split; auto.
      rewrite (synthesize_frame _ _ _ _ _ _ H) by exact Hnotin.
      apply own_assign_same. intros ->. apply Hp; now left.
    + replace (tick + S i)%nat with (S tick + i)%nat by lia.
      eapply IH; eauto. intros Hin; apply Hp; now right.
Qed.

(** A second run of the loop over the store it has filled writes the same
    entries again: the store does not change. *)
Lemma synthesize_again people clock specs ks :
  NoDup ks -> ~ In proto_key ks ->
  forall bib bib',
    synthesize people clock specs 0 ks bib = Some bib' ->
    synthesize people clock specs 0 ks bib' = Some bib'.
Proof.
  intros Hnd Hp bib bib' H.
  pose proof (synthesize_entry people clock specs Hnd Hp _ _ H) as Hent.
  clear H Hnd Hp. revert Hent. generalize 0%nat as tick.
  induction ks as [|k0 ks IH]; intros tick Hent; simpl; [reflexivity|].
  destruct (Hent 0%nat k0 eq_refl) as (s & r & Es & Er & Eo).
  rewrite Nat.add_0_r in Er. rewrite Es, Er.
  rewrite (assign_unchanged _ _ Eo).
  apply IH. intros i k Hi.
  replace (S tick + i)%nat with (tick + S i)%nat by lia.
  now apply Hent.
Qed.

(** ** [today] *)

Lemma digit_char_range (n : Z) : (48 <= digit_char n <= 57)%N.
Proof.
  unfold digit_char.
  pose proof (Z.mod_pos_bound n 10 ltac:(lia)). lia.
Qed.

Lemma digit_char_is_digit (n : Z) : is_digit (digit_char n) = true.
Proof.
  pose proof (digit_char_range n). unfold is_digit, in_range.
  apply andb_true_iff; split; apply N.leb_le; lia.
Qed.

Lemma digits_all_digits (w : nat) :
  forall n, Forall (fun c => is_digit c = true) (digits w n).
Proof.
  induction w as [|w IH]; intros n; simpl; [constructor|].
  apply Forall_app; split; [apply IH|].
  constructor; [apply digit_char_is_digit | constructor].
Qed.

Lemma is_digit_dot (c : char) : is_digit c = true -> is_dot c = true.
Proof.
  unfold is_digit, in_range, is_dot. rewrite andb_true_iff, !N.leb_le.
  intros [H1 H2]. rewrite negb_true_iff, !orb_false_iff, !N.eqb_neq. lia.
Qed.

Lemma is_digit_not_T (c : char) : is_digit c = true -> N.eqb c 84 = false.
Proof.
  unfold is_digit, in_range. rewrite andb_true_iff, !N.leb_le, N.eqb_neq. lia.
Qed.

Lemma drop_while_all (p : char -> bool) (s : jsstring) :
  Forall (fun c => p c = true) s -> drop_while p s = [].
Proof.
  induction 1 as [|c s Hc _ IH]; simpl; [reflexivity|]. now rewrite Hc.
Qed.

Lemma replace_T_rest_cut (a b : jsstring) :
  Forall (fun c => N.eqb c 84 = false) a ->
  b <> [] -> Forall (fun c => is_dot c = true) b ->
  replace_T_rest (a ++ 84 :: b) = a.
Proof.
  intros Ha Hb Hdot. induction Ha as [|c a Hc _ IH]; simpl.
  - destruct b as [|d b]; [congruence|].
    inversion Hdot as [|? ? Hd Hrest]; subst.
    rewrite Hd. simpl. rewrite Hd. now apply drop_while_all.
  - rewrite Hc. now rewrite IH.
Qed.

Lemma iso_year_no_T (y : Z) : Forall (fun c => N.eqb c 84 = false) (iso_year y).
Proof.
  unfold iso_year.
  assert (D : forall w n, Forall (fun c => N.eqb c 84 = false) (digits w n)).
  { intros w n. eapply Forall_impl; [|apply digits_all_digits].
    intros c; apply is_digit_not_T. }
  destruct ((0 <=? y)%Z && (y <=? 9999)%Z); [apply D|].
  apply Forall_app; split; [|apply D].
  change (lit "-") with [45]. change (lit "+") with [43].
  destruct (y <? 0)%Z; repeat constructor.
Qed.

Lemma iso_date_no_T (t : Z) : Forall (fun c => N.eqb c 84 = false) (iso_date t).
Proof.
  unfold iso_date. destruct (date_of_day (t / msPerDay)) as [[y m] d].
  assert (D : forall w n, Forall (fun c => N.eqb c 84 = false) (digits w n)).
  { intros w n. eapply Forall_impl; [|apply digits_all_digits].
    intros c; apply is_digit_not_T. }
  change (lit "-") with [45].
  repeat first [apply D | apply iso_year_no_T | apply Forall_app; split];
    repeat constructor.
Qed.

Lemma iso_time_dots (t : Z) :
  iso_time t <> [] /\ Forall (fun c => is_dot c = true) (iso_time t).
Proof.
  unfold iso_time.
  assert (D : forall w n, Forall (fun c => is_dot c = true) (digits w n)).
  { intros w n. eapply Forall_impl; [|apply digits_all_digits].
    intros c; apply is_digit_dot. }
  change (lit ":") with [58]. change (lit ".") with [46].
  change (lit "Z") with [90].
  split.
  - intros H. apply (f_equal (@length _)) in H.
    rewrite !length_app in H. simpl in H. lia.
  - repeat first [apply D | apply Forall_app; split]; repeat constructor.
Qed.

(** [today] yields the date part of the ISO string. *)
Lemma today_iso_date (t : Z) : today t = iso_date t.
Proof.
  unfold today, toISOString.
  destruct (iso_time_dots t) as [Hne Hdots].
  change (iso_date t ++ lit "T" ++ iso_time t)
    with (iso_date t ++ 84 :: iso_time t).
  apply replace_T_rest_cut; auto. apply iso_date_no_T.
Qed.

Lemma today_same_day (t1 t2 : Z) :
  (t1 / msPerDay = t2 / msPerDay)%Z -> today t1 = today t2.
Proof.
  intros H. rewrite !today_iso_date. unfold iso_date. now rewrite H.
Qed.

Lemma today_shape (t : Z) :
  (0 <= YearFromTime t <= 9999)%Z -> is_YYYY_MM_DD (today t) = true.
Proof.
  intros Hy. rewrite today_iso_date. unfold iso_date, YearFromTime in *.
  destruct (date_of_day (t / msPerDay)) as [[y m] d]. simpl fst in Hy.
  unfold iso_year.
  replace ((0 <=? y)%Z && (y <=? 9999)%Z) with true
    by (symmetry; apply andb_true_iff; split; apply Z.leb_le; lia).
  change (lit "-") with [45].
  cbn [digits app]. unfold is_YYYY_MM_DD. cbn [forallb].
  rewrite !digit_char_is_digit. reflexivity.
Qed.

(** ** [getElementById] and the loop of [slugify] *)

Lemma getElementById_none (doc : document) (i : jsstring) :
  getElementById doc i = None <->
  (i = [] \/ forall e, In e doc -> id e <> Some i).
Proof.
  unfold getElementById. destruct i as [|c i]; simpl.
  - split; auto.
  - split.
    + intros H. right. intros e He Hid.
      apply (find_none _ _ H) in He. unfold has_id in He.
      rewrite Hid, eqb_refl in He. discriminate.
    + intros [H|H]; [discriminate|].
      destruct (find (has_id (c :: i)) doc) as [e|] eqn:E; [|reflexivity].
      apply find_some in E as [He Hid]. unfold has_id in Hid.
      destruct (id e) as [j|] eqn:Ej; [|discriminate].
      apply eqb_eq in Hid; subst j. now apply H in He.
Qed.

Lemma getElementById_some (doc : document) (i : jsstring) (e : element) :
  i <> [] -> In e doc -> id e = Some i -> getElementById doc i <> None.
Proof.
  intros Hi He Hid H. apply getElementById_none in H as [H|H]; [congruence|].
  now apply H in He.
Qed.

Lemma lit_inj (s t : string) : lit s = lit t -> s = t.
Proof.
  unfold lit. intros H.
  rewrite <- (string_of_list_ascii_of_string s),
          <- (string_of_list_ascii_of_string t).
  f_equal. revert H.
  generalize (list_ascii_of_string s) (list_ascii_of_string t).
  induction l as [|a l IH]; intros [|b l']; simpl; try discriminate; auto.
  intros [= Hab Hl]. f_equal; auto.
  rewrite <- (ascii_N_embedding a), <- (ascii_N_embedding b). now rewrite Hab.
Qed.

Lemma of_N_inj (m n : N) : of_N m = of_N n -> m = n.
Proof.
  unfold of_N. intros H. apply lit_inj in H.
  assert (E : Some (N.to_uint m) = Some (N.to_uint n)).
  { rewrite <- !NilEmpty.usu. now rewrite H. }
  injection E as E.
  rewrite <- (DecimalN.Unsigned.of_to m), <- (DecimalN.Unsigned.of_to n).
  now rewrite E.
Qed.

(** The raw identifier, and how a positive suffix is attached to it. *)
Lemma candidate_zero (pfx txt : jsstring) :
  candidate pfx txt 0 = idify pfx txt None.
Proof. reflexivity. Qed.

Lemma candidate_suffixed (pfx txt : jsstring) (k : nat) :
  k <> 0%nat ->
  candidate pfx txt k
  = if truthy (idify pfx txt None)
    then idify pfx txt None ++ lit "-" ++ of_N (N.of_nat k)
    else of_N (N.of_nat k).
Proof.
  intros Hk. unfold candidate, idify. simpl filter.
  replace (N.eqb (N.of_nat k) 0) with false
    by (symmetry; apply N.eqb_neq; lia).
  destruct pfx as [|p pfx], txt as [|t txt]; simpl; try reflexivity.
  - now rewrite <- app_assoc.
Qed.

Lemma candidate_inj (pfx txt : jsstring) (j k : nat) :
  truthy (idify pfx txt None) = true ->
  candidate pfx txt j = candidate pfx txt k -> j = k.
Proof.
  intros Hb H.
  destruct (Nat.eq_dec j 0) as [->|Hj], (Nat.eq_dec k 0) as [->|Hk]; auto.
  - rewrite candidate_zero, (candidate_suffixed _ _ Hk), Hb in H.
    apply (f_equal (@length _)) in H. rewrite !length_app in H.
    simpl in H. lia.
  - rewrite candidate_zero, (candidate_suffixed _ _ Hj), Hb in H.
    apply (f_equal (@length _)) in H. rewrite !length_app in H.
    simpl in H. lia.
  - rewrite (candidate_suffixed _ _ Hj), (candidate_suffixed _ _ Hk), Hb in H.
    apply app_inv_head in H. apply app_inv_head in H.
    apply of_N_inj in H. lia.
Qed.

Lemma candidate_nonempty (pfx txt : jsstring) (k : nat) :
  truthy pfx = true -> candidate pfx txt k <> [].
Proof.
  intros Hp. unfold candidate, idify. simpl filter. rewrite Hp.
  destruct pfx as [|p pfx]; [discriminate|].
  destruct (truthy txt), (negb (N.eqb (N.of_nat k) 0)); simpl; discriminate.
Qed.

Lemma idify_truthy (pfx txt : jsstring) :
  truthy pfx = true -> truthy (idify pfx txt None) = true.
Proof.
  intros Hp. pose proof (@candidate_nonempty pfx txt 0 Hp) as H.
  rewrite candidate_zero in H.
  destruct (idify pfx txt None); [congruence | reflexivity].
Qed.

Lemma next_suffix_at (k : nat) :
  (N.of_nat k < two53)%N -> next_suffix (suffix_at k) = N.of_nat (S k).
Proof.
  intros Hk. unfold next_suffix, incr, suffix_at.
  destruct k as [|k].
  - reflexivity.
  - replace (N.eqb (N.of_nat (S k)) 0) with false
      by (symmetry; apply N.eqb_neq; lia).
    replace (N.ltb (N.of_nat (S k)) two53) with true
      by (symmetry; apply N.ltb_lt; lia).
    lia.
Qed.

(** Each iteration strictly increases the suffix. *)
Lemma next_suffix_increases (suf : option N) :
  (match suf with Some n => n | None => 0 end < two53)%N ->
  (match suf with Some n => n | None => 0 end < next_suffix suf)%N.
Proof.
  unfold next_suffix, incr. destruct suf as [n|]; intros H.
  - destruct (N.eqb n 0) eqn:E.
    + apply N.eqb_eq in E; subst. simpl. lia.
    + replace (N.ltb n two53) with true by (symmetry; now apply N.ltb_lt). lia.
  - simpl. lia.
Qed.

Lemma idify_suffix_at (pfx txt : jsstring) (k : nat) :
  idify pfx txt (suffix_at k) = candidate pfx txt k.
Proof. destruct k; reflexivity. Qed.

(** The candidates are pairwise different strings. *)
Lemma candidates_nodup (pfx txt : jsstring) (ks : list nat) :
  truthy (idify pfx txt None) = true ->
  NoDup ks -> NoDup (map (candidate pfx txt) ks).
Proof.
  intros Hb Hks. induction Hks as [|k ks Hk _ IH]; simpl; constructor; auto.
  intros Hin. apply in_map_iff in Hin as (j & Hj & Hin).
  apply candidate_inj in Hj; [|exact Hb]. now subst.
Qed.

(** The loop stops at the first candidate that no element carries. *)
Lemma slug_loop_first_free (doc : document) (pfx txt : jsstring) (m : nat) :
  (N.of_nat m <= two53)%N ->
  getElementById doc (candidate pfx txt m) = None ->
  forall fuel k,
    (k <= m)%nat -> (m - k <= fuel)%nat ->
    (forall j, (k <= j < m)%nat ->
       getElementById doc (candidate pfx txt j) <> None) ->
    slug_loop fuel doc pfx txt (suffix_at k) (candidate pfx txt k)
    = Some (candidate pfx txt m).
Proof.
  intros Hm Hfree. induction fuel as [|fuel IH]; intros k Hk Hf Hbusy.
  - assert (k = m) by lia; subst k. simpl. now rewrite Hfree.
  - destruct (Nat.eq_dec k m) as [->|Hne].
    + simpl. now rewrite Hfree.
    + simpl. destruct (getElementById doc (candidate pfx txt k)) eqn:E.
      * rewrite next_suffix_at by lia.
        change (Some (N.of_nat (S k))) with (suffix_at (S k)).
        rewrite idify_suffix_at.
        apply IH; try lia. intros j Hj. apply Hbusy. lia.
      * exfalso. apply (Hbusy k); [lia | exact E].
Qed.

Lemma slug_loop_more_fuel (doc : document) (pfx txt : jsstring) :
  forall fuel fuel' suf i r,
    slug_loop fuel doc pfx txt suf i = Some r ->
    (fuel <= fuel')%nat ->
    slug_loop fuel' doc pfx txt suf i = Some r.
Proof.
  induction fuel as [|fuel IH]; intros fuel' suf i r H Hle.
  - simpl in H. destruct (getElementById doc i) eqn:E; [discriminate|].
    destruct fuel'; simpl; now rewrite E.
  - destruct fuel' as [|fuel']; [lia|]. simpl in *.
    destruct (getElementById doc i); [|exact H].
    apply IH with (fuel' := fuel') in H; [exact H | lia].
Qed.

Lemma slug_loop_exit (doc : document) (pfx txt : jsstring) :
  forall fuel suf i r,
    slug_loop fuel doc pfx txt suf i = Some r ->
    getElementById doc r = None
    /\ (r = i \/ exists n, r = idify pfx txt (Some n)).
Proof.
  induction fuel as [|fuel IH]; intros suf i r H; simpl in H.
  - destruct (getElementById doc i) eqn:E; [discriminate|].
    injection H as <-. auto.
  - destruct (getElementById doc i) eqn:E.
    + apply IH in H as [H1 [H2|[n H2]]]; split; auto; right; eauto.
    + injection H as <-. auto.
Qed.

Lemma ids_in (doc : document) (i : jsstring) :
  In i (ids doc) <-> exists e, In e doc /\ id e = Some i.
Proof.
  unfold ids. rewrite in_flat_map. split.
  - intros (e & He & Hi). exists e. split; auto.
    destruct (id e); simpl in Hi; [|tauto]. destruct Hi as [->|[]]; auto.
  - intros (e & He & Hi). exists e. split; auto. rewrite Hi. now left.
Qed.

Lemma ids_length (doc : document) : (length (ids doc) <= length doc)%nat.
Proof.
  induction doc as [|e doc IH]; simpl; [lia|].
  rewrite length_app. destruct (id e); simpl; lia.
Qed.

(** Among the first [n + 1] candidates, [n] being the number of elements,
    one is carried by no element; the first such one is where the loop
    stops. *)
Lemma first_free_candidate (doc : document) (pfx txt : jsstring) :
  truthy (idify pfx txt None) = true ->
  exists m, (m <= length doc)%nat
    /\ getElementById doc (candidate pfx txt m) = None
    /\ forall j, (j < m)%nat ->
         getElementById doc (candidate pfx txt j) <> None.
Proof.
  intros Hb.
  assert (Hsome : exists j, (j <= length doc)%nat
            /\ getElementById doc (candidate pfx txt j) = None).
  { destruct (Exists_dec
                (fun j => getElementById doc (candidate pfx txt j) = None)
                (seq 0 (S (length doc)))) as [Hex|Hall].
    - intros j. destruct (getElementById doc (candidate pfx txt j));
        [right; discriminate | now left].
    - apply Exists_exists in Hex as (j & Hj & Hfree).
      apply in_seq in Hj. exists j. split; [lia | exact Hfree].
    - exfalso.
      assert (Hincl : incl (map (candidate pfx txt) (seq 0 (S (length doc))))
                           (ids doc)).
      { intros c Hc. apply in_map_iff in Hc as (j & <- & Hj).
        apply ids_in.
        destruct (getElementById doc (candidate pfx txt j)) as [e|] eqn:E.
        - unfold getElementById in E.
          destruct (truthy (candidate pfx txt j)); [|discriminate].
          apply find_some in E as [He Hid]. exists e. split; auto.
          unfold has_id in Hid. destruct (id e) as [i|]; [|discriminate].
          apply eqb_eq in Hid. now subst.
        - exfalso. apply Hall. apply Exists_exists. eauto. }
      apply NoDup_incl_length in Hincl.
      + rewrite length_map, length_seq in Hincl.
        pose proof (ids_length doc). lia.
      + apply candidates_nodup; [exact Hb | apply seq_NoDup]. }
  clear Hb. destruct Hsome as (j & Hj & Hfree).
  revert Hfree. generalize (length doc) Hj. clear Hj.
  induction j as [j IH] using lt_wf_ind. intros n Hn Hfree.
  destruct (Exists_dec
              (fun i => getElementById doc (candidate pfx txt i) = None)
              (seq 0 j)) as [Hex|Hall].
  - intros i. destruct (getElementById doc (candidate pfx txt i));
      [right; discriminate | now left].
  - apply Exists_exists in Hex as (i & Hi & Hf). apply in_seq in Hi.
    apply (IH i) with (n := n); [lia | lia | exact Hf].
  - exists j. repeat split; auto. intros i Hi Hf.
    apply Hall. apply Exists_exists. exists i. split; auto.
    apply in_seq. lia.
Qed.

Lemma slug_loop_total (doc : document) (pfx txt : jsstring) :
  fits doc ->
  exists r, slug_loop (S (length doc)) doc pfx txt None (idify pfx txt None)
            = Some r.
Proof.
  intros Hfit. destruct (truthy (idify pfx txt None)) eqn:Hb.
  - destruct (first_free_candidate doc pfx txt Hb) as (m & Hm & Hfree & Hbusy).
    exists (candidate pfx txt m).
    apply (@slug_loop_first_free doc pfx txt m) with (k := 0%nat);
      try lia; auto.
    + unfold fits in Hfit. lia.
    + intros j Hj. apply Hbusy. lia.
  - exists []. destruct (idify pfx txt None); [|discriminate].
    reflexivity.
Qed.

(** Where the loop stops: at the first candidate that no element carries,
    after at most as many iterations as the document has elements. *)
Lemma slug_loop_stops (doc : document) (pfx txt : jsstring) :
  fits doc ->
  exists m,
    (m <= length doc)%nat
    /\ slug_loop (S (length doc)) doc pfx txt None (idify pfx txt None)
       = Some (candidate pfx txt m)
    /\ getElementById doc (candidate pfx txt m) = None
    /\ forall j, (j < m)%nat ->
         getElementById doc (candidate pfx txt j) <> None.
Proof.
  intros Hfit. destruct (truthy (idify pfx txt None)) eqn:Hb.
  - destruct (first_free_candidate doc pfx txt Hb) as (m & Hm & Hfree & Hbusy).
    exists m. split; [exact Hm|]. split; [|split; [exact Hfree|exact Hbusy]].
    apply (@slug_loop_first_free doc pfx txt m) with (k := 0%nat);
      try lia; auto.
    + unfold fits in Hfit. lia.
    + intros j Hj. apply Hbusy. lia.
  - exists 0%nat. rewrite candidate_zero.
    destruct (idify pfx txt None); [|discriminate].
    split; [lia|]. split; [reflexivity|]. split; [reflexivity|].
    intros j Hj. lia.
Qed.

Lemma slugify_total (doc : document) (el : element) (pfx : jsstring)
    (unique : bool) :
  fits doc -> exists i, slugify doc el pfx unique = Some i.
Proof.
  intros Hfit. unfold slugify, slugify_fuel.
  destruct (id el) as [i|]; [eauto|].
  destruct unique; [|eauto].
  now apply slug_loop_total.
Qed.

(** ** The two passes leave explicit ids alone *)

Lemma slugify_explicit (fuel : nat) (doc : document) (el : element)
    (pfx : jsstring) (unique : bool) (i : jsstring) :
  id el = Some i -> slugify_fuel fuel doc el pfx unique = Some i.
Proof. intros H. unfold slugify_fuel. now rewrite H. Qed.

Lemma kept_refl (e : element) : kept e e.
Proof. unfold kept; auto. Qed.

Lemma dfn_pass_shape (todo : document) :
  forall visited,
    fits (visited ++ todo) ->
    exists todo',
      dfn_pass visited todo = Some (visited ++ todo')
      /\ Forall2 kept todo todo'.
Proof.
  induction todo as [|e rest IH]; intros visited Hfit; simpl.
  - exists []. rewrite app_nil_r. split; [reflexivity | constructor].
  - destruct (is_dfn e) eqn:Hd.
    + destruct (@slugify_total (visited ++ e :: rest) e (lit "dfn") true Hfit)
        as [i Hi].
      rewrite Hi.
      destruct (IH (visited ++ [set_id i e])) as (rest' & Hr & Hk).
      { unfold fits in *. rewrite <- app_assoc.
        rewrite !length_app in *. exact Hfit. }
      exists (set_id i e :: rest'). rewrite Hr, <- app_assoc. split; auto.
      constructor; auto. unfold kept. simpl. repeat split; auto.
      * intros j Hj. unfold slugify, slugify_fuel in Hi.
        rewrite Hj in Hi. congruence.
      * congruence.
    + destruct (IH (visited ++ [e])) as (rest' & Hr & Hk).
      { unfold fits in *. rewrite <- app_assoc. exact Hfit. }
      exists (e :: rest'). rewrite Hr, <- app_assoc. split; auto.
      constructor; auto. apply kept_refl.
Qed.

Lemma link_pass_shape (todo : document) :
  forall visited errs,
    fits (visited ++ todo) ->
    exists todo' errs',
      link_pass visited todo errs = Some (visited ++ todo', errs')
      /\ Forall2 linked todo todo'.
Proof.
  induction todo as [|e rest IH]; intros visited errs Hfit; simpl.
  - exists [], errs. rewrite app_nil_r. split; [reflexivity | constructor].
  - assert (Hfit' : forall e1, fits ((visited ++ [e1]) ++ rest)).
    { intros e1. unfold fits in *. rewrite <- app_assoc.
      rewrite !length_app in *. exact Hfit. }
    destruct (is_bare_link e).
    + destruct (@slugify_total (visited ++ e :: rest) e (lit "dfn") false Hfit)
        as [i Hi].
      rewrite Hi.
      destruct (getElementById (visited ++ e :: rest) i).
      * destruct (IH (visited ++ [set_dfn_ref i e]) errs (Hfit' _))
          as (rest' & errs' & Hr & Hk).
        exists (set_dfn_ref i e :: rest'), errs'.
        rewrite Hr, <- app_assoc. split; auto.
        constructor; auto. unfold linked; simpl; auto.
      * destruct (IH (visited ++ [e])
                    (errs ++ [empty_link_error (textContent e) i]) (Hfit' _))
          as (rest' & errs' & Hr & Hk).
        exists (e :: rest'), errs'. rewrite Hr, <- app_assoc. split; auto.
        constructor; auto. unfold linked; auto.
    + destruct (IH (visited ++ [e]) errs (Hfit' _))
        as (rest' & errs' & Hr & Hk).
      exists (e :: rest'), errs'. rewrite Hr, <- app_assoc. split; auto.
      constructor; auto. unfold linked; auto.
Qed.

Lemma Forall2_compose (A : Type) (P Q R : A -> A -> Prop) (l1 l2 l3 : list A) :
  (forall x y z, P x y -> Q y z -> R x z) ->
  Forall2 P l1 l2 -> Forall2 Q l2 l3 -> Forall2 R l1 l3.
Proof.
  intros H H12. revert l3. induction H12; intros l3 H23; inversion H23; subst;
    constructor; eauto.
Qed.

(** C9: an element that carries an id before the resolver runs carries the
    same id afterwards (the resolver does produce a result), and [slugify]
    returns that id whatever the document, the prefix and the mode. *)
Theorem explicit_ids_kept (doc : document) (errs : list jsstring) :
  fits doc ->
  exists doc' errs',
    resolve doc errs = Some (doc', errs')
    /\ Forall2
         (fun e e' =>
            forall i, id e = Some i ->
              id e' = Some i
              /\ forall d pfx unique, slugify d e pfx unique = Some i)
         doc doc'.
Proof.
  intros Hfit. unfold resolve.
  destruct (@dfn_pass_shape doc [] Hfit) as (doc1 & H1 & K1).
  simpl in H1. rewrite H1.
  assert (Hfit1 : fits ([] ++ doc1)).
  { unfold fits in *. simpl. now rewrite <- (Forall2_length K1). }
  destruct (@link_pass_shape doc1 [] errs Hfit1) as (doc2 & errs2 & H2 & K2).
  simpl in H2. exists doc2, errs2. split; [exact H2|].
  eapply Forall2_compose; [|exact K1|exact K2].
  intros x y z (_ & _ & Hid & _) (_ & _ & Hz) i Hi. split.
  - rewrite Hz. now apply Hid.
  - intros d pfx unique. now apply slugify_explicit.
Qed.

(** C10: on a document with fewer than 2^53 elements the search loop of
    [slugify] reaches its exit: every iteration strictly increases the
    suffix, one iteration more than the document has elements is enough,
    and more iterations give the same identifier.  For an element without
    an id, in the unique mode, the identifier reached is unused: it is the
    first of the candidates that no element of the document carries, found
    after at most as many iterations as the document has elements, all the
    candidates before it being carried. *)
Theorem slugify_terminates (doc : document) (el : element) (pfx : jsstring)
    (unique : bool) :
  fits doc ->
  (forall suf,
     (match suf with Some n => n | None => 0 end < two53)%N ->
     (match suf with Some n => n | None => 0 end < next_suffix suf)%N)
  /\ exists i,
       slugify doc el pfx unique = Some i
       /\ (forall fuel, (S (length doc) <= fuel)%nat ->
             slugify_fuel fuel doc el pfx unique = Some i)
       /\ (id el = None -> unique = true ->
           getElementById doc i = None
           /\ exists m,
                (m <= length doc)%nat
                /\ i = candidate pfx (slug_text (textContent el)) m
                /\ forall j, (j < m)%nat ->
                     getElementById doc
                       (candidate pfx (slug_text (textContent el)) j)
                     <> None).
Proof.
  intros Hfit. split; [exact next_suffix_increases|].
  destruct (@slugify_total doc el pfx unique Hfit) as [i Hi].
  exists i. split; [exact Hi|]. split.
  - intros fuel Hfuel.
    unfold slugify, slugify_fuel in *.
    destruct (id el); [exact Hi|]. destruct unique; [|exact Hi].
    eapply slug_loop_more_fuel; eauto.
  - intros Hid Hu. subst unique.
    unfold slugify, slugify_fuel in Hi. rewrite Hid in Hi. cbv zeta in Hi.
    destruct (@slug_loop_stops doc pfx (slug_text (textContent el)) Hfit)
      as (m & Hm & Hrun & Hfree & Hbusy).
    rewrite Hrun in Hi. injection Hi as <-.
    split; [exact Hfree|]. exists m. repeat split; assumption.
Qed.

(** ** Suffixes of colliding definitions *)

Lemma idify_nonempty (pfx txt : jsstring) (suf : option N) :
  truthy pfx = true -> idify pfx txt suf <> [].
Proof.
  intros Hp. unfold idify. simpl filter. rewrite Hp.
  destruct pfx as [|p pfx]; [discriminate|].
  destruct (truthy txt), (Boolean (suffix_part suf)); simpl; discriminate.
Qed.

(** The identifier given to a definition without an id is not empty and is
    carried by no element at that moment. *)
Lemma slugify_fresh (doc : document) (e : element) (i : jsstring) :
  id e = None ->
  slugify doc e (lit "dfn") true = Some i ->
  i <> [] /\ forall x, In x doc -> id x <> Some i.
Proof.
  intros He H. unfold slugify, slugify_fuel in H. rewrite He in H.
  apply slug_loop_exit in H as [Hfree Hform].
  assert (Hne : i <> []).
  { destruct Hform as [->|[n ->]]; now apply idify_nonempty. }
  split; [exact Hne|].
  apply getElementById_none in Hfree as [Hfree|Hfree]; [congruence | exact Hfree].
Qed.

Lemma Forall2_in_combine (A : Type) (R : A -> A -> Prop) (l l' : list A) (x : A) :
  Forall2 R l l' -> In x l -> exists x', In (x, x') (combine l l') /\ R x x'.
Proof.
  induction 1 as [|a b l l' Hab _ IH]; simpl; [tauto|].
  intros [->|Hin].
  - exists b. auto.
  - destruct (IH Hin) as (x' & H1 & H2). exists x'. auto.
Qed.

Lemma dfn_pass_step (visited rest rest' : document) (e e1 : element) :
  fits (visited ++ e :: rest) ->
  dfn_pass visited (e :: rest) = Some (visited ++ e1 :: rest') ->
  dfn_pass (visited ++ [e1]) rest = Some ((visited ++ [e1]) ++ rest')
  /\ Forall2 kept rest rest'
  /\ kept e e1
  /\ (is_dfn e = true ->
      exists i, slugify (visited ++ e :: rest) e (lit "dfn") true = Some i
                /\ e1 = set_id i e)
  /\ (is_dfn e = false -> e1 = e).
Proof.
  intros Hfit H.
  destruct (@dfn_pass_shape (e :: rest) visited Hfit) as (T & HT & KT).
  rewrite H in HT. injection HT as HT. apply app_inv_head in HT. subst T.
  inversion KT as [|? ? ? ? Ke Krest]; subst.
  simpl in H. destruct (is_dfn e) eqn:Hd.
  - destruct (slugify (visited ++ e :: rest) e (lit "dfn") true) as [i|] eqn:Hi;
      [|discriminate].
    assert (Hfit' : fits ((visited ++ [set_id i e]) ++ rest)).
    { unfold fits in *. rewrite <- app_assoc. rewrite !length_app in *.
      exact Hfit. }
    destruct (@dfn_pass_shape rest (visited ++ [set_id i e]) Hfit')
      as (R' & HR & _).
    pose proof HR as HR0. rewrite H in HR. injection HR as HR.
    rewrite <- app_assoc in HR. apply app_inv_head in HR.
    injection HR as -> ->.
    repeat split; auto; try apply Ke.
    + intros _. exists i. auto.
    + discriminate.
  - assert (Hfit' : fits ((visited ++ [e]) ++ rest)).
    { unfold fits in *. now rewrite <- app_assoc. }
    destruct (@dfn_pass_shape rest (visited ++ [e]) Hfit') as (R' & HR & _).
    pose proof HR as HR0. rewrite H in HR. injection HR as HR.
    rewrite <- app_assoc in HR. apply app_inv_head in HR.
    injection HR as -> ->.
    repeat split; auto; try apply Ke. discriminate.
Qed.

Section Collection.
Variable txt : jsstring.

Let cand (k : nat) : jsstring := candidate (lit "dfn") txt k.
Let count (l : document) : nat := length (filter (in_collection txt) l).
Let sites (l l' : document) : list (element * element) :=
  filter (fun p => in_collection txt (fst p)) (combine l l').

Lemma in_collection_facts (e : element) :
  in_collection txt e = true ->
  is_dfn e = true /\ id e = None /\ slug_text (textContent e) = txt.
Proof.
  unfold in_collection. rewrite !andb_true_iff, eqb_eq.
  intros [[H1 H2] H3]. destruct (id e); [discriminate | auto].
Qed.

Lemma with_id_not_in_collection (e : element) (i : jsstring) :
  id e = Some i -> in_collection txt e = false.
Proof.
  intros H. unfold in_collection. rewrite H.
  now rewrite andb_false_r.
Qed.

Lemma dfn_pass_sequence (todo : document) :
  forall visited todo' j,
    fits (visited ++ todo) ->
    dfn_pass visited todo = Some (visited ++ todo') ->
    (j <= length visited)%nat ->
    (forall k, (k < j)%nat -> exists x, In x visited /\ id x = Some (cand k)) ->
    (forall x k, In x visited -> (j <= k < j + count todo)%nat ->
                 id x <> Some (cand k)) ->
    (forall e e' k, In (e, e') (combine todo todo') ->
                    in_collection txt e = false ->
                    (k < j + count todo)%nat -> id e' <> Some (cand k)) ->
    map (fun p => id (snd p)) (sites todo todo')
    = map (fun k => Some (cand k)) (seq j (count todo)).
Proof.
  induction todo as [|e rest IH]; intros visited todo' j Hfit H Hj HA HB HC.
  - reflexivity.
  - destruct (@dfn_pass_shape (e :: rest) visited Hfit) as (T & HT & KT).
    rewrite H in HT. injection HT as HT. apply app_inv_head in HT. subst T.
    destruct todo' as [|e1 rest']; [inversion KT|].
    destruct (@dfn_pass_step visited rest rest' e e1 Hfit H)
      as (Hrec & Krest & Ke & Hdfn & Hnot).
    assert (Hfit' : fits ((visited ++ [e1]) ++ rest)).
    { unfold fits in *. rewrite <- app_assoc. rewrite !length_app in *.
      exact Hfit. }
    unfold sites, count in *.
    assert (Hcount : length (filter (in_collection txt) (e :: rest))
              = if in_collection txt e
                then S (length (filter (in_collection txt) rest))
                else length (filter (in_collection txt) rest)).
    { simpl. now destruct (in_collection txt e). }
    rewrite Hcount in HB, HC |- *. clear Hcount.
    simpl combine. simpl filter.
    destruct (in_collection txt e) eqn:Hc.
    + (* a site of the collection: it receives candidate [j] *)
      destruct (@in_collection_facts e Hc) as (Hd & Hid & Htxt).
      destruct (Hdfn Hd) as (i & Hi & ->).
      assert (Ei : i = cand j).
      { assert (Hfree : getElementById (visited ++ e :: rest) (cand j) = None).
        { apply getElementById_none. right. intros x Hx Hxid.
          apply in_app_or in Hx as [Hx|[<-|Hx]].
          - apply (HB x j Hx); [simpl; lia | exact Hxid].
          - congruence.
          - destruct (@Forall2_in_combine _ _ _ _ x Krest Hx) as (x' & Hin & Kx).
            apply (HC x x' j).
            + right. exact Hin.
            + eapply with_id_not_in_collection; eauto.
            + simpl. lia.
            + now apply Kx. }
        assert (Hbusy : forall k, (0 <= k < j)%nat ->
                  getElementById (visited ++ e :: rest) (cand k) <> None).
        { intros k Hk. destruct (HA k) as (x & Hx & Hxid); [lia|].
          eapply getElementById_some; eauto.
          - now apply candidate_nonempty.
          - apply in_or_app. now left. }
        assert (Hj53 : (N.of_nat j <= two53)%N).
        { unfold fits in Hfit. rewrite length_app in Hfit. lia. }
        pose proof (@slug_loop_first_free _ (lit "dfn") txt j Hj53 Hfree
                      j 0%nat ltac:(lia) ltac:(lia) Hbusy) as Hrun.
        unfold slugify, slugify_fuel in Hi. rewrite Hid, Htxt in Hi.
        eapply slug_loop_more_fuel
          with (fuel' := (S (length (visited ++ e :: rest)) + j)%nat) in Hi;
          [|lia].
        eapply slug_loop_more_fuel
          with (fuel' := (S (length (visited ++ e :: rest)) + j)%nat) in Hrun;
          [|lia].
        simpl suffix_at in Hrun. rewrite candidate_zero in Hrun.
        unfold cand. congruence. }
      subst i. simpl. f_equal.
      apply (IH (visited ++ [set_id (cand j) e]) rest' (S j)); auto.
      * rewrite length_app. simpl. lia.
      * intros k Hk. destruct (Nat.eq_dec k j) as [->|Hne].
        -- exists (set_id (cand j) e). split; [|reflexivity].
           apply in_or_app. right. now left.
        -- destruct (HA k) as (x & Hx & Hxid); [lia|].
           exists x. split; auto. apply in_or_app. now left.
      * intros x k Hx Hk. apply in_app_or in Hx as [Hx|[<-|[]]].
        -- apply HB; auto. simpl. lia.
        -- simpl. intros [= Heq].
           apply candidate_inj in Heq; [lia|].
           now apply idify_truthy.
      * intros e0 e0' k Hin Hc0 Hk. apply (HC e0 e0' k); auto.
        -- now right.
        -- simpl. lia.
    + (* any other element *)
      apply (IH (visited ++ [e1]) rest' j); auto.
      * rewrite length_app. simpl. lia.
      * intros k Hk. destruct (HA k Hk) as (x & Hx & Hxid).
        exists x. split; auto. apply in_or_app. now left.
      * intros x k Hx Hk. apply in_app_or in Hx as [Hx|[<-|[]]].
        -- apply HB; auto.
        -- apply (HC e e1 k); auto; [now left | lia].
      * intros e0 e0' k Hin Hc0 Hk. apply (HC e0 e0' k); auto. now right.
Qed.
End Collection.

(** The ids given by one run of the loop are pairwise different, and differ
    from every id carried before. *)
Lemma dfn_pass_fresh (todo : document) :
  forall visited todo',
    fits (visited ++ todo) ->
    dfn_pass visited todo = Some (visited ++ todo') ->
    NoDup (map (fun p => id (snd p))
             (filter (fun p => needs_id (fst p)) (combine todo todo')))
    /\ forall x i, In x visited -> id x = Some i ->
         ~ In (Some i)
             (map (fun p => id (snd p))
                (filter (fun p => needs_id (fst p)) (combine todo todo'))).
Proof.
  induction todo as [|e rest IH]; intros visited todo' Hfit H.
  - simpl. split; [constructor | tauto].
  - destruct (@dfn_pass_shape (e :: rest) visited Hfit) as (T & HT & KT).
    rewrite H in HT. injection HT as HT. apply app_inv_head in HT. subst T.
    destruct todo' as [|e1 rest']; [inversion KT|].
    destruct (@dfn_pass_step visited rest rest' e e1 Hfit H)
      as (Hrec & Krest & Ke & Hdfn & Hnot).
    assert (Hfit' : fits ((visited ++ [e1]) ++ rest)).
    { unfold fits in *. rewrite <- app_assoc. rewrite !length_app in *.
      exact Hfit. }
    destruct (IH _ _ Hfit' Hrec) as [Hnd Hdisj].
    simpl combine. simpl filter. destruct (needs_id e) eqn:Hn.
    + unfold needs_id in Hn. apply andb_true_iff in Hn as [Hd Hid].
      destruct (id e) eqn:Eid; [discriminate|].
      destruct (Hdfn Hd) as (i & Hi & ->).
      destruct (@slugify_fresh (visited ++ e :: rest) e i Eid Hi) as [Hne Hfresh].
      simpl. split.
      * constructor; auto.
        apply (Hdisj (set_id i e) i); [|reflexivity].
        apply in_or_app. right. now left.
      * intros x i' Hx Hxid [Heq|Hin].
        -- injection Heq as ->. apply (Hfresh x); auto.
           apply in_or_app. now left.
        -- apply (Hdisj x i'); auto. apply in_or_app. now left.
    + split; auto. intros x i' Hx Hxid. apply (Hdisj x i'); auto.
      apply in_or_app. now left.
Qed.

(** Among pairwise different ids, those of a part of the sites are pairwise
    different. *)
Lemma site_ids_nodup (q : element * element -> bool)
    (pairs : list (element * element)) :
  NoDup (map (fun p => id (snd p)) pairs) ->
  NoDup (map (fun p => id (snd p)) (filter q pairs)).
Proof.
  induction pairs as [|x pairs IH]; simpl; [auto|].
  intros Hnd. inversion Hnd as [|? ? Hx Hl]; subst.
  destruct (q x); simpl; auto. constructor; auto.
  intros Hin. apply Hx. apply in_map_iff in Hin as (y & Hy & Hin).
  apply filter_In in Hin as [Hin _]. apply in_map_iff. eauto.
Qed.

Lemma filter_filter_sub (A : Type) (p q : A -> bool) (l : list A) :
  (forall x, q x = true -> p x = true) ->
  filter q (filter p l) = filter q l.
Proof.
  intros Hsub. induction l as [|x l IH]; simpl; [reflexivity|].
  destruct (p x) eqn:Hp; simpl.
  - now rewrite IH.
  - destruct (q x) eqn:Hq; [|exact IH].
    apply Hsub in Hq. congruence.
Qed.

Lemma filter_combine_length (A : Type) (p : A -> bool) (l l' : list A) :
  length l = length l' ->
  length (filter (fun x => p (fst x)) (combine l l')) = length (filter p l).
Proof.
  revert l'. induction l as [|x l IH]; intros [|y l'] Hlen; simpl in *;
    try discriminate; auto.
  destruct (p x); simpl; auto.
Qed.

(** The identifier that a definition without an id receives is the first
    candidate that no element of the document carries when [slugify] runs. *)
Lemma slugify_first_free (doc : document) (e : element) (i : jsstring) :
  fits doc -> id e = None ->
  slugify doc e (lit "dfn") true = Some i ->
  exists m,
    i = candidate (lit "dfn") (slug_text (textContent e)) m
    /\ getElementById doc (candidate (lit "dfn") (slug_text (textContent e)) m)
       = None
    /\ forall j, (j < m)%nat ->
         getElementById doc
           (candidate (lit "dfn") (slug_text (textContent e)) j) <> None.
Proof.
  intros Hfit Hid Hi.
  unfold slugify, slugify_fuel in Hi. rewrite Hid in Hi. cbv zeta in Hi.
  destruct (@slug_loop_stops doc (lit "dfn") (slug_text (textContent e)) Hfit)
    as (m & _ & Hrun & Hfree & Hbusy).
  rewrite Hrun in Hi. injection Hi as <-.
  exists m. repeat split; assumption.
Qed.

(** Every site of a collection receives the first candidate that is free in
    the document as it stands when the loop gets to the site: the elements
    before it as the loop left them, the site and the elements after it as
    they were. *)
Lemma dfn_pass_first_free (txt : jsstring) (todo : document) :
  forall visited todo' p e e',
    fits (visited ++ todo) ->
    dfn_pass visited todo = Some (visited ++ todo') ->
    nth_error todo p = Some e -> nth_error todo' p = Some e' ->
    in_collection txt e = true ->
    exists m,
      id e' = Some (candidate (lit "dfn") txt m)
      /\ getElementById (visited ++ firstn p todo' ++ skipn p todo)
           (candidate (lit "dfn") txt m) = None
      /\ forall j, (j < m)%nat ->
           getElementById (visited ++ firstn p todo' ++ skipn p todo)
             (candidate (lit "dfn") txt j) <> None.
Proof.
  induction todo as [|e0 rest IH]; intros visited todo' p e e' Hfit Hrun He He' Hc.
  - destruct p; discriminate.
  - destruct (@dfn_pass_shape (e0 :: rest) visited Hfit) as (todo2 & Hrun2 & K).
    rewrite Hrun in Hrun2. injection Hrun2 as Hrun2.
    apply app_inv_head in Hrun2. subst todo2.
    inversion K as [|x e1 l rest' _ _ E1 E2]. subst.
    destruct (@dfn_pass_step visited rest rest' e0 e1 Hfit Hrun)
      as (Hnext & _ & _ & Hset & _).
    destruct p as [|p].
    + simpl in He, He'. injection He as ->. injection He' as ->.
      destruct (@in_collection_facts txt e Hc) as (Hd & Hid & Htxt).
      destruct (Hset Hd) as (i & Hi & ->).
      destruct (@slugify_first_free _ _ _ Hfit Hid Hi) as (m & -> & Hfree & Hbusy).
      rewrite Htxt in *. exists m. simpl. repeat split; assumption.
    + simpl in He, He'.
      destruct (IH (visited ++ [e1]) rest' p e e') as (m & Hm & Hfree & Hbusy);
        try assumption.
      { unfold fits in *. rewrite <- app_assoc. simpl.
        rewrite length_app in *. simpl in *. exact Hfit. }
      exists m. simpl firstn. simpl skipn.
      rewrite <- app_assoc in Hfree. rewrite <- app_assoc in Hbusy.
      repeat split; assumption.
Qed.

(** C2, as the code has it: the sites of a collection, in first-seen order,
    receive pairwise different ids; when no element outside the collection
    carries or receives one of the first [n] candidates ([n] being the size
    of the collection), these ids are the bare slug, then the slug with the
    suffixes 1, 2, ... in this order; and in every case each site receives
    the first of the candidates that no element of the document carries at
    the moment the loop gets to it, the document being then made of the
    elements before the site as the loop left them and of the site and the
    elements after it as they were. *)
Theorem colliding_definitions (doc : document) (txt : jsstring) :
  fits doc ->
  exists doc',
    dfn_pass [] doc = Some doc'
    /\ length doc' = length doc
    /\ let n := length (filter (in_collection txt) doc) in
       let sites :=
         filter (fun p => in_collection txt (fst p)) (combine doc doc') in
       length sites = n
       /\ NoDup (map (fun p => id (snd p)) sites)
       /\ ((forall e e' k,
              In (e, e') (combine doc doc') ->
              in_collection txt e = false -> (k < n)%nat ->
              id e' <> Some (candidate (lit "dfn") txt k)) ->
           map (fun p => id (snd p)) sites
           = map (fun k => Some (candidate (lit "dfn") txt k)) (seq 0 n))
       /\ (forall p e e',
             nth_error doc p = Some e -> nth_error doc' p = Some e' ->
             in_collection txt e = true ->
             exists m,
               id e' = Some (candidate (lit "dfn") txt m)
               /\ getElementById (firstn p doc' ++ skipn p doc)
                    (candidate (lit "dfn") txt m) = None
               /\ forall j, (j < m)%nat ->
                    getElementById (firstn p doc' ++ skipn p doc)
                      (candidate (lit "dfn") txt j) <> None).
Proof.
  intros Hfit.
  destruct (@dfn_pass_shape doc [] Hfit) as (doc' & H & K).
  simpl in H. exists doc'. split; [exact H|].
  pose proof (Forall2_length K) as Hlen. split; [auto|].
  cbv zeta. split; [now apply filter_combine_length|]. split; [|split].
  - destruct (@dfn_pass_fresh doc [] doc' Hfit H) as [Hnd _].
    rewrite <- (@filter_filter_sub _ (fun p => needs_id (fst p))
                  (fun p => in_collection txt (fst p))).
    + now apply site_ids_nodup.
    + intros [e e'] Hc. simpl in *.
      destruct (@in_collection_facts txt e Hc) as (Hd & Hid & _).
      unfold needs_id. now rewrite Hd, Hid.
  - intros Hothers.
    apply (@dfn_pass_sequence txt doc [] doc' 0%nat); auto.
    all: try (simpl; lia).
    all: try (intros k Hk; lia).
    all: try (intros x k []).
  - intros p e e' He He' Hc.
    exact (@dfn_pass_first_free txt doc [] doc' p e e' Hfit H He He' Hc).
Qed.

(** ** The slug of a text *)

Ltac reflect_N :=
  repeat (rewrite ?orb_true_iff, ?andb_true_iff, ?orb_false_iff,
            ?andb_false_iff, ?negb_true_iff, ?negb_false_iff,
            ?N.leb_le, ?N.leb_gt, ?N.eqb_eq, ?N.eqb_neq in *).

Lemma space_not_word (c : char) : is_space c = true -> is_word c = false.
Proof. unfold is_space, is_word, in_range. intros H. reflect_N. lia. Qed.

Lemma space_lower (c : char) : is_space c = true -> lower_char c = [c].
Proof.
  intros H. unfold lower_char.
  assert (E1 : in_range 65 90 c = false)
    by (unfold is_space, in_range in *; reflect_N; lia).
  assert (E2 : N.eqb c 304 = false)
    by (unfold is_space, in_range in *; reflect_N; lia).
  assert (E3 : N.eqb c 8490 = false)
    by (unfold is_space, in_range in *; reflect_N; lia).
  now rewrite E1, E2, E3.
Qed.

Lemma hyphenate_cons (c : char) (s : jsstring) :
  hyphenate (c :: s) = replace_nonword (lower_char c) ++ hyphenate s.
Proof.
  unfold hyphenate, toLowerCase, replace_nonword. simpl. now rewrite map_app.
Qed.

Lemma hyphenate_space (c : char) (s : jsstring) :
  is_space c = true -> hyphenate (c :: s) = 45 :: hyphenate s.
Proof.
  intros H. rewrite hyphenate_cons, (space_lower _ H). simpl.
  now rewrite (space_not_word _ H).
Qed.

Lemma hyphenate_app (a b : jsstring) :
  hyphenate (a ++ b) = hyphenate a ++ hyphenate b.
Proof.
  unfold hyphenate, toLowerCase, replace_nonword.
  now rewrite flat_map_app, map_app.
Qed.

Lemma collapse_from_app (a b : jsstring) :
  forall p,
    collapse_from p (a ++ b)
    = collapse_from p a ++ collapse_from (ends_hyphen p a) b.
Proof.
  induction a as [|c a IH]; intros p; simpl; [reflexivity|].
  destruct (is_hyphen c); [destruct p|]; simpl; now rewrite IH.
Qed.

Lemma strip_leading_collapse (y : jsstring) :
  strip_leading (collapse_from false y) = collapse_from true y.
Proof.
  destruct y as [|c y]; simpl; [reflexivity|].
  destruct (is_hyphen c) eqn:E; simpl; now rewrite E.
Qed.

Lemma collapse_true_head (y : jsstring) (d : char) (t : jsstring) :
  collapse_from true y = d :: t -> is_hyphen d = false.
Proof.
  induction y as [|c y IH]; simpl; [discriminate|].
  destruct (is_hyphen c) eqn:E; [exact IH|].
  intros [= <- _]. exact E.
Qed.

Lemma drop_hyphens_collapse (y : jsstring) :
  drop_while is_hyphen (collapse_from false y) = collapse_from true y.
Proof.
  assert (G : forall z, drop_while is_hyphen (collapse_from true z)
                        = collapse_from true z).
  { intros z. destruct (collapse_from true z) as [|d t] eqn:E; [reflexivity|].
    simpl. now rewrite (collapse_true_head _ E). }
  destruct y as [|c y]; simpl; [reflexivity|].
  destruct (is_hyphen c) eqn:E; simpl; rewrite E; [apply G | reflexivity].
Qed.

Lemma drop_end_collapse (y : jsstring) :
  forall p,
    drop_end is_hyphen (collapse_from p y) = strip_trailing (collapse_from p y).
Proof.
  induction y as [|c y IH]; intros p; [reflexivity|].
  assert (G : forall t, t = collapse_from (is_hyphen c) y ->
            drop_end is_hyphen (c :: t) = strip_trailing (c :: t)).
  { intros t Et. simpl. rewrite Et at 1. rewrite IH, <- Et.
    destruct t as [|d t2]; [reflexivity|].
    destruct (strip_trailing (d :: t2)) as [|x r] eqn:Es; [|reflexivity].
    destruct t2 as [|d2 t3]; [|simpl in Es; destruct t3; discriminate].
    simpl in Es. destruct (is_hyphen d) eqn:Ed; [|discriminate].
    destruct (is_hyphen c) eqn:Ec; [|reflexivity].
    symmetry in Et. apply collapse_true_head in Et. congruence. }
  simpl. destruct (is_hyphen c) eqn:Ec.
  - destruct p.
    + apply IH.
    + apply G; rewrite ?Ec; reflexivity.
  - apply G; rewrite ?Ec; reflexivity.
Qed.

(** Both derivations end in the same two steps: the hyphens are collapsed
    and those at the two ends are dropped. *)
Lemma strip_hyphens_collapse (y : jsstring) :
  strip_hyphens (collapse_hyphens y) = strip_trailing (collapse_from true y).
Proof.
  unfold strip_hyphens, collapse_hyphens. now rewrite strip_leading_collapse.
Qed.

Lemma trim_hyphens_collapse (y : jsstring) :
  Spec.trim_hyphens (collapse_hyphens y) = strip_trailing (collapse_from true y).
Proof.
  unfold Spec.trim_hyphens, collapse_hyphens.
  rewrite drop_hyphens_collapse. apply drop_end_collapse.
Qed.

Lemma collapse_nil_ends (y : jsstring) :
  forall q, collapse_from q y = [] -> ends_hyphen q y = q.
Proof.
  induction y as [|c y IH]; intros q; simpl; [reflexivity|].
  destruct (is_hyphen c) eqn:E; [destruct q|]; try discriminate.
  apply IH.
Qed.

Lemma strip_trailing_snoc (z : jsstring) : strip_trailing (z ++ [45]) = z.
Proof.
  induction z as [|c z IH]; [reflexivity|].
  destruct z as [|d z]; [reflexivity|].
  change (strip_trailing ((c :: d :: z) ++ [45]))
    with (c :: strip_trailing ((d :: z) ++ [45])).
  now rewrite IH.
Qed.

Lemma strip_trailing_id (y : jsstring) :
  forall p,
    ends_hyphen p y = false ->
    strip_trailing (collapse_from p y) = collapse_from p y.
Proof.
  induction y as [|c y IH]; intros p H; [reflexivity|].
  simpl in H.
  assert (G : strip_trailing (c :: collapse_from (is_hyphen c) y)
              = c :: collapse_from (is_hyphen c) y).
  { destruct (collapse_from (is_hyphen c) y) as [|d t] eqn:E.
    - apply collapse_nil_ends in E. rewrite E in H. simpl. now rewrite H.
    - change (strip_trailing (c :: d :: t)) with (c :: strip_trailing (d :: t)).
      rewrite <- E, (IH _ H). reflexivity. }
  simpl. destruct (is_hyphen c) eqn:Ec.
  - destruct p.
    + now apply IH.
    + rewrite <- Ec in *. exact G.
  - rewrite <- Ec in *. exact G.
Qed.

Lemma trailing_hyphen_dropped (y : jsstring) (p : bool) :
  strip_trailing (collapse_from p (y ++ [45]))
  = strip_trailing (collapse_from p y).
Proof.
  rewrite collapse_from_app. simpl.
  destruct (ends_hyphen p y) eqn:E.
  - now rewrite app_nil_r.
  - rewrite strip_trailing_snoc. symmetry. now apply strip_trailing_id.
Qed.

Lemma trailing_hyphens_dropped (n : nat) (y : jsstring) (p : bool) :
  strip_trailing (collapse_from p (y ++ repeat 45 n))
  = strip_trailing (collapse_from p y).
Proof.
  revert y. induction n as [|n IH]; intros y; simpl.
  - now rewrite app_nil_r.
  - change (45 :: repeat 45 n) with ([45] ++ repeat 45 n).
    rewrite app_assoc, IH. apply trailing_hyphen_dropped.
Qed.

Lemma hyphenate_spaces (w : jsstring) :
  forallb is_space w = true -> hyphenate w = repeat 45 (length w).
Proof.
  induction w as [|c w IH]; simpl; [reflexivity|].
  intros H. apply andb_true_iff in H as [Hc Hw].
  rewrite (@hyphenate_space c w Hc), (IH Hw). reflexivity.
Qed.

Lemma drop_end_split (p : char -> bool) (x : jsstring) :
  exists w, x = drop_end p x ++ w /\ forallb p w = true.
Proof.
  induction x as [|c x (w & Hx & Hw)]; simpl.
  - exists []. auto.
  - destruct (drop_end p x) as [|d t] eqn:E.
    + destruct (p c) eqn:Ec.
      * exists (c :: w). simpl in Hx. subst x. simpl. now rewrite Ec.
      * exists w. simpl in *. now subst x.
    + exists w. split; auto. simpl in *. now f_equal.
Qed.

Lemma drop_end_nil (p : char -> bool) (x : jsstring) :
  drop_end p x = [] <-> forallb p x = true.
Proof.
  induction x as [|c x IH]; simpl; [tauto|].
  destruct (drop_end p x) eqn:E.
  - destruct (p c); simpl.
    + tauto.
    + split; discriminate.
  - split; [discriminate|]. rewrite andb_true_iff. intros [_ H].
    apply IH in H. discriminate.
Qed.

Lemma forallb_drop_while (p : char -> bool) (x : jsstring) :
  forallb p (drop_while p x) = forallb p x.
Proof.
  induction x as [|c x IH]; simpl; [reflexivity|].
  destruct (p c) eqn:E; simpl; [exact IH | now rewrite E].
Qed.

Lemma trim_nil (x : jsstring) :
  trim x = [] <-> forallb is_space x = true.
Proof. unfold trim. now rewrite drop_end_nil, forallb_drop_while. Qed.

(** Trimming the white space changes nothing of the final slug. *)
Lemma slug_of_trimmed (x : jsstring) :
  strip_trailing (collapse_from true (hyphenate (trim x)))
  = strip_trailing (collapse_from true (hyphenate x)).
Proof.
  unfold trim.
  transitivity (strip_trailing
                  (collapse_from true (hyphenate (drop_while is_space x)))).
  - destruct (drop_end_split is_space (drop_while is_space x)) as (w & Hx & Hw).
    rewrite Hx at 2. rewrite hyphenate_app, (@hyphenate_spaces w Hw).
    now rewrite trailing_hyphens_dropped.
  - induction x as [|c x IH]; simpl; [reflexivity|].
    destruct (is_space c) eqn:E; [|reflexivity].
    rewrite (@hyphenate_space c x E). simpl. exact IH.
Qed.

(** Merging runs of white space before the hyphens are collapsed changes
    nothing either. *)
Lemma collapse_spaces_irrelevant (s : jsstring) :
  forall pw ph,
    (pw = true -> ph = true) ->
    collapse_from ph (hyphenate (spaces_to_space s))
    = collapse_from ph (hyphenate (Spec.collapse_spaces_from pw s)).
Proof.
  induction s as [|c s IH]; intros pw ph Himp; [reflexivity|].
  simpl. destruct (is_space c) eqn:E.
  - rewrite (@hyphenate_space 32 _ eq_refl). simpl.
    destruct pw.
    + rewrite (Himp eq_refl). now apply IH.
    + rewrite (@hyphenate_space 32 _ eq_refl). simpl.
      destruct ph; [|f_equal]; now apply IH.
  - rewrite !hyphenate_cons, !collapse_from_app. f_equal.
    apply IH. discriminate.
Qed.

Lemma forallb_spaces_to_space (s : jsstring) :
  forallb is_space (spaces_to_space s) = forallb is_space s.
Proof.
  induction s as [|c s IH]; simpl; [reflexivity|].
  rewrite IH. destruct (is_space c) eqn:E; simpl; now rewrite ?E.
Qed.

Lemma forallb_collapse_spaces (s : jsstring) :
  forall p,
    forallb is_space (Spec.collapse_spaces_from p s) = forallb is_space s.
Proof.
  induction s as [|c s IH]; intros p; simpl; [reflexivity|].
  destruct (is_space c) eqn:E; [destruct p|]; simpl; rewrite ?E, IH; reflexivity.
Qed.

Lemma norm_spaces (s : jsstring) : norm s = trim (spaces_to_space s).
Proof. unfold norm. now destruct s. Qed.

(** The slug the code computes is the slug of the specification. *)
Lemma slug_text_spec (text : jsstring) : slug_text text = Spec.slug text.
Proof.
  unfold slug_text, Spec.slug, Spec.placeholder.
  fold (hyphenate (or_else (norm text) (lit "empty"))).
  fold (hyphenate (or_else (Spec.normalize_whitespace text) (lit "empty"))).
  rewrite strip_hyphens_collapse, trim_hyphens_collapse.
  rewrite norm_spaces. unfold Spec.normalize_whitespace.
  destruct (forallb is_space text) eqn:E.
  - assert (E1 : trim (spaces_to_space text) = []).
    { apply trim_nil. now rewrite forallb_spaces_to_space. }
    assert (E2 : trim (Spec.collapse_spaces_from false text) = []).
    { apply trim_nil. now rewrite forallb_collapse_spaces. }
    now rewrite E1, E2.
  - assert (O : forall x, forallb is_space x = false ->
              or_else (trim x) (lit "empty") = trim x).
    { intros x Hx. unfold or_else. destruct (trim x) eqn:Et; [|reflexivity].
      apply trim_nil in Et. congruence. }
    rewrite !O by (now rewrite ?forallb_spaces_to_space, ?forallb_collapse_spaces).
    rewrite !slug_of_trimmed. f_equal.
    apply collapse_spaces_irrelevant. discriminate.
Qed.

Lemma idify_dfn (txt : jsstring) :
  idify (lit "dfn") txt None
  = if truthy txt then lit "dfn" ++ lit "-" ++ txt else lit "dfn".
Proof. destruct txt; reflexivity. Qed.

(** C3, as the code has it: for an element without an id the raw identifier
    (the one before any suffix) is the slug of the specification's
    derivation behind the token dfn, the hyphen between the two being there
    only when the slug is not empty.  It is what [slugify] returns for a
    link, and for a definition when no element carries it yet. *)
Theorem derived_identifier (doc : document) (el : element) :
  id el = None ->
  slugify doc el (lit "dfn") false
  = Some (Spec.derived_id_nonempty (textContent el))
  /\ (getElementById doc (Spec.derived_id_nonempty (textContent el)) = None ->
      slugify doc el (lit "dfn") true
      = Some (Spec.derived_id_nonempty (textContent el))).
Proof.
  intros Hid. unfold slugify, slugify_fuel. rewrite Hid.
  assert (E : idify (lit "dfn") (slug_text (textContent el)) None
              = Spec.derived_id_nonempty (textContent el)).
  { rewrite idify_dfn, slug_text_spec. reflexivity. }
  rewrite E. split; [reflexivity|].
  intros Hfree. simpl. now rewrite Hfree.
Qed.

(** ** The replacement of the markers *)

Lemma span_app (p : char -> bool) (a b : jsstring) :
  span p (a ++ b)
  = match span p a with
    | (x, []) => let (x', y') := span p b in (x ++ x', y')
    | (x, y) => (x, y ++ b)
    end.
Proof.
  induction a as [|c a IH]; simpl.
  - now destruct (span p b).
  - destruct (p c); [|reflexivity].
    rewrite IH. destruct (span p a) as [x [|d y]]; [|reflexivity].
    now destruct (span p b).
Qed.

Lemma span_all (p : char -> bool) (k : jsstring) :
  forallb p k = true -> span p k = (k, []).
Proof.
  induction k as [|c k IH]; simpl; [reflexivity|].
  intros H. apply andb_true_iff in H as [Hc Hk]. now rewrite Hc, (IH Hk).
Qed.

Lemma marker_cons (k post : jsstring) :
  marker k ++ post = 91 :: 91 :: k ++ 93 :: 93 :: post.
Proof. unfold marker. simpl. now rewrite <- app_assoc. Qed.

Lemma match_marker_here (k post : jsstring) :
  truthy k = true -> forallb is_key_char k = true ->
  match_marker (marker k ++ post) = Some (k, post).
Proof.
  intros Hk Hall. rewrite marker_cons. simpl.
  rewrite span_app, (span_all _ _ Hall). simpl. rewrite app_nil_r, Hk.
  reflexivity.
Qed.

Lemma span_some (p : char -> bool) (s x y : jsstring) :
  span p s = (x, y) -> s = x ++ y.
Proof.
  revert x y. induction s as [|c s IH]; simpl; intros x y H.
  - now injection H as <- <-.
  - destruct (p c).
    + destruct (span p s) as [a b]. injection H as <- <-.
      simpl. f_equal. now apply IH.
    + now injection H as <- <-.
Qed.

Lemma match_marker_sound (s key rest : jsstring) :
  match_marker s = Some (key, rest) -> s = marker key ++ rest.
Proof.
  intros H. destruct s as [|c1 [|c2 s1]]; simpl in H; try discriminate.
  destruct (N.eqb c1 91) eqn:E1; [|discriminate].
  destruct (N.eqb c2 91) eqn:E2; [|discriminate]. simpl in H.
  destruct (span is_key_char s1) as [x y] eqn:Es.
  destruct y as [|c3 [|c4 r]]; try discriminate.
  destruct (truthy x); [|discriminate]. simpl in H.
  destruct (N.eqb c3 93) eqn:E3; [|discriminate].
  destruct (N.eqb c4 93) eqn:E4; [|discriminate]. simpl in H.
  injection H as <- <-. apply N.eqb_eq in E1, E2, E3, E4. subst.
  rewrite marker_cons. do 2 f_equal. now apply span_some in Es.
Qed.

(** A match that starts before a marker ends before it. *)
Lemma match_marker_local (pre k post : jsstring) :
  pre <> [] ->
  match_marker (pre ++ marker k ++ post)
  = match match_marker pre with
    | Some (key, rest) => Some (key, rest ++ marker k ++ post)
    | None => None
    end.
Proof.
  intros Hne. rewrite marker_cons.
  destruct pre as [|c1 [|c2 s1]]; [congruence| |].
  - simpl. destruct (N.eqb c1 91); [|reflexivity].
    simpl. destruct (k ++ 93 :: 93 :: post); reflexivity.
  - simpl. destruct (N.eqb c1 91 && N.eqb c2 91); [|reflexivity].
    rewrite span_app. destruct (span is_key_char s1) as [x y]. simpl.
    destruct y as [|c3 [|c4 r]].
    + destruct (truthy (x ++ [])); reflexivity.
    + simpl. destruct (truthy x), (N.eqb c3 93); reflexivity.
    + simpl. destruct (truthy x && N.eqb c3 93 && N.eqb c4 93); reflexivity.
Qed.

Lemma skipn_match (A : Type) (x y z : A) (key rest : list A) :
  skipn (length key + 3) (x :: key ++ y :: z :: rest) = rest.
Proof.
  replace (length key + 3)%nat with (S (length key + 2)) by lia.
  simpl skipn. rewrite skipn_app, skipn_all2 by lia.
  replace (length key + 2 - length key)%nat with 2%nat by lia.
  reflexivity.
Qed.

Section ReplaceFacts.
Variable State : Type.
Variable callback : jsstring -> State -> jsstring * State.

Let run := replace_markers callback.

Lemma replace_skip (s : jsstring) :
  forall n st, run n s st = run 0 (skipn n s) st.
Proof.
  induction s as [|c s IH]; intros n st.
  - destruct n; reflexivity.
  - destruct n as [|n]; [reflexivity|]. simpl. apply IH.
Qed.

Lemma replace_at_match (s key rest : jsstring) (st : State) :
  match_marker s = Some (key, rest) ->
  run 0 s st
  = let (r, st1) := callback key st in
    let (out, st2) := run 0 rest st1 in
    (r ++ out, st2).
Proof.
  intros H. pose proof (@match_marker_sound s key rest H) as Hs.
  rewrite marker_cons in Hs. subst s.
  change (run 0 (91 :: 91 :: key ++ 93 :: 93 :: rest) st)
    with (match match_marker (91 :: 91 :: key ++ 93 :: 93 :: rest) with
          | Some (key0, _) =>
              let (r, st1) := callback key0 st in
              let (out, st2) :=
                run (length key0 + 3) (91 :: key ++ 93 :: 93 :: rest) st1 in
              (r ++ out, st2)
          | None =>
              let (out, st2) := run 0 (91 :: key ++ 93 :: 93 :: rest) st in
              (91 :: out, st2)
          end).
  rewrite H. destruct (callback key st) as [r st1].
  rewrite replace_skip. now rewrite skipn_match.
Qed.

Lemma replace_no_match (c : char) (s : jsstring) (st : State) :
  match_marker (c :: s) = None ->
  run 0 (c :: s) st = let (out, st2) := run 0 s st in (c :: out, st2).
Proof. intros H. unfold run. cbn [replace_markers]. now rewrite H. Qed.

(** The replacement around one marker: what is before is replaced as if it
    stood alone, the callback is called on the key, and the replacement
    goes on behind the marker. *)
Lemma replace_around_marker (k post : jsstring) :
  truthy k = true -> forallb is_key_char k = true ->
  forall pre st,
    run 0 (pre ++ marker k ++ post) st
    = let (o1, st1) := run 0 pre st in
      let (r, st2) := callback k st1 in
      let (o2, st3) := run 0 post st2 in
      (o1 ++ r ++ o2, st3).
Proof.
  intros Hk Hall pre.
  induction pre as [pre IH] using (induction_ltof1 _ (@length char)).
  unfold ltof in IH. intros st. destruct pre as [|c p'].
  - change ([] ++ marker k ++ post) with (marker k ++ post).
    rewrite (@replace_at_match _ k post st (@match_marker_here k post Hk Hall)).
    simpl. destruct (callback k st) as [r st2].
    now destruct (run 0 post st2).
  - pose proof (@match_marker_local (c :: p') k post ltac:(discriminate)) as L.
    destruct (match_marker (c :: p')) as [[key rest]|] eqn:E.
    + rewrite (@replace_at_match _ key _ st L), (@replace_at_match _ key rest st E).
      destruct (callback key st) as [r0 st0].
      apply match_marker_sound in E.
      rewrite IH.
      * destruct (run 0 rest st0) as [o1 st1].
        destruct (callback k st1) as [r st2].
        destruct (run 0 post st2) as [o2 st3].
        now rewrite app_assoc.
      * rewrite E, marker_cons. simpl. rewrite length_app. simpl. lia.
    + change ((c :: p') ++ marker k ++ post)
        with (c :: p' ++ marker k ++ post) in *.
      rewrite (@replace_no_match c _ st L), (@replace_no_match c p' st E).
      rewrite IH by (simpl; lia).
      destruct (run 0 p' st) as [o1 st1].
      destruct (callback k st1) as [r st2].
      now destruct (run 0 post st2).
Qed.

(** What the callback preserves, the whole replacement preserves. *)
Lemma replace_invariant (P : State -> Prop) :
  (forall k st, P st -> P (snd (callback k st))) ->
  forall s n st, P st -> P (snd (run n s st)).
Proof.
  intros Hcb. unfold run.
  induction s as [|c s IH]; intros n st Hst; [exact Hst|].
  destruct n as [|n]; [|now apply IH].
  cbn [replace_markers].
  destruct (match_marker (c :: s)) as [[key rest]|].
  - specialize (Hcb key st Hst). destruct (callback key st) as [r st1].
    specialize (IH (length key + 3)%nat st1 Hcb).
    now destruct (replace_markers callback (length key + 3) s st1).
  - specialize (IH 0%nat st Hst).
    now destruct (replace_markers callback 0 s st).
Qed.
End ReplaceFacts.

(** ** The citation pass *)

Lemma cite_resolved (bib refs : object value) (errs : list jsstring)
    (k : jsstring) (v : value) :
  get bib k = Some v -> truthy_value v = true ->
  cite bib k (refs, errs) = (ref_link k, (assign refs k v, errs)).
Proof. intros H Ht. unfold cite. now rewrite H, Ht. Qed.

Lemma cite_unresolved (bib refs : object value) (errs : list jsstring)
    (k : jsstring) :
  truthy_opt (get bib k) = false ->
  cite bib k (refs, errs) = (marker k, (refs, errs ++ [no_entry_error k])).
Proof.
  unfold cite, truthy_opt. destruct (get bib k) as [v|]; [|reflexivity].
  now intros ->.
Qed.

(** A marker whose key has no truthy value in the bibliography stays as it
    is, one error line is added, [refs] is not touched at this marker, and
    the replacement goes on behind it. *)
Lemma unresolved_marker_left (bib refs : object value) (errs : list jsstring)
    (pre k post : jsstring) :
  truthy k = true -> forallb is_key_char k = true ->
  truthy_opt (get bib k) = false ->
  replace_markers (cite bib) 0 (pre ++ marker k ++ post) (refs, errs)
  = let '(o1, (refs1, errs1)) := replace_markers (cite bib) 0 pre (refs, errs) in
    let (o2, st3) :=
      replace_markers (cite bib) 0 post
        (refs1, errs1 ++ [no_entry_error k]) in
    (o1 ++ marker k ++ o2, st3).
Proof.
  intros Hk Hall Hno.
  rewrite (@replace_around_marker _ (cite bib) k post Hk Hall).
  destruct (replace_markers (cite bib) 0 pre (refs, errs)) as [o1 [refs1 errs1]].
  now rewrite cite_unresolved by exact Hno.
Qed.

(** Once [refs] holds the bibliography's value for a key, it keeps it. *)
Lemma cite_keeps (bib : object value) (b : jsstring) (v : value) :
  get bib b = Some v -> b <> proto_key ->
  forall k st, own (fst st) b = Some v -> own (fst (snd (cite bib k st))) b = Some v.
Proof.
  intros Hb Hp k [refs errs] Hown. unfold cite. simpl in *.
  destruct (get bib k) as [w|] eqn:Ek; [|exact Hown].
  destruct (truthy_value w); [|exact Hown]. simpl.
  destruct (list_eq_dec N.eq_dec b k) as [->|Hne].
  - rewrite own_assign_same by exact Hp. congruence.
  - now rewrite own_assign_other.
Qed.

Lemma get_absent (bib : object value) (k : jsstring) :
  own bib k = None -> ~ In k Object_prototype -> get bib k = None.
Proof.
  intros Hown Hin. unfold get. rewrite Hown.
  destruct (existsb (Js.eqb k) Object_prototype) eqn:E; [|reflexivity].
  apply existsb_exists in E as (x & Hx & Heq). apply eqb_eq in Heq.
  subst x. contradiction.
Qed.

Lemma htmlifyReference_truthy (r : reference) :
  truthy (htmlifyReference r) = true.
Proof. unfold htmlifyReference. now destruct (esc (author r)). Qed.

(** A marker whose key is a processed document is replaced by the link, and
    from there on [refs] holds the document's entry under that key. *)
Lemma resolved_marker_cited (bib refs : object value) (errs : list jsstring)
    (pre b post : jsstring) (v : value) :
  truthy b = true -> forallb is_key_char b = true ->
  get bib b = Some v -> truthy_value v = true -> b <> proto_key ->
  exists o1 o2 refs' errs',
    replace_markers (cite bib) 0 (pre ++ marker b ++ post) (refs, errs)
    = (o1 ++ ref_link b ++ o2, (refs', errs'))
    /\ own refs' b = Some v.
Proof.
  intros Hk Hall Hget Ht Hp.
  rewrite (@replace_around_marker _ (cite bib) b post Hk Hall).
  destruct (replace_markers (cite bib) 0 pre (refs, errs)) as [o1 [refs1 errs1]].
  rewrite (@cite_resolved bib refs1 errs1 b v Hget Ht).
  pose proof (@replace_invariant _ (cite bib)
                (fun st => own (fst st) b = Some v)
                (@cite_keeps bib b v Hget Hp) post 0%nat
                (assign refs1 b v, errs1)) as Hinv.
  destruct (replace_markers (cite bib) 0 post (assign refs1 b v, errs1))
    as [o2 [refs3 errs3]].
  exists o1, o2, refs3, errs3. split; [reflexivity|].
  apply Hinv. simpl. now apply own_assign_same.
Qed.

Lemma references_section_entry (refs : object value) (b : jsstring) (v : value) :
  own refs b = Some v ->
  exists sec,
    references_section refs = Some sec
    /\ heading sec = lit "References"
    /\ In (RefEntry (lit "ref-" ++ b) (lit "[" ++ b ++ lit "]") (Some v))
          (entries sec).
Proof.
  intros Hown. unfold references_section.
  assert (Hin : In b (keys refs)).
  { apply keys_in. eapply own_some_in; eauto. }
  destruct (keys refs) as [|k0 ks] eqn:Ek; [destruct Hin|].
  eexists. split; [reflexivity|]. split; [reflexivity|]. cbn [entries].
  apply in_map_iff. exists b. split.
  - unfold get. now rewrite Hown.
  - eapply Permutation_in; [symmetry; apply (sort_perm Js.leb (k0 :: ks))|].
    exact Hin.
Qed.

(** The entries of the references list follow the code unit order of their
    keys, and there is a list exactly when [refs] has an own key. *)
Lemma leb_total (a b : jsstring) : Js.leb a b = false -> Js.leb b a = true.
Proof.
  revert b. induction a as [|c a IH]; intros [|d b]; simpl; try discriminate;
    auto.
  destruct (N.ltb c d) eqn:Ecd; [discriminate|].
  destruct (N.eqb c d) eqn:Eeq.
  - apply N.eqb_eq in Eeq; subst d. rewrite Ecd, N.eqb_refl. apply IH.
  - intros _. apply N.ltb_ge in Ecd. apply N.eqb_neq in Eeq.
    replace (N.ltb d c) with true; [reflexivity|].
    symmetry. apply N.ltb_lt. lia.
Qed.

Lemma sort_sorted (l : list jsstring) :
  Sorted (fun a b => Js.leb a b = true) (sort Js.leb l).
Proof.
  assert (Hins : forall x l, Sorted (fun a b => Js.leb a b = true) l ->
            Sorted (fun a b => Js.leb a b = true) (insert_sorted Js.leb x l)).
  { intros x. induction l0 as [|y l0 IH]; intros Hs; simpl.
    - repeat constructor.
    - destruct (Js.leb x y) eqn:E.
      + constructor; auto.
      + apply Sorted_inv in Hs as [Hs Hhd]. constructor; [now apply IH|].
        destruct l0 as [|z l0]; simpl.
        * constructor. now apply leb_total.
        * destruct (Js.leb x z); constructor.
          -- now apply leb_total.
          -- now inversion Hhd. }
  induction l as [|x l IH]; simpl; [constructor | now apply Hins].
Qed.

Lemma references_section_shape (refs : object value) :
  (references_section refs = None <-> refs = [])
  /\ forall sec, references_section refs = Some sec ->
       heading sec = lit "References"
       /\ entries sec
          = map (fun r => RefEntry (lit "ref-" ++ r) (lit "[" ++ r ++ lit "]")
                            (get refs r))
              (sort Js.leb (keys refs))
       /\ Sorted (fun a b => Js.leb a b = true) (sort Js.leb (keys refs))
       /\ Permutation (sort Js.leb (keys refs)) (map fst refs).
Proof.
  unfold references_section. split.
  - destruct (keys refs) as [|k ks] eqn:Ek.
    + split; [intros _|reflexivity].
      pose proof (keys_perm refs) as Hp. rewrite Ek in Hp.
      apply Permutation_nil in Hp. now destruct refs.
    + split; [discriminate|]. intros ->. discriminate.
  - intros sec H. destruct (keys refs) as [|k ks] eqn:Ek; [discriminate|].
    injection H as <-. cbn [heading entries]. repeat split.
    + apply sort_sorted.
    + rewrite <- Ek. rewrite sort_perm. apply keys_perm.
Qed.

(** ** The second loop *)

Lemma link_pass_errs (todo : document) :
  forall visited e1 e2,
    option_map fst (link_pass visited todo e1)
    = option_map fst (link_pass visited todo e2).
Proof.
  induction todo as [|e rest IH]; intros visited e1 e2; simpl; [reflexivity|].
  destruct (is_bare_link e); [|apply IH].
  destruct (slugify (visited ++ e :: rest) e (lit "dfn") false) as [i|];
    [|reflexivity].
  destruct (getElementById (visited ++ e :: rest) i); apply IH.
Qed.

Lemma resolve_resolved (doc els : document) (e e' : list jsstring) :
  resolve doc e = Some (els, e') -> resolved doc = Some els.
Proof.
  unfold resolved, resolve. destruct (dfn_pass [] doc) as [d|]; [|discriminate].
  intros H. rewrite (link_pass_errs d [] [] e), H. reflexivity.
Qed.

Lemma process_inv (bib : object value) (s : source) (e e' : list jsstring)
    (pg : page) :
  process bib s e = Some (pg, e') ->
  exists els e2 refs,
    resolved (doc_elements s) = Some els
    /\ replace_markers (cite bib) 0 (main_innerHTML s els) ([], e2)
       = (main pg, (refs, e'))
    /\ references pg = references_section refs.
Proof.
  unfold process.
  set (e1 := match getElementById (doc_elements s) (lit "abstract") with
             | Some _ => e
             | None => e ++ [missing_abstract_error (doc_title s)]
             end).
  destruct (resolve (doc_elements s) e1) as [[els e2]|] eqn:Er; [|discriminate].
  destruct (replace_markers (cite bib) 0 (main_innerHTML s els) ([], e2))
    as [html [refs e3]] eqn:Ex.
  intros [= <- <-]. exists els, e2, refs. simpl.
  repeat split; eauto using resolve_resolved.
Qed.

Lemma process_all_inv (bib : object value) (specs : object source)
    (ks : list jsstring) :
  forall e pages e',
    process_all bib specs ks e = Some (pages, e') ->
    forall a, In a ks ->
      exists s pg e1 e2,
        own specs a = Some s /\ process bib s e1 = Some (pg, e2)
        /\ In (a, pg) pages.
Proof.
  induction ks as [|k ks IH]; intros e pages e' H a Ha; [destruct Ha|].
  simpl in H. destruct (own specs k) as [s|] eqn:Es; [|discriminate].
  destruct (process bib s e) as [[pg e1]|] eqn:Ep; [|discriminate].
  destruct (process_all bib specs ks e1) as [[pages' e2]|] eqn:Er; [|discriminate].
  injection H as <- <-. destruct Ha as [->|Ha].
  - exists s, pg, e, e1. repeat split; auto. now left.
  - destruct (IH _ _ _ Er a Ha) as (s' & pg' & x1 & x2 & H1 & H2 & H3).
    exists s', pg', x1, x2. repeat split; auto. now right.
Qed.


Lemma process_total (bib : object value) (s : source) (e : list jsstring) :
  fits (doc_elements s) -> exists pg e', process bib s e = Some (pg, e').
Proof.
  intros Hfit. unfold process.
  set (e1 := match getElementById (doc_elements s) (lit "abstract") with
             | Some _ => e
             | None => e ++ [missing_abstract_error (doc_title s)]
             end).
  unfold resolve.
  destruct (@dfn_pass_shape (doc_elements s) [] Hfit) as (d1 & H1 & K1).
  simpl in H1. rewrite H1.
  assert (Hfit1 : fits ([] ++ d1)).
  { unfold fits in *. simpl. now rewrite <- (Forall2_length K1). }
  destruct (@link_pass_shape d1 [] e1 Hfit1) as (d2 & e2 & H2 & _).
  simpl in H2. rewrite H2.
  destruct (replace_markers (cite bib) 0 (main_innerHTML s d2) ([], e2))
    as [html [refs e3]].
  eauto.
Qed.



(** X29: for the documents that [build] stores in [specs], the keys of
    [specs] (every listed source but one whose short name is [__proto__]):
    when [build] gets to the second loop, the first loop has put the entry
    of every such document into the bibliography, and the second loop runs
    on that bibliography.  So, whatever the places [iA] and [iB] of two
    such documents in the processing order, a marker with the short name of
    the second in the markup of the first becomes the link, and the
    references of the first hold the entry synthesized for the second. *)
Theorem two_phase_closure (members : list (jsstring * jsstring))
    (people : registry) (clock : nat -> Z) (files : list (jsstring * source))
    (pages : list (jsstring * page)) (errs : list jsstring) :
  build members people clock files = Some (pages, errs) ->
  let specs := specs_of files in
  exists bib,
    synthesize people clock specs 0 (keys specs)
      (JSON_parse (map (fun m => (fst m, Str (snd m))) members)) = Some bib
    /\ process_all bib specs (keys specs) [] = Some (pages, errs)
    /\ (forall i k, nth_error (keys specs) i = Some k ->
          exists s r,
            own specs k = Some s
            /\ self_reference people (clock i) k s = Some r
            /\ get bib k = Some (Str (htmlifyReference r)))
    /\ forall iA iB A B,
         nth_error (keys specs) iA = Some A ->
         nth_error (keys specs) iB = Some B ->
         exists sA sB rB pgA,
           own specs A = Some sA /\ own specs B = Some sB
           /\ self_reference people (clock iB) B sB = Some rB
           /\ In (A, pgA) pages
           /\ forall els pre post,
                resolved (doc_elements sA) = Some els ->
                truthy B = true -> forallb is_key_char B = true ->
                main_innerHTML sA els = pre ++ marker B ++ post ->
                (exists o1 o2, main pgA = o1 ++ ref_link B ++ o2)
                /\ exists sec,
                     references pgA = Some sec
                     /\ In (RefEntry (lit "ref-" ++ B) (lit "[" ++ B ++ lit "]")
                              (Some (Str (htmlifyReference rB))))
                           (entries sec).
Proof.
  intros Hbuild specs. unfold build in Hbuild. fold specs in Hbuild.
  destruct (synthesize people clock specs 0 (keys specs)
              (JSON_parse (map (fun m => (fst m, Str (snd m))) members)))
    as [bib|] eqn:Hsyn; [|discriminate].
  exists bib. split; [reflexivity|]. split; [exact Hbuild|].
  destruct (specs_of_plain files) as [Hnd Hproto]. fold specs in Hnd, Hproto.
  assert (Hkp : ~ In proto_key (keys specs)).
  { intros Hin. apply Hproto. now apply keys_in. }
  pose proof (@synthesize_entry people clock specs (keys specs)
                (@keys_nodup _ specs Hnd) Hkp 0%nat _ _ Hsyn) as Hent.
  assert (Hall : forall i k, nth_error (keys specs) i = Some k ->
            exists s r, own specs k = Some s
              /\ self_reference people (clock i) k s = Some r
              /\ get bib k = Some (Str (htmlifyReference r))).
  { intros i k Hi. destruct (Hent i k Hi) as (s & r & H1 & H2 & H3).
    exists s, r. repeat split; auto. unfold get. now rewrite H3. }
  split; [exact Hall|].
  intros iA iB A B HA HB.
  destruct (Hall iB B HB) as (sB & rB & HsB & HrB & HgB).
  destruct (@process_all_inv bib specs (keys specs) [] pages errs Hbuild A
              (nth_error_In _ _ HA)) as (sA & pgA & e1 & e2 & HsA & Hp & Hin).
  exists sA, sB, rB, pgA. repeat split; auto.
  - destruct (@process_inv bib sA e1 e2 pgA Hp) as (els' & e3 & refs & Hres & Hrun & Href).
    rewrite H in Hres. injection Hres as <-. rewrite H2 in Hrun.
    destruct (@resolved_marker_cited bib [] e3 pre B post _ H0 H1 HgB
                (htmlifyReference_truthy rB))
      as (o1 & o2 & refs' & errs' & Hrun' & _).
    { intros ->. apply Hkp. eapply nth_error_In; eauto. }
    pose proof (f_equal fst (eq_trans (eq_sym Hrun) Hrun')) as E.
    cbn [fst] in E. exists o1, o2. exact E.
  - destruct (@process_inv bib sA e1 e2 pgA Hp) as (els' & e3 & refs & Hres & Hrun & Href).
    rewrite H in Hres. injection Hres as <-. rewrite H2 in Hrun.
    destruct (@resolved_marker_cited bib [] e3 pre B post _ H0 H1 HgB
                (htmlifyReference_truthy rB))
      as (o1 & o2 & refs' & errs' & Hrun' & Hown).
    { intros ->. apply Hkp. eapply nth_error_In; eauto. }
    pose proof (f_equal (fun x => fst (snd x)) (eq_trans (eq_sym Hrun) Hrun'))
      as E.
    cbn [fst snd] in E. subst refs'.
    destruct (@references_section_entry refs B _ Hown) as (sec & Hsec & _ & Hentry).
    exists sec. rewrite Href. auto.
Qed.

(** ** The entries of the first loop *)

(** C7: the entry that the first loop stores for a document is the fragment
    in which the author, the title, the date and the url each stand escaped
    once (every ampersand, less-than sign and double quote of the field as
    its entity, nothing else changed); and running the loop again over the
    store it has filled stores the same entries, so that no field gets
    escaped a second time. *)
Theorem fields_escaped_once (people : registry) (clock : nat -> Z)
    (files : list (jsstring * source)) (bib bib' : object value) :
  synthesize people clock (specs_of files) 0 (keys (specs_of files)) bib
  = Some bib' ->
  (forall i k, nth_error (keys (specs_of files)) i = Some k ->
     exists s r,
       own (specs_of files) k = Some s
       /\ self_reference people (clock i) k s = Some r
       /\ own bib' k = Some (Str (Spec.fragment r)))
  /\ synthesize people clock (specs_of files) 0 (keys (specs_of files)) bib'
     = Some bib'.
Proof.
  intros H. destruct (specs_of_plain files) as [Hnd Hproto].
  assert (Hkp : ~ In proto_key (keys (specs_of files))).
  { intros Hin. apply Hproto. now apply keys_in. }
  pose proof (@keys_nodup _ (specs_of files) Hnd) as Hknd.
  split.
  - intros i k Hi.
    destruct (@synthesize_entry people clock (specs_of files) _ Hknd Hkp
                0%nat bib bib' H i k Hi) as (s & r & H1 & H2 & H3).
    exists s, r. repeat split; auto.
    rewrite H3. unfold Spec.fragment. now rewrite htmlifyReference_escape_once.
  - eapply synthesize_again; eauto.
Qed.

(** C8, as the code has it: [today] is called once for every document, so
    the date of a document's entry is the date of the clock at that call; it
    has the shape YYYY-MM-DD when the year lies between 0 and 9999, and the
    entries written while the clock stays within one day carry the same
    date. *)
Theorem entry_dates (people : registry) (clock : nat -> Z)
    (files : list (jsstring * source)) (bib bib' : object value) :
  synthesize people clock (specs_of files) 0 (keys (specs_of files)) bib
  = Some bib' ->
  forall i k, nth_error (keys (specs_of files)) i = Some k ->
    exists s r,
      own (specs_of files) k = Some s
      /\ self_reference people (clock i) k s = Some r
      /\ own bib' k = Some (Str (htmlifyReference r))
      /\ date r = today (clock i)
      /\ ((0 <= YearFromTime (clock i) <= 9999)%Z ->
          is_YYYY_MM_DD (date r) = true)
      /\ forall j, (clock j / msPerDay = clock i / msPerDay)%Z ->
           today (clock j) = date r.
Proof.
  intros H i k Hi. destruct (specs_of_plain files) as [Hnd Hproto].
  assert (Hkp : ~ In proto_key (keys (specs_of files))).
  { intros Hin. apply Hproto. now apply keys_in. }
  pose proof (@keys_nodup _ (specs_of files) Hnd) as Hknd.
  destruct (@synthesize_entry people clock (specs_of files) _ Hknd Hkp
              0%nat bib bib' H i k Hi) as (s & r & H1 & H2 & H3).
  exists s, r. repeat split; auto.
  all: simpl in H2; unfold self_reference in H2;
    destruct (author_names people (doc_authors s)); [|discriminate];
    injection H2 as <-; simpl date.
  - reflexivity.
  - apply today_shape.
  - intros j Hj. now apply today_same_day.
Qed.

(** ** The properties at sample inputs *)

(** A corpus of two documents, the first citing the second, which is
    processed after it. *)
Lemma two_phase_closure_witness :
  build [] Sample.people Sample.noon Sample.a_cites_b
  = Some ([(lit "a",
            Page (lit "see " ++ ref_link (lit "b"))
              (Some (RefSection (lit "References")
                       [RefEntry (lit "ref-b") (lit "[b]")
                          (Some (Str (htmlifyReference
                                        (Sample.entry "b" "1970-01-01"))))])));
           (lit "b", Page (lit "text") None)], [])
  /\ exists pgA sec,
       In (lit "a", pgA)
          [(lit "a",
            Page (lit "see " ++ ref_link (lit "b"))
              (Some (RefSection (lit "References")
                       [RefEntry (lit "ref-b") (lit "[b]")
                          (Some (Str (htmlifyReference
                                        (Sample.entry "b" "1970-01-01"))))])));
           (lit "b", Page (lit "text") None)]
       /\ references pgA = Some sec
       /\ In (RefEntry (lit "ref-b") (lit "[b]")
                (Some (Str (htmlifyReference (Sample.entry "b" "1970-01-01")))))
             (entries sec).
Proof.
  assert (Hb : build [] Sample.people Sample.noon Sample.a_cites_b
               = Some ([(lit "a",
                         Page (lit "see " ++ ref_link (lit "b"))
                           (Some (RefSection (lit "References")
                              [RefEntry (lit "ref-b") (lit "[b]")
                                 (Some (Str (htmlifyReference
                                    (Sample.entry "b" "1970-01-01"))))])));
                        (lit "b", Page (lit "text") None)], []))
    by (vm_compute; reflexivity).
  split; [exact Hb|].
  destruct (two_phase_closure _ _ _ _ Hb) as (bib & _ & _ & _ & Hcite).
  destruct (Hcite 0%nat 1%nat (lit "a") (lit "b") eq_refl eq_refl)
    as (sA & sB & rB & pgA & HsA & HsB & HrB & Hin & Hmark).
  vm_compute in HsA, HsB. injection HsA as <-. injection HsB as <-.
  vm_compute in HrB. injection HrB as <-.
  destruct (Hmark [Sample.abstract] (lit "see ") [] eq_refl eq_refl eq_refl
              eq_refl) as (_ & sec & Hsec & Hentry).
  exists pgA, sec. repeat split; auto.
Defined.

(** C1 at a corpus one of whose sources is named [__proto__.src.html].  The
    document is listed, but storing it in [specs] reaches the inherited
    setter and leaves no key: the first loop synthesizes no entry for it
    and no page is written for it; a marker of its short name in the other
    document is linked to what the lookup finds, the prototype object, and
    no references section holds an entry for it. *)
Lemma proto_document_gets_no_entry :
  map fst Case.proto_corpus = [proto_key; lit "b"]
  /\ keys (specs_of Case.proto_corpus) = [lit "b"]
  /\ synthesize Sample.people Sample.noon (specs_of Case.proto_corpus) 0
       (keys (specs_of Case.proto_corpus)) []
     = Some [(lit "b", Str (htmlifyReference (Sample.entry "b" "1970-01-01")))]
  /\ build [] Sample.people Sample.noon Case.proto_corpus
     = Some ([(lit "b", Page (lit "see " ++ ref_link proto_key) None)], []).
Proof. repeat split. Qed.

(** Two definitions of the same text and nothing else. *)
Lemma colliding_definitions_witness :
  fits Sample.two_nodes
  /\ exists doc',
       dfn_pass [] Sample.two_nodes = Some doc'
       /\ map id doc' = [Some (lit "dfn-node"); Some (lit "dfn-node-1")].
Proof.
  split; [reflexivity|].
  destruct (@colliding_definitions Sample.two_nodes (lit "node") eq_refl)
    as (doc' & H & _ & Hrest).
  cbv zeta in Hrest. destruct Hrest as (_ & _ & Hseq & _).
  exists doc'. split; [exact H|].
  vm_compute in H. injection H as <-.
  apply Hseq. intros e e' k Hin Hc.
  unfold Sample.two_nodes in Hin. simpl in Hin.
  destruct Hin as [Hin|[Hin|[]]]; injection Hin as <- <-;
    vm_compute in Hc; discriminate.
Defined.

(** C2, as the specification words it, fails when another element carries
    the bare slug: the first-seen site then does not keep it. *)
Lemma first_site_loses_bare_slug :
  option_map (map id) (dfn_pass [] Sample.nodes_and_id)
  = Some [Some (lit "dfn-node-1"); Some (lit "dfn-node-2");
          Some (lit "dfn-node")]
  /\ option_map (map id) (dfn_pass [] Sample.nodes_and_id)
     <> Some [Some (lit "dfn-node"); Some (lit "dfn-node-1");
              Some (lit "dfn-node")].
Proof. split; [vm_compute; reflexivity | vm_compute; discriminate]. Qed.

(** A definition and a link to it, next to a definition with an id of its
    own. *)
Lemma derived_identifier_witness :
  id (Sample.dfn "Hash Chain") = None
  /\ slugify Sample.hash_chain (Sample.bare_link "hash chain") (lit "dfn") false
     = Some (lit "dfn-hash-chain")
  /\ slugify Sample.hash_chain (Sample.dfn "Hash Chain") (lit "dfn") true
     = Some (lit "dfn-hash-chain").
Proof.
  split; [reflexivity|]. split.
  - exact (proj1 (@derived_identifier Sample.hash_chain
                    (Sample.bare_link "hash chain") eq_refl)).
  - exact (proj2 (@derived_identifier Sample.hash_chain
                    (Sample.dfn "Hash Chain") eq_refl) eq_refl).
Defined.

(** C3, as the specification words it, fails on a text without any word
    character: the slug is empty and the code gives the bare token, without
    the hyphen. *)
Lemma empty_slug_without_hyphen :
  slugify [Sample.dfn "?"] (Sample.dfn "?") (lit "dfn") true = Some (lit "dfn")
  /\ Spec.derived_id (textContent (Sample.dfn "?")) = lit "dfn-"
  /\ slugify [Sample.dfn "?"] (Sample.dfn "?") (lit "dfn") true
     <> Some (Spec.derived_id (textContent (Sample.dfn "?"))).
Proof.
  split; [vm_compute; reflexivity|].
  split; [vm_compute; reflexivity | vm_compute; discriminate].
Qed.

(** C4 at the marker of an inherited name: with an empty bibliography the
    name constructor is found on the prototype of the bibliography object;
    the marker becomes a link, no error is recorded, and the references
    list an entry for it. *)
Lemma inherited_name_is_cited :
  build [] Sample.people Sample.noon
    [(lit "a", Sample.spec_with "[[constructor]]")]
  = Some ([(lit "a",
            Page (ref_link (lit "constructor"))
              (Some (RefSection (lit "References")
                       [RefEntry (lit "ref-constructor") (lit "[constructor]")
                          (Some (Native (lit "constructor")))])))],
          []).
Proof. vm_compute. reflexivity. Qed.

(** The same bibliography and a key that no object inherits: the marker
    stays and the error is recorded. *)
Lemma absent_key_is_reported :
  build [] Sample.people Sample.noon
    [(lit "a", Sample.spec_with "[[rfc9999]]")]
  = Some ([(lit "a", Page (lit "[[rfc9999]]") None)],
          [no_entry_error (lit "rfc9999")]).
Proof. vm_compute. reflexivity. Qed.

(** C5 at the markers of inherited names, with an empty bibliography.  The
    marker of toString is resolved and the references list an entry for it,
    whose definition is no stored fragment but the inherited function.  The
    marker of the prototype accessor is resolved into a link, but the
    assignment to [refs] creates no property, and no references section is
    appended. *)
Lemma references_of_inherited_names :
  build [] Sample.people Sample.noon
    [(lit "a", Sample.spec_with "[[toString]]")]
  = Some ([(lit "a",
            Page (ref_link (lit "toString"))
              (Some (RefSection (lit "References")
                       [RefEntry (lit "ref-toString") (lit "[toString]")
                          (Some (Native (lit "toString")))])))],
          [])
  /\ build [] Sample.people Sample.noon
       [(lit "a", Sample.spec_with "[[__proto__]]")]
     = Some ([(lit "a", Page (ref_link (lit "__proto__")) None)], []).
Proof. split; vm_compute; reflexivity. Qed.

(** With entries of the bibliography itself the section is as expected: the
    keys in code unit order, each with its fragment. *)
Lemma references_of_own_keys :
  build [(lit "rfc2", lit "Two"); (lit "rfc10", lit "Ten")]
    Sample.people Sample.noon
    [(lit "a", Sample.spec_with "[[rfc2]] and [[rfc10]], [[rfc2]] again")]
  = Some ([(lit "a",
            Page (ref_link (lit "rfc2") ++ lit " and " ++ ref_link (lit "rfc10")
                  ++ lit ", " ++ ref_link (lit "rfc2") ++ lit " again")
              (Some (RefSection (lit "References")
                       [RefEntry (lit "ref-rfc10") (lit "[rfc10]")
                          (Some (Str (lit "Ten")));
                        RefEntry (lit "ref-rfc2") (lit "[rfc2]")
                          (Some (Str (lit "Two")))])))],
          []).
Proof. vm_compute. reflexivity. Qed.

(** The entries of two documents, synthesized once and once more. *)
Lemma fields_escaped_once_witness :
  synthesize Sample.people Sample.noon (specs_of Sample.a_cites_b) 0
    (keys (specs_of Sample.a_cites_b)) []
  = Some [(lit "a", Str (htmlifyReference (Sample.entry "a" "1970-01-01")));
          (lit "b", Str (htmlifyReference (Sample.entry "b" "1970-01-01")))]
  /\ synthesize Sample.people Sample.noon (specs_of Sample.a_cites_b) 0
       (keys (specs_of Sample.a_cites_b))
       [(lit "a", Str (htmlifyReference (Sample.entry "a" "1970-01-01")));
        (lit "b", Str (htmlifyReference (Sample.entry "b" "1970-01-01")))]
     = Some [(lit "a", Str (htmlifyReference (Sample.entry "a" "1970-01-01")));
             (lit "b", Str (htmlifyReference (Sample.entry "b" "1970-01-01")))].
Proof.
  assert (H : synthesize Sample.people Sample.noon (specs_of Sample.a_cites_b) 0
                (keys (specs_of Sample.a_cites_b)) []
              = Some [(lit "a",
                       Str (htmlifyReference (Sample.entry "a" "1970-01-01")));
                      (lit "b",
                       Str (htmlifyReference (Sample.entry "b" "1970-01-01")))])
    by (vm_compute; reflexivity).
  split; [exact H|].
  exact (proj2 (@fields_escaped_once _ _ _ _ _ H)).
Defined.

(** The entry of the second document, written after midnight. *)
Lemma entry_dates_witness :
  synthesize Sample.people Sample.midnight (specs_of Sample.a_cites_b) 0
    (keys (specs_of Sample.a_cites_b)) []
  = Some [(lit "a", Str (htmlifyReference (Sample.entry "a" "1970-01-01")));
          (lit "b", Str (htmlifyReference (Sample.entry "b" "1970-01-02")))]
  /\ exists s r,
       own (specs_of Sample.a_cites_b) (lit "b") = Some s
       /\ self_reference Sample.people (Sample.midnight 1) (lit "b") s = Some r
       /\ date r = today 86400000
       /\ is_YYYY_MM_DD (date r) = true.
Proof.
  assert (H : synthesize Sample.people Sample.midnight
                (specs_of Sample.a_cites_b) 0
                (keys (specs_of Sample.a_cites_b)) []
              = Some [(lit "a",
                       Str (htmlifyReference (Sample.entry "a" "1970-01-01")));
                      (lit "b",
                       Str (htmlifyReference (Sample.entry "b" "1970-01-02")))])
    by (vm_compute; reflexivity).
  split; [exact H|].
  destruct (@entry_dates _ _ _ _ _ H 1%nat (lit "b") eq_refl)
    as (s & r & H1 & H2 & _ & H4 & H5 & _).
  exists s, r. repeat split; auto.
  apply H5. vm_compute. split; discriminate.
Defined.

(** C8, as the specification words it, fails when midnight passes between
    two calls of [today]: two documents of one run carry different dates. *)
Lemma dates_differ_over_midnight :
  synthesize Sample.people Sample.midnight (specs_of Sample.a_cites_b) 0
    (keys (specs_of Sample.a_cites_b)) []
  = Some [(lit "a", Str (htmlifyReference (Sample.entry "a" "1970-01-01")));
          (lit "b", Str (htmlifyReference (Sample.entry "b" "1970-01-02")))]
  /\ date (Sample.entry "a" "1970-01-01") <> date (Sample.entry "b" "1970-01-02").
Proof. split; [vm_compute; reflexivity | vm_compute; discriminate]. Qed.

(** A document with one explicit id. *)
Lemma explicit_ids_kept_witness :
  fits Sample.hash_chain
  /\ exists doc' errs',
       resolve Sample.hash_chain [] = Some (doc', errs')
       /\ Forall2
            (fun e e' =>
               forall i, id e = Some i ->
                 id e' = Some i
                 /\ forall d pfx unique, slugify d e pfx unique = Some i)
            Sample.hash_chain doc'.
Proof.
  split; [reflexivity|].
  exact (@explicit_ids_kept Sample.hash_chain [] eq_refl).
Defined.

(** A definition whose raw identifier is taken by another element. *)
Lemma slugify_terminates_witness :
  fits Sample.nodes_and_id
  /\ exists i,
       slugify Sample.nodes_and_id (Sample.dfn "Node") (lit "dfn") true = Some i
       /\ (forall fuel, (S (length Sample.nodes_and_id) <= fuel)%nat ->
             slugify_fuel fuel Sample.nodes_and_id (Sample.dfn "Node")
               (lit "dfn") true = Some i)
       /\ (id (Sample.dfn "Node") = None -> true = true ->
           getElementById Sample.nodes_and_id i = None
           /\ exists m,
                (m <= length Sample.nodes_and_id)%nat
                /\ i = candidate (lit "dfn")
                         (slug_text (textContent (Sample.dfn "Node"))) m
                /\ forall j, (j < m)%nat ->
                     getElementById Sample.nodes_and_id
                       (candidate (lit "dfn")
                          (slug_text (textContent (Sample.dfn "Node"))) j)
                     <> None).
Proof.
  split; [reflexivity|].
  exact (proj2 (@slugify_terminates Sample.nodes_and_id (Sample.dfn "Node")
                  (lit "dfn") true eq_refl)).
Defined.

(** The same search at the sample: the raw identifier is carried, the
    first suffix is free. *)
Lemma slugify_reaches_unused :
  slugify Sample.nodes_and_id (Sample.dfn "Node") (lit "dfn") true
  = Some (lit "dfn-node-1")
  /\ getElementById Sample.nodes_and_id (lit "dfn-node") <> None
  /\ getElementById Sample.nodes_and_id (lit "dfn-node-1") = None.
Proof. repeat split. discriminate. Qed.

(* ================================================================= *)
(** ** Further properties of the helper functions *)

Lemma drop_while_head (p : char -> bool) (s r : jsstring) (c : char) :
  drop_while p s = c :: r -> p c = false.
Proof.
  induction s as [|d s IH]; simpl; [discriminate|].
  destruct (p d) eqn:E; [exact IH|].
  intros H. injection H as -> _. exact E.
Qed.

Lemma drop_end_last (p : char -> bool) (s : jsstring) :
  forall r c, drop_end p s = r ++ [c] -> p c = false.
Proof.
  induction s as [|d s IH]; intros r c; simpl.
  - destruct r; discriminate.
  - destruct (drop_end p s) as [|x t] eqn:E.
    + destruct (p d) eqn:Ed.
      * destruct r; discriminate.
      * destruct r as [|y r]; simpl; intros H.
        -- injection H as ->. exact Ed.
        -- destruct r; discriminate.
    + destruct r as [|y r]; simpl; intros H; [discriminate|].
      injection H as _ H. eapply IH; exact H.
Qed.

Lemma drop_end_first (p : char -> bool) (s r : jsstring) (c : char) :
  drop_end p s = c :: r -> exists r', s = c :: r'.
Proof.
  intros H. destruct (drop_end_split p s) as [w [Hs _]].
  rewrite H in Hs. exists (r ++ w). exact Hs.
Qed.

Lemma drop_end_twice (p : char -> bool) (s : jsstring) :
  drop_end p (drop_end p s) = drop_end p s.
Proof.
  induction s as [|d s IH]; simpl; [reflexivity|].
  destruct (drop_end p s) as [|x t] eqn:E.
  - destruct (p d) eqn:Ed; simpl; [reflexivity|]. rewrite Ed. reflexivity.
  - change (drop_end p (d :: x :: t))
      with (match drop_end p (x :: t) with
            | [] => if p d then [] else [d]
            | u => d :: u
            end).
    rewrite IH. reflexivity.
Qed.

Lemma in_drop_while (p : char -> bool) (s : jsstring) (c : char) :
  In c (drop_while p s) -> In c s.
Proof.
  induction s as [|d s IH]; simpl; [tauto|].
  destruct (p d); simpl; tauto.
Qed.

Lemma in_drop_end (p : char -> bool) (s : jsstring) (c : char) :
  In c (drop_end p s) -> In c s.
Proof.
  intros H. destruct (drop_end_split p s) as [w [Hs _]].
  rewrite Hs. apply in_or_app. left. exact H.
Qed.

Lemma spaces_to_space_fixed (s : jsstring) :
  Forall (fun c => is_space c = true -> c = 32) s -> spaces_to_space s = s.
Proof.
  induction 1 as [|c s Hc _ IH]; simpl; [reflexivity|].
  rewrite IH. destruct (is_space c) eqn:E; [rewrite (Hc eq_refl)|]; reflexivity.
Qed.

Lemma norm_plain_spaces (s : jsstring) :
  Forall (fun c => is_space c = true -> c = 32) (norm s).
Proof.
  rewrite norm_spaces. apply Forall_forall. intros c Hc.
  apply in_drop_end, in_drop_while in Hc.
  unfold spaces_to_space in Hc. apply in_map_iff in Hc.
  destruct Hc as [d [Hd _]]. intros Hs.
  destruct (is_space d) eqn:E; [symmetry; exact Hd|].
  subst c. congruence.
Qed.

(** X1: [norm] yields a normal form: applying it again changes nothing,
    the only white space left in its result is the plain space, its result
    neither starts nor ends with white space, and it is empty exactly for a
    text of white space only. *)
Theorem norm_normal_form (s : jsstring) :
  norm (norm s) = norm s
  /\ Forall (fun c => is_space c = true -> c = 32) (norm s)
  /\ (forall c r, norm s = c :: r -> is_space c = false)
  /\ (forall r c, norm s = r ++ [c] -> is_space c = false)
  /\ (norm s = [] <-> forallb is_space s = true).
Proof.
  assert (Hhead : forall c r, norm s = c :: r -> is_space c = false).
  { intros c r H. rewrite norm_spaces in H. unfold trim in H.
    destruct (@drop_end_first _ _ _ _ H) as [r' Hr'].
    eapply drop_while_head; exact Hr'. }
  assert (Hlast : forall r c, norm s = r ++ [c] -> is_space c = false).
  { intros r c H. rewrite norm_spaces in H. unfold trim in H.
    eapply drop_end_last; exact H. }
  split; [|split; [apply norm_plain_spaces|split; [exact Hhead|split; [exact Hlast|]]]].
  - rewrite (norm_spaces (norm s)).
    rewrite (spaces_to_space_fixed (norm_plain_spaces s)).
    unfold trim.
    assert (Hd : drop_while is_space (norm s) = norm s).
    { destruct (norm s) as [|c r] eqn:E; [reflexivity|].
      simpl. rewrite (Hhead c r eq_refl). reflexivity. }
    rewrite Hd. rewrite norm_spaces. unfold trim. apply drop_end_twice.
  - rewrite norm_spaces, trim_nil. rewrite forallb_spaces_to_space. tauto.
Qed.

Lemma lower_char_small (c : char) :
  Forall (fun d => in_range 65 90 d = false) (lower_char c).
Proof.
  unfold lower_char.
  destruct (in_range 65 90 c) eqn:E.
  - constructor; [|constructor]. unfold in_range in *. reflect_N. lia.
  - destruct (N.eqb c 304); [repeat constructor|].
    destruct (N.eqb c 8490); [repeat constructor|].
    constructor; [exact E|constructor].
Qed.

Lemma hyphenate_chars (s : jsstring) :
  Forall (fun c => is_slug_char c = true) (hyphenate s).
Proof.
  unfold hyphenate, replace_nonword, toLowerCase.
  apply Forall_forall. intros c Hc.
  apply in_map_iff in Hc. destruct Hc as [d [Hd Hin]].
  apply in_flat_map in Hin. destruct Hin as [b [_ Hb]].
  pose proof (lower_char_small b) as Hs.
  rewrite Forall_forall in Hs. specialize (Hs d Hb).
  subst c. destruct (is_word d) eqn:Ew; [|reflexivity].
  unfold is_slug_char. unfold is_word in Ew.
  rewrite Hs in Ew. simpl in Ew.
  destruct (in_range 48 57 d), (N.eqb d 95), (in_range 97 122 d);
    simpl in *; try reflexivity; discriminate.
Qed.

Lemma in_collapse_from (y : jsstring) (c : char) :
  forall p, In c (collapse_from p y) -> In c y.
Proof.
  induction y as [|d y IH]; intros p; simpl; [tauto|].
  destruct (is_hyphen d); [destruct p|]; simpl; intros H;
    repeat match goal with
           | H : _ \/ _ |- _ => destruct H as [H|H]
           end; eauto.
Qed.

Lemma adjacent_collapse (y : jsstring) :
  forall p, adjacent_hyphens (collapse_from p y) = false.
Proof.
  induction y as [|d y IH]; intros p; simpl; [reflexivity|].
  destruct (is_hyphen d) eqn:Ed.
  - destruct p; [apply IH|].
    simpl. rewrite IH, Ed. simpl.
    destruct (collapse_from true y) as [|x t] eqn:E; [reflexivity|].
    simpl. rewrite (@collapse_true_head _ _ _ E). reflexivity.
  - simpl. rewrite IH, Ed. reflexivity.
Qed.

Lemma adjacent_prefix (x w : jsstring) :
  adjacent_hyphens (x ++ w) = false -> adjacent_hyphens x = false.
Proof.
  induction x as [|c x IH]; simpl; [reflexivity|].
  intros H. apply orb_false_iff in H. destruct H as [H1 H2].
  rewrite (IH H2), orb_false_r.
  destruct x as [|d x]; simpl in *; [apply andb_false_r|exact H1].
Qed.

Lemma ends_hyphen_drop_end (z : jsstring) :
  forall q, drop_end is_hyphen z <> [] ->
    ends_hyphen q (drop_end is_hyphen z) = false.
Proof.
  induction z as [|d z IH]; intros q; simpl; [congruence|].
  destruct (drop_end is_hyphen z) as [|x t] eqn:E.
  - destruct (is_hyphen d) eqn:Ed; [congruence|]. intros _. simpl. exact Ed.
  - intros _. change (ends_hyphen (is_hyphen d) (x :: t) = false).
    apply IH. discriminate.
Qed.

Lemma slug_text_collapsed (text : jsstring) :
  slug_text text
  = drop_end is_hyphen
      (collapse_from true
         (hyphenate (or_else (norm text) (lit "empty")))).
Proof.
  unfold slug_text. rewrite strip_hyphens_collapse.
  symmetry. apply drop_end_collapse.
Qed.

(** X2: The slug derived from a text is made of small letters, digits,
    underscores and hyphens only; it neither starts nor ends with a hyphen
    and holds no two hyphens side by side. *)
Theorem slug_text_shape (text : jsstring) :
  Forall (fun c => is_slug_char c = true) (slug_text text)
  /\ starts_hyphen (slug_text text) = false
  /\ ends_hyphen false (slug_text text) = false
  /\ adjacent_hyphens (slug_text text) = false.
Proof.
  rewrite slug_text_collapsed.
  set (y := hyphenate (or_else (norm text) (lit "empty"))).
  split; [|split; [|split]].
  - apply Forall_forall. intros c Hc.
    apply in_drop_end, in_collapse_from in Hc.
    pose proof (hyphenate_chars (or_else (norm text) (lit "empty"))) as H.
    rewrite Forall_forall in H. exact (H c Hc).
  - destruct (drop_end is_hyphen (collapse_from true y)) as [|c r] eqn:E;
      [reflexivity|].
    destruct (@drop_end_first _ _ _ _ E) as [r' Hr'].
    simpl. eapply collapse_true_head; exact Hr'.
  - destruct (drop_end is_hyphen (collapse_from true y)) as [|c r] eqn:E;
      [reflexivity|].
    rewrite <- E. apply ends_hyphen_drop_end. rewrite E. discriminate.
  - destruct (drop_end_split is_hyphen (collapse_from true y)) as [w [Hw _]].
    apply adjacent_prefix with (w := w). rewrite <- Hw.
    apply adjacent_collapse.
Qed.

Lemma norm_of_spaces (text : jsstring) :
  forallb is_space text = true -> norm text = [].
Proof.
  intros H. rewrite norm_spaces. apply trim_nil.
  rewrite forallb_spaces_to_space. exact H.
Qed.

(** X3: An element without an id whose text is empty or white space only
    is given the placeholder: its raw identifier is [dfn-empty], and that is
    the identifier a definition receives when no element carries it yet. *)
Theorem blank_text_placeholder (doc : document) (el : element) :
  id el = None -> forallb is_space (textContent el) = true ->
  slugify doc el (lit "dfn") false = Some (lit "dfn-empty")
  /\ (getElementById doc (lit "dfn-empty") = None ->
      slugify doc el (lit "dfn") true = Some (lit "dfn-empty")).
Proof.
  intros Hid Hblank.
  assert (Hslug : idify (lit "dfn") (slug_text (textContent el)) None
                  = lit "dfn-empty").
  { unfold slug_text. rewrite (norm_of_spaces _ Hblank). reflexivity. }
  unfold slugify, slugify_fuel. rewrite Hid. cbv zeta. rewrite Hslug.
  split; [reflexivity|].
  intros Hfree. simpl. rewrite Hfree. reflexivity.
Qed.

Lemma blank_text_placeholder_witness :
  (id (Sample.dfn "  ") = None
   /\ forallb is_space (textContent (Sample.dfn "  ")) = true)
  /\ slugify [Sample.dfn "  "] (Sample.dfn "  ") (lit "dfn") true
     = Some (lit "dfn-empty").
Proof.
  split; [split; reflexivity|].
  exact (proj2 (@blank_text_placeholder [Sample.dfn "  "] (Sample.dfn "  ")
                  eq_refl eq_refl) eq_refl).
Defined.

Lemma toLowerCase_nil (s : jsstring) : toLowerCase s = [] -> s = [].
Proof.
  destruct s as [|c s]; [reflexivity|].
  unfold toLowerCase. simpl. unfold lower_char.
  destruct (in_range 65 90 c); [discriminate|].
  destruct (N.eqb c 304); [discriminate|].
  destruct (N.eqb c 8490); discriminate.
Qed.

(** X4: Two texts that differ only in the layout of their white space and
    in letter case derive the same slug, so that a link written
    [hash chain] finds the definition of [Hash Chain]. *)
Theorem same_text_same_slug (a b : jsstring) :
  toLowerCase (Spec.normalize_whitespace a)
  = toLowerCase (Spec.normalize_whitespace b) ->
  slug_text a = slug_text b.
Proof.
  intros H. rewrite !slug_text_spec. unfold Spec.slug.
  destruct (Spec.normalize_whitespace a) as [|c r] eqn:Ea.
  - symmetry in H. apply toLowerCase_nil in H. rewrite H. reflexivity.
  - destruct (Spec.normalize_whitespace b) as [|d t] eqn:Eb.
    + apply toLowerCase_nil in H. discriminate.
    + unfold or_else. simpl truthy. cbv iota. rewrite H. reflexivity.
Qed.

Lemma same_text_same_slug_witness :
  toLowerCase (Spec.normalize_whitespace (lit " Hash   Chain"))
  = toLowerCase (Spec.normalize_whitespace (lit "hash chain"))
  /\ slug_text (lit " Hash   Chain") = slug_text (lit "hash chain").
Proof.
  split; [reflexivity|].
  apply (@same_text_same_slug (lit " Hash   Chain") (lit "hash chain")).
  reflexivity.
Defined.

Lemma escape_char_cases (c : char) :
  (c = 38 /\ Spec.escape_char c = [38; 97; 109; 112; 59])
  \/ (c = 60 /\ Spec.escape_char c = [38; 108; 116; 59])
  \/ (c = 34 /\ Spec.escape_char c = [38; 113; 117; 111; 116; 59])
  \/ (c <> 38 /\ c <> 60 /\ c <> 34 /\ Spec.escape_char c = [c]).
Proof.
  unfold Spec.escape_char.
  destruct (N.eqb_spec c 38) as [->|H1]; [left; split; reflexivity|].
  destruct (N.eqb_spec c 60) as [->|H2]; [right; left; split; reflexivity|].
  destruct (N.eqb_spec c 34) as [->|H3];
    [right; right; left; split; reflexivity|].
  right; right; right. repeat split; assumption.
Qed.

Lemma escape_once_inj (s : jsstring) :
  forall t, Spec.escape_once s = Spec.escape_once t -> s = t.
Proof.
  unfold Spec.escape_once.
  induction s as [|c s IH]; intros [|d t]; simpl; intros H.
  - reflexivity.
  - destruct (escape_char_cases d) as [[_ E]|[[_ E]|[[_ E]|[_ [_ [_ E]]]]]];
      rewrite E in H; discriminate.
  - destruct (escape_char_cases c) as [[_ E]|[[_ E]|[[_ E]|[_ [_ [_ E]]]]]];
      rewrite E in H; discriminate.
  - destruct (escape_char_cases c) as [[Hc E]|[[Hc E]|[[Hc E]|[H1 [H2 [H3 E]]]]]];
      destruct (escape_char_cases d)
        as [[Hd E']|[[Hd E']|[[Hd E']|[H1' [H2' [H3' E']]]]]];
      rewrite E, E' in H; simpl in H;
      try discriminate;
      try (injection H as H; subst; congruence);
      try (injection H as H; subst; f_equal; apply IH; assumption).
Qed.

(** X5: An escaped field holds no less-than sign and no double quote, and
    escaping loses nothing: different fields have different escaped
    forms. *)
Theorem esc_safe (s : jsstring) :
  ~ In 60 (esc s) /\ ~ In 34 (esc s)
  /\ forall t, esc s = esc t -> s = t.
Proof.
  rewrite esc_escape_once.
  assert (H : forall c, c = 60 \/ c = 34 -> ~ In c (Spec.escape_once s)).
  { intros c Hc. unfold Spec.escape_once.
    induction s as [|d s IH]; simpl; [tauto|].
    intros Hin. apply in_app_or in Hin. destruct Hin as [Hin|Hin]; [|tauto].
    destruct (escape_char_cases d) as [[_ E]|[[_ E]|[[_ E]|[_ [H2 [H3 E]]]]]];
      rewrite E in Hin; simpl in Hin;
      repeat match goal with
             | H : _ \/ _ |- _ => destruct H as [H|H]
             end; subst; try discriminate; try tauto. }
  split; [apply H; tauto|]. split; [apply H; tauto|].
  intros t Ht. rewrite esc_escape_once in Ht. exact (escape_once_inj _ _ Ht).
Qed.

(* ================================================================= *)
(** ** Further properties of the definition and link loops *)

Lemma ids_app (a b : document) : ids (a ++ b) = ids a ++ ids b.
Proof. unfold ids. apply flat_map_app. Qed.

Lemma set_id_same (e : element) (i : jsstring) :
  id e = Some i -> set_id i e = e.
Proof. destruct e as [t j x h c]; simpl; intros ->; reflexivity. Qed.

Lemma fits_step (visited rest : document) (e e1 : element) :
  fits (visited ++ e :: rest) -> fits ((visited ++ [e1]) ++ rest).
Proof.
  unfold fits. rewrite <- app_assoc. simpl.
  rewrite !length_app. simpl. tauto.
Qed.

Lemma dfn_pass_unique (todo : document) :
  forall visited,
    fits (visited ++ todo) -> NoDup (ids (visited ++ todo)) ->
    Forall (fun e => is_dfn e = true -> exists i, id e = Some i) visited ->
    exists doc',
      dfn_pass visited todo = Some doc'
      /\ NoDup (ids doc')
      /\ Forall (fun e => is_dfn e = true -> exists i, id e = Some i) doc'.
Proof.
  induction todo as [|e rest IH]; intros visited Hfits Hnd Hv.
  - exists visited. rewrite app_nil_r in Hnd. simpl. auto.
  - simpl. destruct (is_dfn e) eqn:Ed.
    + destruct (@slugify_total _ e (lit "dfn") true Hfits) as [i Hi].
      rewrite Hi.
      apply IH.
      * eapply fits_step; exact Hfits.
      * destruct (id e) as [j|] eqn:Ej.
        -- assert (i = j).
           { unfold slugify in Hi.
             rewrite (@slugify_explicit _ _ _ _ true _ Ej) in Hi. congruence. }
           subst i. rewrite (@set_id_same _ _ Ej).
           rewrite <- app_assoc. exact Hnd.
        -- destruct (@slugify_fresh _ _ _ Ej Hi) as [_ Hfresh].
           rewrite <- app_assoc. simpl.
           rewrite ids_app in *. simpl in *. rewrite Ej in Hnd. simpl in Hnd.
           apply (NoDup_Add (Add_app i (ids visited) (ids rest))).
           split; [exact Hnd|].
           rewrite <- ids_app. intros Hin. apply ids_in in Hin.
           destruct Hin as [x [Hx Hidx]].
           apply (Hfresh x); [|exact Hidx].
           apply in_app_or in Hx. apply in_or_app.
           destruct Hx as [Hx|Hx]; [left|right; right]; exact Hx.
      * apply Forall_app. split; [exact Hv|].
        constructor; [|constructor]. intros _. exists i. reflexivity.
    + apply IH.
      * eapply fits_step; exact Hfits.
      * rewrite <- app_assoc. exact Hnd.
      * apply Forall_app. split; [exact Hv|].
        constructor; [|constructor]. intros H. congruence.
Qed.

(** X6: In a document whose explicit ids are pairwise different, the ids
    are still pairwise different once the loop over the definitions has
    run, and every definition carries one. *)
Theorem definitions_identified (doc : document) :
  fits doc -> NoDup (ids doc) ->
  exists doc',
    dfn_pass [] doc = Some doc'
    /\ NoDup (ids doc')
    /\ Forall (fun e => is_dfn e = true -> exists i, id e = Some i) doc'.
Proof.
  intros Hfits Hnd. apply dfn_pass_unique; [exact Hfits|exact Hnd|constructor].
Qed.

Lemma definitions_identified_witness :
  (fits Sample.nodes_and_id /\ NoDup (ids Sample.nodes_and_id))
  /\ exists doc',
       dfn_pass [] Sample.nodes_and_id = Some doc'
       /\ NoDup (ids doc')
       /\ Forall (fun e => is_dfn e = true -> exists i, id e = Some i) doc'.
Proof.
  assert (H : fits Sample.nodes_and_id /\ NoDup (ids Sample.nodes_and_id)).
  { split; [reflexivity|].
    constructor; [simpl; tauto|constructor]. }
  split; [exact H|].
  exact (@definitions_identified Sample.nodes_and_id (proj1 H) (proj2 H)).
Defined.

Lemma carried_ids (d1 : document) (i : jsstring) :
  forall d2, map id d1 = map id d2 -> carried d1 i = carried d2 i.
Proof.
  unfold carried, getElementById. destruct (truthy i); [|reflexivity].
  induction d1 as [|x d1 IH]; intros [|y d2] H; try discriminate;
    [reflexivity|].
  simpl in H. injection H as Hxy H. simpl. unfold has_id at 1 3.
  rewrite Hxy. destruct (id y) as [j|]; [destruct (Js.eqb j i)|];
    try reflexivity; apply IH; exact H.
Qed.

Lemma slugify_raw (doc : document) (e : element) :
  slugify doc e (lit "dfn") false = Some (raw_id e).
Proof.
  unfold slugify, slugify_fuel, raw_id. destruct (id e); reflexivity.
Qed.

Lemma link_pass_map (doc : document) (todo : document) :
  forall visited errs,
    map id doc = map id (visited ++ todo) ->
    link_pass visited todo errs
    = Some (visited ++ map (link_of doc) todo,
            errs ++ flat_map (link_errors doc) todo).
Proof.
  induction todo as [|e rest IH]; intros visited errs Hids; simpl.
  - rewrite !app_nil_r. reflexivity.
  - unfold link_of at 1, link_errors at 1.
    assert (Hc : carried (visited ++ e :: rest) (raw_id e)
                 = carried doc (raw_id e)).
    { symmetry. apply carried_ids. exact Hids. }
    destruct (is_bare_link e) eqn:Eb; simpl.
    + rewrite slugify_raw. unfold carried in Hc at 1.
      destruct (getElementById (visited ++ e :: rest) (raw_id e)) eqn:Eg;
        rewrite <- Hc; simpl.
      * rewrite IH.
        -- rewrite <- app_assoc. reflexivity.
        -- rewrite Hids, <- app_assoc, !map_app. reflexivity.
      * rewrite IH.
        -- rewrite <- !app_assoc. reflexivity.
        -- rewrite Hids, <- app_assoc. reflexivity.
    + rewrite IH.
      * rewrite <- app_assoc. reflexivity.
      * rewrite Hids, <- app_assoc. reflexivity.
Qed.

Lemma link_of_id (doc : document) (e : element) : id (link_of doc e) = id e.
Proof.
  unfold link_of. destruct (is_bare_link e && carried doc (raw_id e));
    reflexivity.
Qed.

Lemma carried_in (doc : document) (i : jsstring) :
  carried doc i = true <-> i <> [] /\ exists x, In x doc /\ id x = Some i.
Proof.
  unfold carried, getElementById. split.
  - destruct i as [|c i]; simpl; [discriminate|].
    destruct (find (has_id (c :: i)) doc) as [x|] eqn:E; [|discriminate].
    intros _. split; [discriminate|].
    apply find_some in E. destruct E as [Hin Hid]. exists x. split; [exact Hin|].
    unfold has_id in Hid. destruct (id x) as [j|]; [|discriminate].
    apply eqb_eq in Hid. congruence.
  - intros [Hne [x [Hin Hid]]].
    pose proof (@getElementById_some doc i x Hne Hin Hid) as H.
    unfold getElementById in H.
    destruct (if truthy i then find (has_id i) doc else None); congruence.
Qed.

(** X7: The loop over the links treats every link on its own, against the
    ids as the definitions loop left them: a link without [href] whose
    identifier some element carries receives the fragment and the class
    [dfn-ref], any other one is left as it is and reported once, in
    document order and after the lines reported before; no other element
    is touched. *)
Theorem links_resolved (doc : document) (errs : list jsstring) :
  link_pass [] doc errs
  = Some (map (link_of doc) doc, errs ++ flat_map (link_errors doc) doc).
Proof. exact (@link_pass_map doc doc [] errs eq_refl). Qed.

(** X8: No link is left dangling without notice: every link without
    [href] either receives a fragment whose identifier an element of the
    finished document carries, or is reported. *)
Theorem links_have_targets (doc doc' : document) (errs errs' : list jsstring)
    (a : element) :
  link_pass [] doc errs = Some (doc', errs') ->
  In a doc -> is_bare_link a = true ->
  (In (set_dfn_ref (raw_id a) a) doc'
   /\ exists target, In target doc' /\ id target = Some (raw_id a))
  \/ (In a doc'
      /\ In (empty_link_error (textContent a) (raw_id a)) errs'
      /\ carried doc' (raw_id a) = false).
Proof.
  intros H Hin Hb.
  rewrite (@link_pass_map doc doc [] errs eq_refl) in H.
  injection H as <- <-.
  assert (Hids : map id doc = map id (map (link_of doc) doc)).
  { rewrite map_map. apply map_ext. intros e. symmetry. apply link_of_id. }
  pose proof (in_map (link_of doc) _ _ Hin) as Hin'.
  unfold link_of at 1 in Hin'. rewrite Hb in Hin'. simpl in Hin'.
  destruct (carried doc (raw_id a)) eqn:Ec.
  - left. split; [exact Hin'|].
    rewrite (@carried_ids _ _ _ Hids) in Ec. apply carried_in in Ec.
    destruct Ec as [_ [x Hx]]. exists x. exact Hx.
  - right. split; [exact Hin'|]. split.
    + apply in_or_app. right. apply in_flat_map. exists a.
      split; [exact Hin|]. unfold link_errors. rewrite Hb, Ec. simpl. tauto.
    + rewrite <- (@carried_ids _ _ _ Hids). exact Ec.
Qed.

Lemma links_have_targets_witness :
  (link_pass [] [Sample.with_id "dfn" "dfn-node"; Sample.bare_link "Node"] []
   = Some ([Sample.with_id "dfn" "dfn-node";
            set_dfn_ref (lit "dfn-node") (Sample.bare_link "Node")], [])
   /\ In (Sample.bare_link "Node")
        [Sample.with_id "dfn" "dfn-node"; Sample.bare_link "Node"]
   /\ is_bare_link (Sample.bare_link "Node") = true)
  /\ exists target,
       In target [Sample.with_id "dfn" "dfn-node";
                  set_dfn_ref (lit "dfn-node") (Sample.bare_link "Node")]
       /\ id target = Some (lit "dfn-node").
Proof.
  assert (H : link_pass [] [Sample.with_id "dfn" "dfn-node";
                            Sample.bare_link "Node"] []
              = Some ([Sample.with_id "dfn" "dfn-node";
                       set_dfn_ref (lit "dfn-node") (Sample.bare_link "Node")],
                      [])) by reflexivity.
  assert (Hin : In (Sample.bare_link "Node")
                  [Sample.with_id "dfn" "dfn-node"; Sample.bare_link "Node"])
    by (right; left; reflexivity).
  split; [split; [exact H|split; [exact Hin|reflexivity]]|].
  destruct (@links_have_targets _ _ _ _ (Sample.bare_link "Node") H Hin eq_refl)
    as [[_ Ht]|[_ [[]_]]].
  exact Ht.
Defined.

(** X9: A link without [href] that carries a non-empty id of its own is
    never reported: the element found under that id may be the link itself,
    and the link is made to point at its own id. *)
Theorem link_with_id_resolved (doc doc' : document) (errs errs' : list jsstring)
    (a : element) (i : jsstring) :
  link_pass [] doc errs = Some (doc', errs') ->
  In a doc -> is_bare_link a = true -> id a = Some i -> i <> [] ->
  In (set_dfn_ref i a) doc' /\ link_errors doc a = [].
Proof.
  intros H Hin Hb Hid Hne.
  rewrite (@link_pass_map doc doc [] errs eq_refl) in H.
  injection H as <- _.
  assert (Hr : raw_id a = i) by (unfold raw_id; rewrite Hid; reflexivity).
  assert (Hc : carried doc i = true).
  { apply carried_in. split; [exact Hne|]. exists a. tauto. }
  split.
  - pose proof (in_map (link_of doc) _ _ Hin) as Hin'.
    unfold link_of at 1 in Hin'. rewrite Hb, Hr, Hc in Hin'. exact Hin'.
  - unfold link_errors. rewrite Hb, Hr, Hc. reflexivity.
Qed.

Lemma link_with_id_resolved_witness :
  (link_pass [] [Case.link_with_id] []
   = Some ([set_dfn_ref (lit "top") Case.link_with_id], [])
   /\ In Case.link_with_id [Case.link_with_id]
   /\ is_bare_link Case.link_with_id = true
   /\ id Case.link_with_id = Some (lit "top") /\ lit "top" <> [])
  /\ In (set_dfn_ref (lit "top") Case.link_with_id)
       [set_dfn_ref (lit "top") Case.link_with_id]
  /\ link_errors [Case.link_with_id] Case.link_with_id = [].
Proof.
  assert (H : link_pass [] [Case.link_with_id] []
              = Some ([set_dfn_ref (lit "top") Case.link_with_id], []))
    by reflexivity.
  assert (Hin : In Case.link_with_id [Case.link_with_id])
    by (left; reflexivity).
  assert (Hne : lit "top" <> []) by discriminate.
  split; [split; [exact H|split; [exact Hin|split; [reflexivity|split; [reflexivity|exact Hne]]]]|].
  exact (@link_with_id_resolved _ _ _ _ _ _ H Hin eq_refl eq_refl Hne).
Defined.

Lemma dfn_pass_changes (todo : document) :
  forall visited,
    fits (visited ++ todo) ->
    exists todo',
      dfn_pass visited todo = Some (visited ++ todo')
      /\ Forall2 (fun e e' => kept e e' /\ (is_dfn e = false -> e' = e))
           todo todo'.
Proof.
  induction todo as [|e rest IH]; intros visited Hfits.
  - exists []. simpl. rewrite app_nil_r. split; [reflexivity|constructor].
  - simpl. destruct (is_dfn e) eqn:Ed.
    + destruct (@slugify_total _ e (lit "dfn") true Hfits) as [i Hi].
      rewrite Hi.
      destruct (IH (visited ++ [set_id i e])) as [todo' [Hrun Hk]].
      { eapply fits_step; exact Hfits. }
      exists (set_id i e :: todo'). rewrite Hrun, <- app_assoc.
      split; [reflexivity|]. constructor; [|exact Hk].
      split; [|intros Hf; congruence].
      repeat split; simpl.
      * intros j Hj. unfold slugify in Hi.
        rewrite (@slugify_explicit _ _ _ _ true _ Hj) in Hi. congruence.
      * congruence.
    + destruct (IH (visited ++ [e])) as [todo' [Hrun Hk]].
      { eapply fits_step; exact Hfits. }
      exists (e :: todo'). rewrite Hrun, <- app_assoc.
      split; [reflexivity|]. constructor; [|exact Hk].
      split; [apply kept_refl|reflexivity].
Qed.

Lemma kept_in (l l' : document) (x : element) (i : jsstring) :
  Forall2 (fun e e' => kept e e' /\ (is_dfn e = false -> e' = e)) l l' ->
  In x l -> id x = Some i -> exists x', In x' l' /\ id x' = Some i.
Proof.
  induction 1 as [|e e' l l' [Hk _] _ IH]; simpl; [tauto|].
  intros [->|Hin] Hid.
  - exists e'. split; [left; reflexivity|].
    destruct Hk as [_ [_ [Hk _]]]. exact (Hk i Hid).
  - destruct (IH Hin Hid) as [x' [Hx' Hid']]. exists x'. tauto.
Qed.

Lemma unchanged_in (l l' : document) (x : element) :
  Forall2 (fun e e' => kept e e' /\ (is_dfn e = false -> e' = e)) l l' ->
  In x l -> is_dfn x = false -> In x l'.
Proof.
  induction 1 as [|e e' l l' [_ Hk] _ IH]; simpl; [tauto|].
  intros [->|Hin] Hd.
  - left. exact (Hk Hd).
  - right. exact (IH Hin Hd).
Qed.

Lemma bare_id_carried (todo : document) :
  forall visited todo' d,
    fits (visited ++ todo) ->
    dfn_pass visited todo = Some (visited ++ todo') ->
    In d todo -> is_dfn d = true -> id d = None ->
    carried (visited ++ todo')
      (idify (lit "dfn") (slug_text (textContent d)) None) = true.
Proof.
  induction todo as [|e rest IH]; intros visited todo' d Hfits Hrun Hin Hd Hid;
    [destruct Hin|].
  destruct (dfn_pass_changes (e :: rest) visited Hfits) as [todo2 [Hrun2 Hk]].
  rewrite Hrun in Hrun2. injection Hrun2 as Hrun2.
  apply app_inv_head in Hrun2. subst todo2.
  inversion Hk as [|e0 e1 l0 rest' [Hke Hsame] Hk' E1 E2]. subst.
  assert (Hnext : dfn_pass (visited ++ [e1]) rest
                  = Some ((visited ++ [e1]) ++ rest')).
  { apply (@dfn_pass_step visited rest rest' e e1 Hfits Hrun). }
  destruct Hin as [->|Hin].
  - set (i0 := idify (lit "dfn") (slug_text (textContent d)) None).
    assert (Hne : i0 <> []) by (apply idify_nonempty; reflexivity).
    apply carried_in. split; [exact Hne|].
    destruct (getElementById (visited ++ d :: rest) i0) as [x|] eqn:Eg.
    + unfold getElementById in Eg. destruct (truthy i0); [|discriminate].
      apply find_some in Eg. destruct Eg as [Hx Hidx].
      unfold has_id in Hidx. destruct (id x) as [j|] eqn:Ej; [|discriminate].
      apply eqb_eq in Hidx. subst j.
      apply in_app_or in Hx. destruct Hx as [Hx|Hx].
      * exists x. split; [apply in_or_app; left; exact Hx|exact Ej].
      * destruct (@kept_in _ _ _ _ Hk Hx Ej) as [x' [Hx' Hid']].
        exists x'. split; [apply in_or_app; right; exact Hx'|exact Hid'].
    + exists e1. split; [apply in_or_app; right; left; reflexivity|].
      destruct (@dfn_pass_step visited rest rest' d e1 Hfits Hrun)
        as [_ [_ [_ [Hset _]]]].
      destruct (Hset Hd) as [i [Hi ->]]. simpl. f_equal.
      unfold slugify, slugify_fuel in Hi. rewrite Hid in Hi. cbv zeta in Hi.
      fold i0 in Hi. simpl in Hi. rewrite Eg in Hi. congruence.
  - change (visited ++ e1 :: rest') with (visited ++ [e1] ++ rest').
    rewrite app_assoc. apply IH; try assumption.
    eapply fits_step; exact Hfits.
Qed.

(** X10: A link without [href] and without an id whose text derives the
    same slug as the text of a definition without an id is always resolved:
    it receives the fragment made of the raw identifier of that text, and an
    element of the finished document carries that identifier. *)
Theorem matching_link_resolved (doc : document) (errs : list jsstring)
    (d a : element) :
  fits doc ->
  In d doc -> is_dfn d = true -> id d = None ->
  In a doc -> is_bare_link a = true -> id a = None ->
  slug_text (textContent a) = slug_text (textContent d) ->
  exists doc' errs',
    resolve doc errs = Some (doc', errs')
    /\ In (set_dfn_ref (idify (lit "dfn") (slug_text (textContent d)) None) a)
          doc'
    /\ carried doc' (idify (lit "dfn") (slug_text (textContent d)) None) = true.
Proof.
  intros Hfits Hd Hdd Hdid Ha Hab Haid Hslug.
  destruct (dfn_pass_changes doc [] Hfits) as [doc1 [Hrun Hk]].
  simpl in Hrun.
  set (i0 := idify (lit "dfn") (slug_text (textContent d)) None).
  assert (Hc : carried doc1 i0 = true).
  { exact (@bare_id_carried doc [] doc1 d Hfits Hrun Hd Hdd Hdid). }
  assert (Hnd : is_dfn a = false).
  { unfold is_bare_link in Hab. apply andb_true_iff in Hab.
    destruct Hab as [Ht _]. apply eqb_eq in Ht.
    unfold is_dfn. rewrite Ht. reflexivity. }
  assert (Ha1 : In a doc1) by exact (@unchanged_in _ _ _ Hk Ha Hnd).
  assert (Hr : raw_id a = i0).
  { unfold raw_id. rewrite Haid, Hslug. reflexivity. }
  exists (map (link_of doc1) doc1),
         (errs ++ flat_map (link_errors doc1) doc1).
  split; [|split].
  - unfold resolve. rewrite Hrun.
    exact (@link_pass_map doc1 doc1 [] errs eq_refl).
  - pose proof (in_map (link_of doc1) _ _ Ha1) as H.
    unfold link_of at 1 in H. rewrite Hab, Hr, Hc in H. exact H.
  - rewrite <- Hc. symmetry. apply carried_ids.
    rewrite map_map. apply map_ext. intros e. symmetry. apply link_of_id.
Qed.

Lemma matching_link_resolved_witness :
  fits Sample.hash_chain
  /\ exists doc' errs',
       resolve Sample.hash_chain [] = Some (doc', errs')
       /\ In (set_dfn_ref (lit "dfn-hash-chain") (Sample.bare_link "hash chain"))
            doc'
       /\ carried doc' (lit "dfn-hash-chain") = true.
Proof.
  split; [reflexivity|].
  apply (@matching_link_resolved Sample.hash_chain []
           (Sample.dfn "Hash Chain") (Sample.bare_link "hash chain"));
    try reflexivity.
  - right; left; reflexivity.
  - right; right; left; reflexivity.
Defined.

(* ================================================================= *)
(** ** Further properties of the citation pass and of [build] *)

Lemma match_marker_bracket (c : char) (s : jsstring) :
  c <> 91 -> match_marker (c :: s) = None.
Proof.
  intros H. unfold match_marker. destruct s as [|d s]; [reflexivity|].
  apply N.eqb_neq in H. rewrite H. reflexivity.
Qed.

Lemma replace_without_bracket (State : Type)
    (callback : jsstring -> State -> jsstring * State) (s : jsstring) :
  forall st, ~ In 91 s -> replace_markers callback 0 s st = (s, st).
Proof.
  induction s as [|c s IH]; intros st H; [reflexivity|].
  rewrite replace_no_match.
  - rewrite IH; [reflexivity|]. intros Hin. apply H. right. exact Hin.
  - apply match_marker_bracket. intros ->. apply H. left. reflexivity.
Qed.

(** X11: A document whose markup holds no opening bracket goes through the
    citation pass unchanged and receives no references section. *)
Theorem no_marker_no_references (bib : object value) (s : source)
    (errs errs' : list jsstring) (pg : page) :
  process bib s errs = Some (pg, errs') ->
  (forall els, ~ In 91 (main_innerHTML s els)) ->
  references pg = None
  /\ exists els,
       resolved (doc_elements s) = Some els /\ main pg = main_innerHTML s els.
Proof.
  intros H Hplain.
  destruct (process_inv _ _ _ H) as (els & e2 & refs & Hr & Hx & Hrefs).
  rewrite replace_without_bracket in Hx by apply Hplain.
  injection Hx as Hm <- _. split.
  - rewrite Hrefs. reflexivity.
  - exists els. split; [exact Hr|]. symmetry. exact Hm.
Qed.

Lemma no_marker_no_references_witness :
  (process [] (Sample.spec_with "text") []
   = Some (Page (lit "text") None, [])
   /\ forall els, ~ In 91 (main_innerHTML (Sample.spec_with "text") els))
  /\ references (Page (lit "text") None) = None.
Proof.
  assert (H : process [] (Sample.spec_with "text") []
              = Some (Page (lit "text") None, [])) by reflexivity.
  assert (Hp : forall els,
             ~ In 91 (main_innerHTML (Sample.spec_with "text") els)).
  { intros els Hin. simpl in Hin.
    repeat match goal with
           | H : _ \/ _ |- _ => destruct H as [H|H]
           end; try discriminate; exact Hin. }
  split; [split; [exact H|exact Hp]|].
  exact (proj1 (@no_marker_no_references _ _ _ _ _ H Hp)).
Defined.

Lemma cite_refs_from (bib : object value) (k : jsstring) (st : cite_state) :
  refs_from bib (fst st) -> refs_from bib (fst (snd (cite bib k st))).
Proof.
  destruct st as [refs errs]. unfold cite. simpl. intros [Hp Hr].
  destruct (get bib k) as [v|] eqn:Eg; [|split; assumption].
  destruct (truthy_value v) eqn:Et; [|split; assumption].
  simpl. split; [apply plain_assign; exact Hp|].
  intros k' v' Hown.
  destruct (eqb_eq k' k) as [_ Heq].
  destruct (Js.eqb k' k) eqn:E.
  - apply eqb_eq in E. subst k'.
    unfold assign in Hown.
    destruct (Js.eqb k proto_key && negb (hasOwn refs k)).
    + exact (Hr _ _ Hown).
    + rewrite own_define_same in Hown. injection Hown as <-. tauto.
  - apply eqb_neq in E. rewrite (own_assign_other _ _ E) in Hown.
    exact (Hr _ _ Hown).
Qed.

Lemma replace_refs_from (bib : object value) (s : jsstring) (st : cite_state) :
  refs_from bib (fst st) ->
  refs_from bib (fst (snd (replace_markers (cite bib) 0 s st))).
Proof.
  apply (@replace_invariant _ (cite bib) (fun st => refs_from bib (fst st))).
  intros k st0. apply cite_refs_from.
Qed.

Lemma span_class (p : char -> bool) (s : jsstring) :
  forall x y, span p s = (x, y) -> forallb p x = true.
Proof.
  induction s as [|c s IH]; intros x y H; simpl in H.
  - injection H as <- _. reflexivity.
  - destruct (p c) eqn:E.
    + destruct (span p s) as [a b] eqn:Es. injection H as <- _.
      simpl. rewrite E. eapply IH. reflexivity.
    + injection H as <- _. reflexivity.
Qed.

Lemma match_marker_key (s key rest : jsstring) :
  match_marker s = Some (key, rest) ->
  truthy key = true /\ forallb is_key_char key = true.
Proof.
  unfold match_marker. destruct s as [|c1 [|c2 s1]]; try discriminate.
  destruct (N.eqb c1 91 && N.eqb c2 91); [|discriminate].
  destruct (span is_key_char s1) as [k y] eqn:E.
  destruct y as [|c3 [|c4 r]]; try discriminate.
  destruct (truthy k && N.eqb c3 93 && N.eqb c4 93) eqn:Ec; [|discriminate].
  intros H. injection H as <- _.
  apply andb_true_iff in Ec. destruct Ec as [Ec _].
  apply andb_true_iff in Ec. destruct Ec as [Ek _].
  split; [exact Ek|]. eapply span_class. exact E.
Qed.

(** A key gets into [refs] only through a marker of the markup. *)
Lemma replace_keys_cited (bib : object value) (len : nat) :
  forall s st k,
    (length s <= len)%nat ->
    own (fst (snd (replace_markers (cite bib) 0 s st))) k <> None ->
    own (fst st) k <> None \/ cited s k.
Proof.
  induction len as [|len IH]; intros s st k Hlen Hk.
  - destruct s; [|simpl in Hlen; lia]. left. exact Hk.
  - destruct s as [|c s]; [left; exact Hk|].
    destruct (match_marker (c :: s)) as [[key rest]|] eqn:E.
    + rewrite (@replace_at_match _ (cite bib) _ _ _ st E) in Hk.
      pose proof (match_marker_sound _ E) as Hs.
      destruct (match_marker_key _ E) as [Hkey Hchars].
      destruct (cite bib key st) as [r st1] eqn:Ec.
      assert (Hrest : (length rest <= len)%nat).
      { assert (Hl : length (c :: s) = length (marker key ++ rest))
          by (f_equal; exact Hs).
        rewrite length_app in Hl. unfold marker in Hl.
        rewrite !length_app in Hl. simpl in Hl, Hlen. lia. }
      specialize (IH rest st1 k Hrest).
      destruct (replace_markers (cite bib) 0 rest st1) as [out st2].
      destruct (IH Hk) as [H1|(Ht & Hc & pre & post & Hp)].
      * destruct (eqb_eq k key) as [Hto _].
        destruct (Js.eqb k key) eqn:Ekk.
        -- right. rewrite (Hto eq_refl). split; [exact Hkey|].
           split; [exact Hchars|]. exists [], rest. exact Hs.
        -- left. apply eqb_neq in Ekk.
           assert (Hst1 : st1 = snd (cite bib key st)) by (rewrite Ec; reflexivity).
           rewrite Hst1 in H1. destruct st as [refs errs]. unfold cite in H1.
           destruct (get bib key) as [v|]; [|exact H1].
           destruct (truthy_value v); [|exact H1].
           simpl in H1. rewrite (own_assign_other _ _ Ekk) in H1. exact H1.
      * right. split; [exact Ht|]. split; [exact Hc|].
        exists (marker key ++ pre), post. rewrite Hs, Hp, <- app_assoc.
        reflexivity.
    + rewrite (@replace_no_match _ (cite bib) c s st E) in Hk.
      assert (Hs : (length s <= len)%nat) by (simpl in Hlen; lia).
      specialize (IH s st k Hs).
      destruct (replace_markers (cite bib) 0 s st) as [out st2].
      destruct (IH Hk) as [H1|(Ht & Hc & pre & post & Hp)]; [left; exact H1|].
      right. split; [exact Ht|]. split; [exact Hc|].
      exists (c :: pre), post. rewrite Hp. reflexivity.
Qed.

(** X12: the references section is made of the keys that were resolved:
    the keys that are cited in the markup of the page, under which the
    bibliography yields a truthy value, and that are not [__proto__].  They
    are listed once each, however often they are cited, in the order of
    their code units, every entry showing what the bibliography yields
    under its key; the section is there exactly when there is such a
    key. *)
Theorem references_from_bibliography (bib : object value) (s : source)
    (errs errs' : list jsstring) (pg : page) (els : document) :
  process bib s errs = Some (pg, errs') ->
  resolved (doc_elements s) = Some els ->
  exists ks,
    NoDup ks
    /\ Sorted (fun a b => Js.leb a b = true) ks
    /\ (forall k, In k ks <->
          cited (main_innerHTML s els) k
          /\ truthy_opt (get bib k) = true /\ k <> proto_key)
    /\ references pg
       = match ks with
         | [] => None
         | _ :: _ =>
             Some (RefSection (lit "References")
                     (map (fun k => RefEntry (lit "ref-" ++ k)
                                      (lit "[" ++ k ++ lit "]") (get bib k))
                        ks))
         end.
Proof.
  intros H Hels.
  destruct (process_inv _ _ _ H) as (els' & e2 & refs & Hr & Hx & Hrefs).
  assert (els' = els) by congruence. subst els'.
  assert (Hfrom : refs_from bib refs).
  { pose proof (@replace_refs_from bib (main_innerHTML s els) ([], e2)) as Hi.
    rewrite Hx in Hi. apply Hi. split; [apply plain_nil|].
    intros k v Hk. discriminate. }
  destruct Hfrom as [[Hnd Hproto] Hval].
  pose proof (sort_perm Js.leb (keys refs)) as Hp1.
  pose proof (keys_perm refs) as Hp2.
  pose proof (Permutation_trans Hp1 Hp2) as Hperm.
  assert (Hks : forall k, In k (sort Js.leb (keys refs)) ->
                  exists v, own refs k = Some v /\ get bib k = Some v
                            /\ truthy_value v = true).
  { intros k Hk. apply (Permutation_in _ Hperm) in Hk.
    destruct (in_own_some _ _ Hk) as [v Hv].
    exists v. destruct (Hval k v Hv) as [Hg Ht]. tauto. }
  exists (sort Js.leb (keys refs)).
  split; [|split; [apply sort_sorted|split]].
  - apply (Permutation_NoDup (Permutation_sym Hperm)). exact Hnd.
  - intros k. split.
    + intros Hk. destruct (Hks k Hk) as (v & Hown & Hg & Ht).
      split; [|split].
      * pose proof (@replace_keys_cited bib _ (main_innerHTML s els) ([], e2) k
                      (le_n _)) as Hc.
        rewrite Hx in Hc. simpl in Hc.
        destruct Hc as [Hc|Hc]; [rewrite Hown; discriminate|congruence|exact Hc].
      * rewrite Hg. exact Ht.
      * intros ->. apply Hproto. eapply own_some_in. exact Hown.
    + intros ((Ht & Hc & pre & post & Hhtml) & Hg & Hne).
      destruct (get bib k) as [v|] eqn:Eg; [|discriminate].
      destruct (@resolved_marker_cited bib [] e2 pre k post v Ht Hc Eg Hg Hne)
        as (o1 & o2 & refs' & e3 & Hrun & Hown).
      rewrite Hhtml in Hx.
      pose proof (eq_trans (eq_sym Hx) Hrun) as E.
      assert (Er : refs = refs') by exact (f_equal (fun p => fst (snd p)) E).
      subst refs'. apply (Permutation_in _ (Permutation_sym Hperm)).
      eapply own_some_in. exact Hown.
  - rewrite Hrefs. unfold references_section.
    assert (He : forall l : list jsstring, sort Js.leb l = [] -> l = []).
    { intros l Hl. pose proof (sort_perm Js.leb l) as Hpl. rewrite Hl in Hpl.
      apply Permutation_nil. exact Hpl. }
    destruct (keys refs) as [|k0 kr] eqn:Ek.
    + reflexivity.
    + destruct (sort Js.leb (k0 :: kr)) as [|k1 ks1] eqn:Es.
      * apply He in Es. discriminate.
      * f_equal. f_equal. apply map_ext_in. intros k Hk.
        destruct (Hks k Hk) as (v & Hown & Hg & _).
        unfold get at 1. rewrite Hown, Hg. reflexivity.
Qed.

Lemma references_from_bibliography_witness :
  (process [(lit "rfc2", Str (lit "Two"))]
     (Sample.spec_with "[[rfc2]] and [[rfc2]]") []
   = Some (Page (ref_link (lit "rfc2") ++ lit " and " ++ ref_link (lit "rfc2"))
             (Some (RefSection (lit "References")
                      [RefEntry (lit "ref-rfc2") (lit "[rfc2]")
                         (Some (Str (lit "Two")))])), [])
   /\ resolved (doc_elements (Sample.spec_with "[[rfc2]] and [[rfc2]]"))
      = Some [Sample.abstract])
  /\ exists ks,
       NoDup ks
       /\ (forall k, In k ks <->
             cited (lit "[[rfc2]] and [[rfc2]]") k
             /\ truthy_opt (get [(lit "rfc2", Str (lit "Two"))] k) = true
             /\ k <> proto_key)
       /\ Some (RefSection (lit "References")
                  [RefEntry (lit "ref-rfc2") (lit "[rfc2]")
                     (Some (Str (lit "Two")))])
          = match ks with
            | [] => None
            | _ :: _ =>
                Some (RefSection (lit "References")
                        (map (fun k => RefEntry (lit "ref-" ++ k)
                                         (lit "[" ++ k ++ lit "]")
                                         (get [(lit "rfc2", Str (lit "Two"))] k))
                           ks))
            end.
Proof.
  assert (H : process [(lit "rfc2", Str (lit "Two"))]
                (Sample.spec_with "[[rfc2]] and [[rfc2]]") []
              = Some (Page (ref_link (lit "rfc2") ++ lit " and "
                            ++ ref_link (lit "rfc2"))
                        (Some (RefSection (lit "References")
                                 [RefEntry (lit "ref-rfc2") (lit "[rfc2]")
                                    (Some (Str (lit "Two")))])), []))
    by reflexivity.
  split; [split; [exact H|reflexivity]|].
  destruct (@references_from_bibliography _ _ _ _ _ [Sample.abstract] H eq_refl)
    as (ks & Hnd & _ & Hiff & Hsec).
  exists ks. split; [exact Hnd|]. split; [exact Hiff|exact Hsec].
Defined.

(** X13: Every citation link has its anchor: when the bibliography yields
    a truthy value under a key other than [__proto__], a marker of that key
    is replaced by the link to [#ref-key] and the references section of the
    same page holds the entry with the id [ref-key] and that value. *)
Theorem citation_has_anchor (bib : object value) (s : source)
    (errs errs' : list jsstring) (pg : page) (k : jsstring) (v : value)
    (els : document) (pre post : jsstring) :
  process bib s errs = Some (pg, errs') ->
  truthy k = true -> forallb is_key_char k = true ->
  get bib k = Some v -> truthy_value v = true -> k <> proto_key ->
  resolved (doc_elements s) = Some els ->
  main_innerHTML s els = pre ++ marker k ++ post ->
  (exists o1 o2, main pg = o1 ++ ref_link k ++ o2)
  /\ exists sec,
       references pg = Some sec
       /\ In (RefEntry (lit "ref-" ++ k) (lit "[" ++ k ++ lit "]") (Some v))
            (entries sec).
Proof.
  intros H Hk Hkey Hg Hv Hp Hels Hhtml.
  destruct (process_inv _ _ _ H) as (els' & e2 & refs & Hr & Hx & Hrefs).
  assert (els' = els) by congruence. subst els'.
  rewrite Hhtml in Hx.
  destruct (@resolved_marker_cited bib [] e2 pre k post v Hk Hkey Hg Hv Hp)
    as (o1 & o2 & refs' & e3 & Hrun & Hown).
  pose proof (eq_trans (eq_sym Hx) Hrun) as E.
  assert (Em : main pg = o1 ++ ref_link k ++ o2) by exact (f_equal fst E).
  assert (Er : refs = refs')
    by exact (f_equal (fun p => fst (snd p)) E).
  split; [exists o1, o2; exact Em|].
  subst refs'. rewrite Hrefs.
  destruct (references_section_entry _ _ Hown) as (sec & Hsec & _ & Hin).
  exists sec. split; assumption.
Qed.

Lemma citation_has_anchor_witness :
  process [(lit "rfc2", Str (lit "Two"))] (Sample.spec_with "see [[rfc2]].") []
  = Some (Page (lit "see " ++ ref_link (lit "rfc2") ++ lit ".")
            (Some (RefSection (lit "References")
                     [RefEntry (lit "ref-rfc2") (lit "[rfc2]")
                        (Some (Str (lit "Two")))])), [])
  /\ exists sec,
       references (Page (lit "see " ++ ref_link (lit "rfc2") ++ lit ".")
                     (Some (RefSection (lit "References")
                              [RefEntry (lit "ref-rfc2") (lit "[rfc2]")
                                 (Some (Str (lit "Two")))])))
       = Some sec
       /\ In (RefEntry (lit "ref-" ++ lit "rfc2")
                (lit "[" ++ lit "rfc2" ++ lit "]") (Some (Str (lit "Two"))))
            (entries sec).
Proof.
  assert (H : process [(lit "rfc2", Str (lit "Two"))]
                (Sample.spec_with "see [[rfc2]].") []
              = Some (Page (lit "see " ++ ref_link (lit "rfc2") ++ lit ".")
                        (Some (RefSection (lit "References")
                                 [RefEntry (lit "ref-rfc2") (lit "[rfc2]")
                                    (Some (Str (lit "Two")))])), []))
    by reflexivity.
  split; [exact H|].
  refine (proj2 (@citation_has_anchor _ _ _ _ _ (lit "rfc2") (Str (lit "Two"))
                   [Sample.abstract] (lit "see ") (lit ".")
                   H eq_refl eq_refl eq_refl eq_refl _ eq_refl eq_refl)).
  discriminate.
Defined.

Lemma replace_errs_grow (bib : object value) (s : jsstring) (st : cite_state) :
  exists more,
    snd (snd (replace_markers (cite bib) 0 s st)) = snd st ++ more.
Proof.
  apply (@replace_invariant _ (cite bib)
           (fun st' => exists more, snd st' = snd st ++ more)).
  - intros k [refs errs] [more Hm]. simpl in Hm. subst errs.
    unfold cite.
    destruct (get bib k) as [v|]; [destruct (truthy_value v)|]; simpl.
    + exists more. reflexivity.
    + exists (more ++ [no_entry_error k]). apply eq_sym, app_assoc.
    + exists (more ++ [no_entry_error k]). apply eq_sym, app_assoc.
  - exists []. symmetry. apply app_nil_r.
Qed.

Lemma replace_absent_stays (bib : object value) (k s : jsstring)
    (st : cite_state) :
  truthy_opt (get bib k) = false ->
  own (fst st) k = None ->
  own (fst (snd (replace_markers (cite bib) 0 s st))) k = None.
Proof.
  intros Hf.
  apply (@replace_invariant _ (cite bib) (fun st' => own (fst st') k = None)).
  intros k' [refs errs] Hn. simpl in Hn. unfold cite.
  destruct (get bib k') as [v|] eqn:Eg; [|exact Hn].
  destruct (truthy_value v) eqn:Et; [|exact Hn].
  simpl. rewrite own_assign_other; [exact Hn|].
  intros ->. rewrite Eg in Hf. simpl in Hf. congruence.
Qed.

(** X14: A marker whose key the bibliography cannot answer, because the
    key is neither an entry nor the name of a built-in member, or because
    its entry is the empty string, is left as it stands in the page, is
    reported, and gets no entry in the references section. *)
Theorem missing_entry_reported (bib : object value) (s : source)
    (errs errs' : list jsstring) (pg : page) (k : jsstring)
    (els : document) (pre post : jsstring) :
  process bib s errs = Some (pg, errs') ->
  truthy k = true -> forallb is_key_char k = true ->
  (own bib k = None /\ ~ In k Object_prototype) \/ own bib k = Some (Str []) ->
  resolved (doc_elements s) = Some els ->
  main_innerHTML s els = pre ++ marker k ++ post ->
  (exists o1 o2, main pg = o1 ++ marker k ++ o2)
  /\ In (no_entry_error k) errs'
  /\ forall sec, references pg = Some sec ->
       ~ In (lit "ref-" ++ k) (map dt_id (entries sec)).
Proof.
  intros H Hk Hkey Hmiss Hels Hhtml.
  assert (Hf : truthy_opt (get bib k) = false).
  { destruct Hmiss as [[Hn Hp]|Hs].
    - rewrite (@get_absent _ _ Hn Hp). reflexivity.
    - unfold get. rewrite Hs. reflexivity. }
  destruct (process_inv _ _ _ H) as (els' & e2 & refs & Hr & Hx & Hrefs).
  assert (els' = els) by congruence. subst els'.
  assert (Hnone : own refs k = None).
  { pose proof (@replace_absent_stays bib k (main_innerHTML s els) ([], e2) Hf
                  eq_refl) as Hi.
    rewrite Hx in Hi. exact Hi. }
  rewrite Hhtml in Hx.
  pose proof (@unresolved_marker_left bib [] e2 pre k post Hk Hkey Hf) as Hu.
  pose proof (eq_trans (eq_sym Hu) Hx) as E. clear Hu Hx.
  match type of E with
  | context [replace_markers ?cb _ pre ?st] =>
      destruct (replace_markers cb 0 pre st) as [o1 [refs1 errs1]]
  end.
  match type of E with
  | context [replace_markers ?cb _ post ?st] =>
      pose proof (replace_errs_grow bib post st) as [more Hmore];
      destruct (replace_markers cb 0 post st) as [o2 st3]
  end.
  assert (Em : o1 ++ marker k ++ o2 = main pg) by exact (f_equal fst E).
  assert (Est : st3 = (refs, errs')) by exact (f_equal snd E).
  subst st3. simpl in Hmore.
  split; [exists o1, o2; symmetry; exact Em|]. split.
  - rewrite Hmore. apply in_or_app. left. apply in_or_app. right. left.
    reflexivity.
  - intros sec Hsec. rewrite Hrefs in Hsec.
    destruct (references_section_shape refs) as [_ Hshape].
    destruct (Hshape sec Hsec) as (_ & Hent & _ & Hperm).
    rewrite Hent, map_map. simpl. intros Hin.
    apply in_map_iff in Hin. destruct Hin as [r [Hr' Hin]].
    injection Hr' as Hr'. subst r.
    apply (Permutation_in _ Hperm) in Hin.
    destruct (in_own_some _ _ Hin) as [v Hv]. congruence.
Qed.

Lemma missing_entry_reported_witness :
  process [(lit "draft", Str [])] (Sample.spec_with "see [[draft]].") []
  = Some (Page (lit "see [[draft]].") None, [no_entry_error (lit "draft")])
  /\ In (no_entry_error (lit "draft")) [no_entry_error (lit "draft")].
Proof.
  assert (H : process [(lit "draft", Str [])]
                (Sample.spec_with "see [[draft]].") []
              = Some (Page (lit "see [[draft]].") None,
                      [no_entry_error (lit "draft")])) by reflexivity.
  split; [exact H|].
  refine (proj1 (proj2 (@missing_entry_reported _ _ _ _ _ (lit "draft")
                          [Sample.abstract] (lit "see ") (lit ".")
                          H eq_refl eq_refl _ eq_refl eq_refl))).
  right. reflexivity.
Defined.

Lemma process_errs_grow (bib : object value) (s : source)
    (e e' : list jsstring) (pg : page) :
  process bib s e = Some (pg, e') -> exists more, e' = e ++ more.
Proof.
  unfold process.
  set (e1 := match getElementById (doc_elements s) (lit "abstract") with
             | Some _ => e
             | None => e ++ [missing_abstract_error (doc_title s)]
             end).
  assert (H1 : exists m1, e1 = e ++ m1).
  { unfold e1. destruct (getElementById (doc_elements s) (lit "abstract")).
    - exists []. symmetry. apply app_nil_r.
    - eexists. reflexivity. }
  destruct H1 as [m1 H1].
  unfold resolve. destruct (dfn_pass [] (doc_elements s)) as [d|];
    [|discriminate].
  rewrite (@link_pass_map d d [] e1 eq_refl). cbn [app].
  match goal with
  | |- context [replace_markers ?cb _ ?h ?st] =>
      pose proof (replace_errs_grow bib h st) as [m3 H3];
      destruct (replace_markers cb 0 h st) as [html [refs e3]]
  end.
  simpl in H3. intros H. injection H as _ <-.
  exists (m1 ++ flat_map (link_errors d) d ++ m3).
  rewrite H3, H1, <- !app_assoc. reflexivity.
Qed.

(** X15: The second loop produces exactly one page per document, in the
    order of the keys, and never drops a line already reported: the lines
    reported after it start with those reported before. *)
Theorem one_page_per_document (bib : object value) (specs : object source)
    (ks : list jsstring) :
  forall errs pages errs',
    process_all bib specs ks errs = Some (pages, errs') ->
    map fst pages = ks /\ exists more, errs' = errs ++ more.
Proof.
  induction ks as [|k ks IH]; intros errs pages errs' H; simpl in H.
  - injection H as <- <-. split; [reflexivity|].
    exists []. symmetry. apply app_nil_r.
  - destruct (own specs k) as [s|]; [|discriminate].
    destruct (process bib s errs) as [[pg e1]|] eqn:Ep; [|discriminate].
    destruct (process_all bib specs ks e1) as [[pages' e2]|] eqn:Er;
      [|discriminate].
    injection H as <- <-.
    destruct (IH _ _ _ Er) as [Hk [m2 Hm2]].
    destruct (@process_errs_grow _ _ _ _ _ Ep) as [m1 Hm1].
    split; [simpl; rewrite Hk; reflexivity|].
    exists (m1 ++ m2). rewrite Hm2, Hm1. apply eq_sym, app_assoc.
Qed.

Lemma one_page_per_document_witness :
  process_all [] (specs_of Sample.a_cites_b) [lit "b"] [lit "earlier"]
  = Some ([(lit "b", Page (lit "text") None)], [lit "earlier"])
  /\ map fst [(lit "b", Page (lit "text") None)] = [lit "b"]
  /\ exists more, [lit "earlier"] = [lit "earlier"] ++ more.
Proof.
  assert (H : process_all [] (specs_of Sample.a_cites_b) [lit "b"]
                [lit "earlier"]
              = Some ([(lit "b", Page (lit "text") None)], [lit "earlier"]))
    by reflexivity.
  split; [exact H|].
  exact (@one_page_per_document _ _ _ _ _ _ H).
Defined.

(** X16: The first loop touches the entries of the documents only: under
    every key that is no short name, the bibliography answers after the loop
    what it answered before. *)
Theorem hand_authored_entries_kept (people : registry) (clock : nat -> Z)
    (files : list (jsstring * source)) (bib bib' : object value)
    (k : jsstring) :
  synthesize people clock (specs_of files) 0 (keys (specs_of files)) bib
  = Some bib' ->
  own (specs_of files) k = None ->
  get bib' k = get bib k.
Proof.
  intros H Hk. unfold get.
  rewrite (@synthesize_frame _ _ _ _ _ _ _ H); [reflexivity|].
  intros Hin. apply keys_own in Hin. destruct Hin as [v Hv]. congruence.
Qed.

Lemma hand_authored_entries_kept_witness :
  synthesize Sample.people Sample.noon (specs_of Sample.a_cites_b) 0
    (keys (specs_of Sample.a_cites_b)) [(lit "rfc2", Str (lit "Two"))]
  = Some [(lit "rfc2", Str (lit "Two"));
          (lit "a", Str (htmlifyReference (Sample.entry "a" "1970-01-01")));
          (lit "b", Str (htmlifyReference (Sample.entry "b" "1970-01-01")))]
  /\ get [(lit "rfc2", Str (lit "Two"));
          (lit "a", Str (htmlifyReference (Sample.entry "a" "1970-01-01")));
          (lit "b", Str (htmlifyReference (Sample.entry "b" "1970-01-01")))]
       (lit "rfc2")
     = get [(lit "rfc2", Str (lit "Two"))] (lit "rfc2").
Proof.
  assert (H : synthesize Sample.people Sample.noon (specs_of Sample.a_cites_b)
                0 (keys (specs_of Sample.a_cites_b))
                [(lit "rfc2", Str (lit "Two"))]
              = Some [(lit "rfc2", Str (lit "Two"));
                      (lit "a", Str (htmlifyReference
                                       (Sample.entry "a" "1970-01-01")));
                      (lit "b", Str (htmlifyReference
                                       (Sample.entry "b" "1970-01-01")))])
    by reflexivity.
  split; [exact H|].
  exact (@hand_authored_entries_kept _ _ _ _ _ (lit "rfc2") H eq_refl).
Defined.






(** At sample inputs: an author id that is the name of an inherited member
    is accepted, and the entry of the document names the function; an id
    that the lookup does not find stops the build. *)
Lemma inherited_author_is_accepted :
  build [] Sample.people Sample.noon Case.inherited_author
  = Some ([(lit "a", Page (lit "text") None)], [])
  /\ synthesize Sample.people Sample.noon (specs_of Case.inherited_author) 0
       (keys (specs_of Case.inherited_author)) []
     = Some [(lit "a",
              Str (htmlifyReference
                     (Reference (lit "Robin & toString") (lit "T")
                        (lit "1970-01-01") (spec_url (lit "a")))))]
  /\ build [] Sample.people Sample.noon
       [(lit "a", Source (lit "T") [lit "nobody"] [Sample.abstract]
                    (fun _ => lit "text"))]
     = None.
Proof. repeat split. Qed.

(** The author field when a name is [undefined], as it is for the author
    id [__proto__]: alone it is read as the empty string, [join] renders it
    as the empty string, the template literal before the last of three or
    more names as the text [undefined]. *)
Lemma author_field_undefined :
  author_field [None] = []
  /\ author_field [None; Some (lit "B")] = lit " & B"
  /\ author_field [Some (lit "A"); None; Some (lit "C")] = lit "A, , & C"
  /\ author_field [Some (lit "A"); Some (lit "B"); None]
     = lit "A, B, & undefined"
  /\ author_names Sample.people [proto_key; lit "constructor"; lit "robin"]
     = Some [None; Some (lit "Object"); Some (lit "Robin")].
Proof. repeat split. Qed.

(* ================================================================= *)
(** ** File names and the watcher *)

Lemma endsWith_app (p suffix : jsstring) : endsWith (p ++ suffix) suffix = true.
Proof.
  unfold endsWith. rewrite length_app.
  replace (length p + length suffix - length suffix)%nat with (length p) by lia.
  rewrite skipn_app, skipn_all, Nat.sub_diag. simpl. apply eqb_refl.
Qed.

Lemma endsWith_split (s suffix : jsstring) :
  endsWith s suffix = true ->
  s = firstn (length s - length suffix) s ++ suffix.
Proof.
  unfold endsWith. intros H. apply eqb_eq in H.
  transitivity (firstn (length s - length suffix) s
                ++ skipn (length s - length suffix) s).
  - symmetry. apply firstn_skipn.
  - f_equal. exact H.
Qed.

Lemma replace_src_html_app (by_ stem : jsstring) :
  replace_src_html by_ (stem ++ src_html) = stem ++ by_.
Proof.
  unfold replace_src_html. rewrite endsWith_app, length_app.
  replace (length stem + length src_html - length src_html)%nat
    with (length stem) by lia.
  rewrite firstn_app, firstn_all, Nat.sub_diag. simpl.
  rewrite app_nil_r. reflexivity.
Qed.

Lemma drop_end_fixed (p : char -> bool) (s : jsstring) :
  Forall (fun c => p c = false) s -> drop_end p s = s.
Proof.
  induction 1 as [|c s Hc _ IH]; simpl; [reflexivity|].
  rewrite IH. destruct s; [rewrite Hc|]; reflexivity.
Qed.

Lemma last_segment_plain (s : jsstring) :
  Forall (fun c => is_slash c = false) s ->
  forall acc,
    fold_left (fun acc c => if is_slash c then [] else acc ++ [c]) s acc
    = acc ++ s.
Proof.
  induction 1 as [|c s Hc _ IH]; intros acc; simpl.
  - symmetry. apply app_nil_r.
  - rewrite Hc, IH, <- app_assoc. reflexivity.
Qed.

Lemma no_slash (s : jsstring) :
  ~ In 47 s -> Forall (fun c => is_slash c = false) s.
Proof.
  intros H. apply Forall_forall. intros c Hc. unfold is_slash.
  apply N.eqb_neq. intros ->. exact (H Hc).
Qed.

Lemma basename_plain (f : jsstring) : ~ In 47 f -> basename f = f.
Proof.
  intros H. apply no_slash in H. unfold basename, last_segment.
  rewrite (@drop_end_fixed _ _ H).
  exact (@last_segment_plain _ H []).
Qed.

Lemma basename_in_dir (dir f : jsstring) :
  ~ In 47 f -> f <> [] -> basename (dir ++ lit "/" ++ f) = f.
Proof.
  intros H Hne. apply no_slash in H. unfold basename, last_segment.
  assert (Hd : drop_end is_slash (dir ++ lit "/" ++ f) = dir ++ lit "/" ++ f).
  { destruct (drop_end_split is_slash (dir ++ lit "/" ++ f)) as [w [Hw Hall]].
    destruct (exists_last Hne) as [f' [c Hf]].
    destruct w as [|x w] using rev_ind; [rewrite app_nil_r in Hw; congruence|].
    clear IHw. exfalso.
    rewrite forallb_app in Hall. apply andb_true_iff in Hall.
    destruct Hall as [_ Hx]. simpl in Hx. rewrite andb_true_r in Hx.
    rewrite Hf in Hw.
    rewrite !app_assoc in Hw. apply app_inj_tail in Hw. destruct Hw as [_ <-].
    rewrite Hf in H. apply Forall_app in H. destruct H as [_ H].
    inversion H as [|? ? Hc _]. congruence. }
  rewrite Hd, !fold_left_app. simpl.
  exact (@last_segment_plain _ H []).
Qed.



(** X19: Two different source names never share a short name, hence never
    a page. *)
Theorem short_names_differ (f g : jsstring) :
  is_source f = true -> is_source g = true ->
  ~ In 47 f -> ~ In 47 g ->
  shortname_of f = shortname_of g -> f = g.
Proof.
  intros Hf Hg Hsf Hsg Heq. unfold is_source in *.
  pose proof (@endsWith_split _ _ Hf) as Ef.
  pose proof (@endsWith_split _ _ Hg) as Eg.
  unfold shortname_of in Heq.
  rewrite (@basename_plain _ Hsf), (@basename_plain _ Hsg) in Heq.
  rewrite Ef in Heq at 1. rewrite Eg in Heq at 1.
  rewrite !replace_src_html_app, !app_nil_r in Heq.
  rewrite Ef, Eg, Heq. reflexivity.
Qed.

Lemma short_names_differ_witness :
  (is_source (lit "car.src.html") = true /\ ~ In 47 (lit "car.src.html")
   /\ shortname_of (lit "car.src.html") = lit "car")
  /\ lit "car.src.html" = lit "car.src.html".
Proof.
  assert (H : ~ In 47 (lit "car.src.html")).
  { intros Hin. simpl in Hin.
    repeat match goal with
           | H : _ \/ _ |- _ => destruct H as [H|H]
           end; try discriminate; exact Hin. }
  split; [split; [reflexivity|split; [exact H|reflexivity]]|].
  exact (@short_names_differ (lit "car.src.html") (lit "car.src.html")
           eq_refl eq_refl H H eq_refl).
Defined.

Lemma endsWith_exists (s suffix : jsstring) :
  endsWith s suffix = true <-> exists pre, s = pre ++ suffix.
Proof.
  split.
  - intros H. eexists. exact (@endsWith_split _ _ H).
  - intros [pre ->]. apply endsWith_app.
Qed.

Lemma page_path_source (dir stem : jsstring) :
  ~ In 47 stem ->
  endsWith (dir ++ lit "/" ++ page_name stem) src_html
  = endsWith stem (lit ".src").
Proof.
  intros Hs.
  destruct (endsWith stem (lit ".src")) eqn:E.
  - apply endsWith_exists in E. destruct E as [pre ->].
    apply endsWith_exists. exists (dir ++ lit "/" ++ pre).
    unfold page_name. rewrite <- !app_assoc. reflexivity.
  - destruct (endsWith (dir ++ lit "/" ++ page_name stem) src_html) eqn:E';
      [|reflexivity].
    exfalso. apply endsWith_exists in E'. destruct E' as [pre Hp].
    unfold page_name in Hp.
    change src_html with (lit ".src" ++ lit ".html") in Hp.
    rewrite !app_assoc in Hp. apply app_inv_tail in Hp.
    rewrite <- app_assoc in Hp.
    apply app_eq_app in Hp. destruct Hp as [m [[H1 H2]|[H1 H2]]].
    + assert (Hin : In 47 (lit ".src")).
      { rewrite H2. apply in_or_app. right. left. reflexivity. }
      simpl in Hin.
      repeat match goal with
             | H : _ \/ _ |- _ => destruct H as [H|H]
             end; try discriminate; exact Hin.
    + destruct m as [|x m]; [discriminate|].
      injection H2 as _ H2.
      assert (Hex : endsWith stem (lit ".src") = true).
      { apply endsWith_exists. exists m. exact H2. }
      congruence.
Qed.

(** X20: A page that [build] writes does not start another build when the
    watcher sees it, unless the short name of its source ends in [.src]. *)
Theorem pages_do_not_retrigger (dir stem : jsstring) :
  ~ In 47 stem ->
  buildIfMatch (dir ++ lit "/" ++ page_name stem) = endsWith stem (lit ".src").
Proof.
  intros Hs. unfold buildIfMatch.
  rewrite (@page_path_source dir _ Hs).
  assert (Hb : basename (dir ++ lit "/" ++ page_name stem) = page_name stem).
  { apply basename_in_dir.
    - unfold page_name. intros Hin. apply in_app_or in Hin.
      destruct Hin as [Hin|Hin]; [exact (Hs Hin)|].
      simpl in Hin.
      repeat match goal with
             | H : _ \/ _ |- _ => destruct H as [H|H]
             end; try discriminate; exact Hin.
    - unfold page_name. destruct stem; discriminate. }
  rewrite Hb.
  assert (Hn : forall x, endsWith x (lit ".html") = false ->
                 Js.eqb (page_name stem) x = false).
  { intros x Hx. apply eqb_neq. intros <-.
    unfold page_name in Hx. rewrite endsWith_app in Hx. discriminate. }
  rewrite (Hn (lit "bibliography.json") eq_refl).
  rewrite (Hn (lit "people.json") eq_refl).
  simpl. apply negb_involutive.
Qed.

Lemma pages_do_not_retrigger_witness :
  ~ In 47 (lit "car")
  /\ buildIfMatch (lit "/site" ++ lit "/" ++ page_name (lit "car")) = false.
Proof.
  assert (H : ~ In 47 (lit "car")).
  { intros Hin. simpl in Hin.
    repeat match goal with
           | H : _ \/ _ |- _ => destruct H as [H|H]
           end; try discriminate; exact Hin. }
  split; [exact H|].
  exact (@pages_do_not_retrigger (lit "/site") (lit "car") H).
Defined.

(* ================================================================= *)
(** ** The authors of a document *)

Lemma split_skip (s : jsstring) :
  forall n piece, split_from n piece s = split_from 0 piece (skipn n s).
Proof.
  induction s as [|c s IH]; intros [|n] piece; try reflexivity.
  simpl skipn. rewrite <- IH. reflexivity.
Qed.

Lemma drop_while_split (p : char -> bool) (s : jsstring) :
  exists w, s = w ++ drop_while p s.
Proof.
  induction s as [|c s [w IH]]; [exists []; reflexivity|].
  simpl. destruct (p c); [|exists []; reflexivity].
  exists (c :: w). simpl. f_equal. exact IH.
Qed.

Lemma match_separator_split (s rest : jsstring) :
  match_separator s = Some rest -> exists pre, s = pre ++ rest /\ pre <> [].
Proof.
  unfold match_separator. intros H.
  destruct (drop_while_split is_space s) as [w Hw].
  destruct (drop_while is_space s) as [|c r]; [discriminate|].
  destruct (N.eqb c 44); [|discriminate]. injection H as <-.
  destruct (drop_while_split is_space r) as [w2 Hw2].
  exists (w ++ c :: w2). split; [|destruct w; discriminate].
  rewrite Hw at 1. rewrite Hw2 at 1.
  rewrite <- app_assoc. reflexivity.
Qed.

Lemma split_at_separator (c : char) (s rest piece : jsstring) :
  match_separator (c :: s) = Some rest ->
  split_from 0 piece (c :: s) = piece :: split_from 0 [] rest.
Proof.
  intros H. cbn [split_from]. rewrite H. f_equal.
  rewrite split_skip. f_equal.
  destruct (@match_separator_split _ _ H) as [pre [Hpre Hne]].
  destruct pre as [|d pre]; [congruence|].
  injection Hpre as _ Hs. rewrite Hs, length_app.
  replace (length pre + length rest - length rest)%nat
    with (length pre) by lia.
  rewrite skipn_app, skipn_all, Nat.sub_diag. reflexivity.
Qed.

Lemma split_no_separator (c : char) (s piece : jsstring) :
  match_separator (c :: s) = None ->
  split_from 0 piece (c :: s) = split_from 0 (piece ++ [c]) s.
Proof. intros H. cbn [split_from]. rewrite H. reflexivity. Qed.

Lemma drop_while_spaces (w s : jsstring) :
  forallb is_space w = true ->
  drop_while is_space (w ++ s) = drop_while is_space s.
Proof.
  induction w as [|c w IH]; simpl; [reflexivity|].
  intros H. apply andb_true_iff in H. destruct H as [Hc Hw].
  rewrite Hc. exact (IH Hw).
Qed.

Lemma no_separator_inside (v t : jsstring) :
  forallb (fun c => negb (N.eqb c 44)) v = true ->
  forallb is_space v = false ->
  match_separator (v ++ t) = None.
Proof.
  unfold match_separator.
  induction v as [|d v IH]; simpl; [discriminate|].
  intros Hc Hs. apply andb_true_iff in Hc. destruct Hc as [Hd Hc].
  destruct (is_space d) eqn:Ed.
  - simpl in Hs. exact (IH Hc Hs).
  - apply negb_true_iff in Hd. rewrite Hd. reflexivity.
Qed.

Lemma drop_end_shorter (p : char -> bool) (u v : jsstring) :
  forallb p v = true -> v <> [] -> drop_end p (u ++ v) <> u ++ v.
Proof.
  intros Hall Hne Heq.
  destruct (drop_end_split p u) as [w [Hw _]].
  assert (Hd : drop_end p (u ++ v) = drop_end p u).
  { clear Heq Hw. induction u as [|c u IH]; simpl.
    - apply drop_end_nil. exact Hall.
    - rewrite IH. reflexivity. }
  rewrite Hd in Heq.
  assert (Hlen : length (drop_end p u) = length (u ++ v)) by (f_equal; exact Heq).
  assert (Hle : (length (drop_end p u) <= length u)%nat).
  { rewrite Hw at 2. rewrite length_app. lia. }
  rewrite length_app in Hlen.
  destruct v; [congruence|]. simpl in Hlen. lia.
Qed.

Lemma author_id_facts (x : jsstring) :
  is_author_id x = true ->
  forallb (fun c => negb (N.eqb c 44)) x = true
  /\ (exists c r, x = c :: r /\ is_space c = false)
  /\ forall u v, x = u ++ v -> v <> [] -> forallb is_space v = false.
Proof.
  unfold is_author_id. intros H.
  apply andb_true_iff in H. destruct H as [H He].
  apply andb_true_iff in H. destruct H as [H Hw].
  apply andb_true_iff in H. destruct H as [Ht Hc].
  apply eqb_eq in He. apply eqb_eq in Hw.
  split; [exact Hc|]. split.
  - destruct x as [|c r]; [discriminate|]. exists c, r.
    split; [reflexivity|]. eapply drop_while_head. exact Hw.
  - intros u v Hx Hne. destruct (forallb is_space v) eqn:E; [|reflexivity].
    exfalso. subst x. exact (@drop_end_shorter _ u v E Hne He).
Qed.

Lemma forallb_suffix (p : char -> bool) (u v : jsstring) :
  forallb p (u ++ v) = true -> forallb p v = true.
Proof.
  rewrite forallb_app. intros H. apply andb_true_iff in H. tauto.
Qed.

Lemma split_word (x : jsstring) :
  forall piece t,
    forallb (fun c => negb (N.eqb c 44)) x = true ->
    (forall u v, x = u ++ v -> v <> [] -> forallb is_space v = false) ->
    split_from 0 piece (x ++ t) = split_from 0 (piece ++ x) t.
Proof.
  induction x as [|c x IH]; intros piece t Hc Hs.
  - rewrite app_nil_r. reflexivity.
  - simpl app. rewrite split_no_separator.
    + rewrite IH.
      * rewrite <- app_assoc. reflexivity.
      * simpl in Hc. apply andb_true_iff in Hc. tauto.
      * intros u v Hx Hne. apply (Hs (c :: u) v); [|exact Hne].
        simpl. f_equal. exact Hx.
    + apply (@no_separator_inside (c :: x) t Hc).
      apply (Hs [] (c :: x)); [reflexivity|discriminate].
Qed.

Lemma split_join (w1 w2 : jsstring) (ids : list jsstring) :
  forallb is_space w1 = true -> forallb is_space w2 = true ->
  forallb is_author_id ids = true ->
  forall x, is_author_id x = true ->
    split_from 0 [] (join (w1 ++ [44] ++ w2) (x :: ids)) = x :: ids.
Proof.
  intros H1 H2.
  induction ids as [|y ids IH]; intros Hids x Hx;
    destruct (@author_id_facts _ Hx) as [Hc [_ Hs]].
  - simpl. rewrite <- (app_nil_r x) at 1.
    rewrite (@split_word x [] [] Hc Hs). reflexivity.
  - simpl in Hids. apply andb_true_iff in Hids. destruct Hids as [Hy Hids].
    change (join (w1 ++ [44] ++ w2) (x :: y :: ids))
      with (x ++ (w1 ++ [44] ++ w2) ++ join (w1 ++ [44] ++ w2) (y :: ids)).
    rewrite (@split_word x [] _ Hc Hs). simpl app at 1.
    set (J := join (w1 ++ [44] ++ w2) (y :: ids)).
    assert (HJ : drop_while is_space (w2 ++ J) = J).
    { rewrite (@drop_while_spaces _ _ H2).
      destruct (@author_id_facts _ Hy) as [_ [[c [r [Ey Ec]]] _]].
      unfold J. destruct ids; simpl; rewrite Ey; simpl; rewrite Ec;
        reflexivity. }
    assert (Hm : match_separator ((w1 ++ [44] ++ w2) ++ J) = Some J).
    { unfold match_separator. rewrite <- !app_assoc.
      rewrite (@drop_while_spaces _ _ H1).
      change (drop_while is_space ([44] ++ w2 ++ J)) with (44 :: w2 ++ J).
      cbv beta iota. rewrite N.eqb_refl, HJ. reflexivity. }
    destruct ((w1 ++ [44] ++ w2) ++ J) as [|c s] eqn:E.
    { destruct w1; discriminate. }
    rewrite (@split_at_separator _ _ _ x Hm). f_equal.
    exact (IH Hids y Hy).
Qed.

(** X21: Author ids written one after the other with commas, with or
    without white space around the commas, are read back as they were
    written, in the same order. *)
Theorem authors_round_trip (w1 w2 : jsstring) (ids : list jsstring) :
  forallb is_space w1 = true -> forallb is_space w2 = true ->
  ids <> [] -> forallb is_author_id ids = true ->
  authors_of (Some (Some (join (w1 ++ [44] ++ w2) ids))) = ids.
Proof.
  intros H1 H2 Hne Hids. destruct ids as [|x ids]; [congruence|].
  simpl in Hids. apply andb_true_iff in Hids. destruct Hids as [Hx Hids].
  exact (@split_join w1 w2 ids H1 H2 Hids x Hx).
Qed.

Lemma authors_round_trip_witness :
  authors_of (Some (Some (lit "robin , bumblefudge")))
  = [lit "robin"; lit "bumblefudge"].
Proof.
  refine (@authors_round_trip (lit " ") (lit " ")
            [lit "robin"; lit "bumblefudge"] eq_refl eq_refl _ eq_refl).
  discriminate.
Defined.

Lemma split_pieces (s : jsstring) :
  forall n piece,
    ~ In 44 piece ->
    Forall (fun p => ~ In 44 p) (split_from n piece s).
Proof.
  induction s as [|c s IH]; intros n piece Hp.
  - constructor; [exact Hp|constructor].
  - destruct n as [|n]; [|exact (IH n piece Hp)].
    cbn [split_from].
    destruct (match_separator (c :: s)) as [rest|] eqn:E.
    + constructor; [exact Hp|]. apply IH. simpl. tauto.
    + apply IH. intros Hin. apply in_app_or in Hin.
      destruct Hin as [Hin|[->|[]]]; [exact (Hp Hin)|].
      unfold match_separator in E. simpl in E. discriminate.
Qed.

(** X22: without the element [meta[name=authors]], or without its
    [content] attribute, the authors are the two default ones, [robin] and
    [bumblefudge]; with the attribute they are the pieces of its value,
    never the default ones in their stead, an attribute that is present and
    empty giving the single empty id.  In every case the list of authors is
    not empty and none of its ids holds a comma. *)
Theorem authors_never_empty (meta : option (option jsstring)) :
  authors_of None = [lit "robin"; lit "bumblefudge"]
  /\ authors_of (Some None) = [lit "robin"; lit "bumblefudge"]
  /\ (forall content, authors_of (Some (Some content)) = split_commas content)
  /\ authors_of (Some (Some [])) = [[]]
  /\ authors_of meta <> []
  /\ Forall (fun p => ~ In 44 p) (authors_of meta).
Proof.
  split; [reflexivity|]. split; [reflexivity|]. split; [reflexivity|].
  split; [reflexivity|]. split.
  - destruct meta as [[content|]|]; try discriminate.
    unfold authors_of, split_commas.
    generalize (@nil char) at 1. generalize 0%nat.
    induction content as [|c s IH]; intros n piece; [discriminate|].
    destruct n as [|n]; [|apply IH].
    cbn [split_from]. destruct (match_separator (c :: s)); [discriminate|].
    apply IH.
  - destruct meta as [[content|]|].
    + apply split_pieces. simpl. tauto.
    + repeat constructor; simpl; intros H;
        repeat match goal with
               | H : _ \/ _ |- _ => destruct H as [H|H]
               end; try discriminate; exact H.
    + repeat constructor; simpl; intros H;
        repeat match goal with
               | H : _ \/ _ |- _ => destruct H as [H|H]
               end; try discriminate; exact H.
Qed.

(* ================================================================= *)
(** ** The copy button of the pages *)

Lemma node_induction (P : node -> Prop) :
  (forall s, P (Text s)) ->
  (forall t classes attrs kids, Forall P kids -> P (Elem t classes attrs kids)) ->
  forall n, P n.
Proof.
  intros HText HElem.
  fix IH 1. intros [s|t classes attrs kids]; [apply HText|].
  apply HElem. induction kids as [|k kids IHk]; constructor.
  - apply IH.
  - exact IHk.
Qed.

Section Selectors.
Variable sel : node -> bool.
Hypothesis sel_label :
  forall q n, sel (remove_matching q n) = sel n.

Lemma remove_matching_sound (n : node) :
  has_descendant sel (remove_matching sel n) = false.
Proof.
  induction n as [s|t classes attrs kids IH] using node_induction;
    [reflexivity|].
  simpl. induction IH as [|k kids Hk _ IHk]; [reflexivity|].
  simpl. destruct (sel k) eqn:E; [exact IHk|].
  simpl. rewrite sel_label, E, Hk, IHk. reflexivity.
Qed.

Lemma remove_matching_clean (q : node -> bool) (n : node) :
  has_descendant sel n = false ->
  has_descendant sel (remove_matching q n) = false.
Proof.
  induction n as [s|t classes attrs kids IH] using node_induction;
    [reflexivity|].
  simpl. induction IH as [|k kids Hk _ IHk]; [reflexivity|].
  simpl. intros H. apply orb_false_iff in H. destruct H as [H1 H2].
  apply orb_false_iff in H1. destruct H1 as [H1 H1'].
  destruct (q k); [exact (IHk H2)|].
  simpl. rewrite sel_label, H1, (Hk H1'), (IHk H2). reflexivity.
Qed.

Lemma remove_matching_nothing (n : node) :
  has_descendant sel n = false -> remove_matching sel n = n.
Proof.
  induction n as [s|t classes attrs kids IH] using node_induction;
    [reflexivity|].
  simpl. intros H. f_equal.
  induction IH as [|k kids Hk _ IHk]; [reflexivity|].
  simpl in H. apply orb_false_iff in H. destruct H as [H1 H2].
  apply orb_false_iff in H1. destruct H1 as [H1 H1'].
  simpl. rewrite H1, (Hk H1'), (IHk H2). reflexivity.
Qed.
End Selectors.

Lemma matches_strip_label (q : node -> bool) (n : node) :
  matches_strip (remove_matching q n) = matches_strip n.
Proof. destruct n; reflexivity. Qed.

Lemma matches_exclude_label (quirks : bool) (q : node -> bool) (n : node) :
  matches_exclude quirks (remove_matching q n) = matches_exclude quirks n.
Proof. destruct n; reflexivity. Qed.

(** X23: whether the document is in quirks mode or not, the clone that is
    copied holds no [script], [style] or [noscript] element and no element
    that the selector [[data-copy-exclude], .copy-exclude] matches in that
    mode, below its root, at any depth; a [main] that holds no such
    element is copied as it is. *)
Theorem excluded_nodes_removed (quirks : bool) (m : node) :
  exists clone,
    getMainClone quirks (Some m) = Some clone
    /\ has_descendant matches_strip clone = false
    /\ has_descendant (matches_exclude quirks) clone = false
    /\ (has_descendant matches_strip m = false ->
        has_descendant (matches_exclude quirks) m = false -> clone = m).
Proof.
  eexists. split; [reflexivity|]. split; [|split].
  - apply (@remove_matching_clean _ matches_strip_label).
    apply (@remove_matching_sound _ matches_strip_label).
  - apply (@remove_matching_sound _ (matches_exclude_label quirks)).
  - intros H1 H2.
    rewrite (@remove_matching_nothing matches_strip _ H1).
    exact (@remove_matching_nothing (matches_exclude quirks) _ H2).
Qed.

(** At a sample [main]: the paragraph stays, the script and the excluded
    block go, in either mode. *)
Lemma clone_of_sample_main (quirks : bool) :
  getMainClone quirks (Some Case.main_with_script)
  = Some (Elem (lit "main") [] [] [Elem (lit "p") [] [] [Text (lit "kept")]]).
Proof. destruct quirks; reflexivity. Qed.

(** A block of class [Copy-Exclude] goes in quirks mode and stays
    otherwise. *)
Lemma clone_in_quirks_mode :
  getMainClone true (Some Case.main_with_capitals)
  = Some (Elem (lit "main") [] [] [])
  /\ getMainClone false (Some Case.main_with_capitals)
     = Some Case.main_with_capitals.
Proof. split; reflexivity. Qed.

Lemma long_run_squeezed (s : jsstring) :
  forall seen, (seen <= 2)%nat -> long_run seen (squeeze_newlines seen s) = false.
Proof.
  induction s as [|c s IH]; intros seen Hs; [reflexivity|].
  simpl. destruct (N.eqb c 10) eqn:E.
  - destruct seen as [|[|seen]].
    + simpl. rewrite E. apply IH. lia.
    + simpl. rewrite E. apply IH. lia.
    + apply IH. exact Hs.
  - simpl. rewrite E. apply IH. lia.
Qed.

Lemma squeeze_nothing (s : jsstring) :
  forall seen, long_run seen s = false -> squeeze_newlines seen s = s.
Proof.
  induction s as [|c s IH]; intros seen H; [reflexivity|].
  simpl in *. destruct (N.eqb c 10).
  - destruct seen as [|[|seen]]; [| |discriminate]; rewrite (@IH _ H);
      reflexivity.
  - rewrite (@IH _ H). reflexivity.
Qed.

Lemma long_run_fewer (s : jsstring) :
  forall seen, long_run seen s = false -> long_run 0 s = false.
Proof.
  destruct s as [|c s]; intros seen H; [reflexivity|].
  simpl in *. destruct (N.eqb c 10); [|exact H].
  destruct seen as [|[|seen]]; [exact H| |discriminate].
  destruct s as [|d s]; [reflexivity|].
  simpl in *. destruct (N.eqb d 10); [discriminate|exact H].
Qed.

Lemma long_run_suffix (a b : jsstring) :
  forall seen, long_run seen (a ++ b) = false -> long_run 0 b = false.
Proof.
  induction a as [|c a IH]; intros seen H; [exact (@long_run_fewer _ _ H)|].
  simpl in H. destruct (N.eqb c 10).
  - destruct seen as [|[|seen]]; [| |discriminate]; exact (@IH _ H).
  - exact (@IH _ H).
Qed.

Lemma long_run_prefix (a b : jsstring) :
  forall seen, long_run seen (a ++ b) = false -> long_run seen a = false.
Proof.
  induction a as [|c a IH]; intros seen H; [reflexivity|].
  simpl in *. destruct (N.eqb c 10).
  - destruct seen as [|[|seen]]; [| |discriminate]; exact (@IH _ H).
  - exact (@IH _ H).
Qed.

Lemma long_run_trim (s : jsstring) :
  long_run 0 s = false -> long_run 0 (trim s) = false.
Proof.
  intros H. unfold trim.
  destruct (drop_while_split is_space s) as [w Hw].
  rewrite Hw in H. apply long_run_suffix in H.
  destruct (drop_end_split is_space (drop_while is_space s)) as [v [Hv _]].
  rewrite Hv in H. exact (@long_run_prefix _ _ _ H).
Qed.

Lemma trim_twice (s : jsstring) : trim (trim s) = trim s.
Proof.
  unfold trim.
  assert (Hd : drop_while is_space (drop_end is_space (drop_while is_space s))
               = drop_end is_space (drop_while is_space s)).
  { destruct (drop_end is_space (drop_while is_space s)) as [|c r] eqn:E;
      [reflexivity|].
    destruct (@drop_end_first _ _ _ _ E) as [r' Hr'].
    simpl. rewrite (@drop_while_head _ _ _ _ Hr'). reflexivity. }
  rewrite Hd. apply drop_end_twice.
Qed.

(** X24: The text handed to the clipboard is in a normal form: it holds
    no three line feeds in a row, it neither starts nor ends with white
    space, and normalizing it again changes nothing. *)
Theorem copy_text_normal (quirks : bool)
    (innerText outerHTML : node -> jsstring) (m : node) :
  let text := fst (getCopyPayload quirks innerText outerHTML (Some m)) in
  long_run 0 text = false
  /\ (forall c r, text = c :: r -> is_space c = false)
  /\ (forall r c, text = r ++ [c] -> is_space c = false)
  /\ trim (squeeze_newlines 0 text) = text.
Proof.
  unfold getCopyPayload, getMainClone. cbn [fst].
  set (t := squeeze_newlines 0 _).
  assert (Hrun : long_run 0 (trim t) = false).
  { apply long_run_trim. apply long_run_squeezed. lia. }
  split; [exact Hrun|]. split; [|split].
  - intros c r H. unfold trim in H.
    destruct (@drop_end_first _ _ _ _ H) as [r' Hr'].
    eapply drop_while_head; exact Hr'.
  - intros r c H. unfold trim in H. eapply drop_end_last; exact H.
  - rewrite (@squeeze_nothing _ _ Hrun). apply trim_twice.
Qed.



(* ================================================================= *)
(** ** Further edge cases of [build] and [slugify] *)

(** X26: A document without an abstract is reported and built all the
    same. *)
Theorem missing_abstract_reported (bib : object value) (s : source)
    (errs : list jsstring) :
  fits (doc_elements s) ->
  getElementById (doc_elements s) (lit "abstract") = None ->
  exists pg errs',
    process bib s errs = Some (pg, errs')
    /\ In (missing_abstract_error (doc_title s)) errs'.
Proof.
  intros Hfits Habs.
  destruct (process_total bib s errs Hfits) as (pg & errs' & H).
  exists pg, errs'. split; [exact H|].
  unfold process in H. rewrite Habs in H.
  unfold resolve in H.
  destruct (dfn_pass [] (doc_elements s)) as [d|]; [|discriminate].
  rewrite (@link_pass_map d d [] _ eq_refl) in H. cbn [app] in H.
  match type of H with
  | context [replace_markers ?cb _ ?h ?st] =>
      pose proof (replace_errs_grow bib h st) as [more Hmore];
      destruct (replace_markers cb 0 h st) as [html [refs e3]]
  end.
  simpl in Hmore. injection H as _ <-. rewrite Hmore.
  apply in_or_app. left. apply in_or_app. left. apply in_or_app. right.
  left. reflexivity.
Qed.

Lemma missing_abstract_reported_witness :
  (fits [Sample.dfn "Node"]
   /\ getElementById [Sample.dfn "Node"] (lit "abstract") = None)
  /\ exists pg errs',
       process [] (Source (lit "T") [lit "robin"] [Sample.dfn "Node"]
                     (fun _ => lit "text")) []
       = Some (pg, errs')
       /\ In (missing_abstract_error (lit "T")) errs'.
Proof.
  split; [split; reflexivity|].
  exact (@missing_abstract_reported []
           (Source (lit "T") [lit "robin"] [Sample.dfn "Node"]
              (fun _ => lit "text")) [] eq_refl eq_refl).
Defined.

Lemma idify_prefixed (txt : jsstring) (suf : option N) :
  exists rest, idify (lit "dfn") txt suf = lit "dfn" ++ rest.
Proof.
  unfold idify.
  change (filter Boolean [PStr (lit "dfn"); PStr txt; suffix_part suf])
    with (PStr (lit "dfn") :: filter Boolean [PStr txt; suffix_part suf]).
  destruct (filter Boolean [PStr txt; suffix_part suf]) as [|p ps].
  - exists []. reflexivity.
  - eexists. reflexivity.
Qed.

(** X27: An identifier that the resolver generates starts with [dfn]: it
    is not empty, and it differs from the id [ref-key] of every entry of a
    references section. *)
Theorem generated_ids_namespaced (doc : document) (e : element)
    (unique : bool) (i : jsstring) :
  id e = None ->
  slugify doc e (lit "dfn") unique = Some i ->
  (exists rest, i = lit "dfn" ++ rest)
  /\ forall key, i <> lit "ref-" ++ key.
Proof.
  intros Hid H.
  assert (Hp : exists rest, i = lit "dfn" ++ rest).
  { unfold slugify, slugify_fuel in H. rewrite Hid in H. cbv zeta in H.
    destruct unique.
    - destruct (slug_loop_exit _ _ _ _ _ _ H) as [_ [->|[n ->]]];
        apply idify_prefixed.
    - injection H as <-. apply idify_prefixed. }
  split; [exact Hp|].
  destruct Hp as [rest ->]. intros key Heq. discriminate.
Qed.

Lemma generated_ids_namespaced_witness :
  (id (Sample.dfn "Node") = None
   /\ slugify Sample.nodes_and_id (Sample.dfn "Node") (lit "dfn") true
      = Some (lit "dfn-node-1"))
  /\ exists rest, lit "dfn-node-1" = lit "dfn" ++ rest.
Proof.
  split; [split; reflexivity|].
  exact (proj1 (@generated_ids_namespaced Sample.nodes_and_id
                  (Sample.dfn "Node") true (lit "dfn-node-1")
                  eq_refl eq_refl)).
Defined.

Lemma assign_keeps_keys (V : Type) (o : object V) (k k' : jsstring) (v : V) :
  In k (map fst o) -> In k (map fst (assign o k' v)).
Proof.
  intros H. destruct (assign_keys o k' v) as [E|[_ [_ E]]]; rewrite E.
  - exact H.
  - apply in_or_app. left. exact H.
Qed.

Lemma specs_of_keys (files : list (jsstring * source)) (f : jsstring) :
  forall o,
    f <> proto_key ->
    In f (map fst o) \/ In f (map fst files) ->
    In f (map fst (fold_left (fun o x => assign o (fst x) (snd x)) files o)).
Proof.
  induction files as [|[k s] files IH]; intros o Hf H; simpl.
  - destruct H as [H|[]]. exact H.
  - apply IH; [exact Hf|]. simpl in H.
    destruct H as [H|[H|H]].
    + left. apply assign_keeps_keys. exact H.
    + left. subst k. eapply own_some_in. apply own_assign_same. exact Hf.
    + right. exact H.
Qed.

(** X28: every listed source gets exactly one page, except a source whose
    short name is [__proto__], which gets none: storing it in [specs]
    reaches the inherited setter and leaves no key to loop over. *)
Theorem every_source_gets_a_page (members : list (jsstring * jsstring))
    (people : registry) (clock : nat -> Z) (files : list (jsstring * source))
    (pages : list (jsstring * page)) (errs : list jsstring) :
  build members people clock files = Some (pages, errs) ->
  NoDup (map fst pages)
  /\ ~ In proto_key (map fst pages)
  /\ forall f, In f (map fst files) -> f <> proto_key -> In f (map fst pages).
Proof.
  intros H. unfold build in H. cbv zeta in H.
  destruct (synthesize people clock (specs_of files) 0 (keys (specs_of files))
              (JSON_parse (map (fun m => (fst m, Str (snd m))) members)))
    as [bib'|]; [|discriminate].
  assert (Hk : map fst pages = keys (specs_of files)).
  { revert H. generalize (@nil jsstring). generalize (keys (specs_of files)).
    intros ks. revert pages errs.
    induction ks as [|k ks IH]; intros pages errs e0 H; simpl in H.
    - injection H as <- _. reflexivity.
    - destruct (own (specs_of files) k) as [s|]; [|discriminate].
      destruct (process bib' s e0) as [[pg e1]|]; [|discriminate].
      destruct (process_all bib' (specs_of files) ks e1) as [[pages' e2]|] eqn:Er;
        [|discriminate].
      injection H as <- _. simpl. f_equal. exact (IH _ _ _ Er). }
  rewrite Hk. destruct (specs_of_plain files) as [Hnd Hp].
  split; [apply keys_nodup; exact Hnd|]. split.
  - intros Hin. apply keys_in in Hin. exact (Hp Hin).
  - intros f Hf Hne. apply keys_in. unfold specs_of.
    apply specs_of_keys; [exact Hne|]. right. exact Hf.
Qed.

Lemma every_source_gets_a_page_witness :
  build [] Sample.people Sample.noon
    [(proto_key, Sample.spec_with "text"); (lit "b", Sample.spec_with "text")]
  = Some ([(lit "b", Page (lit "text") None)], [])
  /\ ~ In proto_key (map fst [(lit "b", Page (lit "text") None)]).
Proof.
  assert (H : build [] Sample.people Sample.noon
                [(proto_key, Sample.spec_with "text");
                 (lit "b", Sample.spec_with "text")]
              = Some ([(lit "b", Page (lit "text") None)], []))
    by reflexivity.
  split; [exact H|].
  exact (proj1 (proj2 (@every_source_gets_a_page _ _ _ _ _ _ H))).
Defined.
